(** * Histogram construction and row partitioning: a shallow embedding

    The development follows two source files:
    - [plugin/sycl/common/hist_util.cc]: the device histogram kernels
      (buffered, local-private-bins, atomic), their dispatcher, the
      reduction kernel and the fill, copy and subtraction primitives;
    - [src/tree/common_row_partitioner.h]: [FindSplitConditions],
      [ColumnSplitHelper::Partition] and [UpdatePosition].

    Conventions.
    - Loop counters and array sizes ([size_t]) are natural numbers; 32-bit
      unsigned quantities (bin indices, cut pointers) are [N] with the
      wrap-around modulo [2^32] written where the source computes in
      [uint32_t].
    - Device and host arrays are lists.  An access outside an array is
      undefined in the source; here it is a [Fault], with reads and writes
      told apart, so that memory-safety statements are about [BadWrite].
    - A failing [CHECK] is the fault [CheckFailed]; an integer division by
      zero is [DivByZero]; a failed collective call is [CollectiveFailed].
    - Code that mutates an object and may throw is a state-and-error
      computation: a fault leaves behind the state reached so far. *)

From Stdlib Require Import ZArith NArith Lia List Bool.
From Stdlib.Strings Require Import Byte.
From stdpp Require Import base tactics option list numbers gmap.

(** ** Faults and the error monad *)

Inductive fault : Type :=
  | BadRead
  | BadWrite
  | CheckFailed
  | DivByZero
  | CollectiveFailed.

Inductive res (A : Type) : Type :=
  | Ok (a : A)
  | Fault (f : fault).

Arguments Ok {A} a.
Arguments Fault {A} f.

#[global] Instance res_ret : MRet res := λ A a, Ok a.
#[global] Instance res_bind : MBind res :=
  λ A B k m, match m with Ok a => k a | Fault f => Fault f end.

Definition is_Ok {A} (r : res A) : Prop := ∃ a, r = Ok a.

(** [a[i]] as an rvalue. *)
Definition read {A} (a : list A) (i : nat) : res A :=
  match a !! i with Some x => Ok x | None => Fault BadRead end.

(** [a[i] = x]. *)
Definition write {A} (a : list A) (i : nat) (x : A) : res (list A) :=
  if decide (i < length a) then Ok (<[i:=x]> a) else Fault BadWrite.

(** [CHECK(b)]. *)
Definition check (b : bool) : res unit :=
  if b then Ok tt else Fault CheckFailed.

(** [for (x : l) body], threading the state [s]. *)
Fixpoint for_each {A S} (l : list A) (body : A → S → res S) (s : S) : res S :=
  match l with
  | [] => Ok s
  | x :: l' => s' ← body x s; for_each l' body s'
  end.

(** [for (i = 0; i < n; ++i) body]. *)
Definition for_range {S} (n : nat) (body : nat → S → res S) (s : S) : res S :=
  for_each (seq 0 n) body s.

(** ** Computations on a mutable object *)

Definition stateful (S A : Type) : Type := S → res A * S.

#[global] Instance stateful_ret {S} : MRet (stateful S) := λ A a s, (Ok a, s).
#[global] Instance stateful_bind {S} : MBind (stateful S) :=
  λ A B k m s,
    match m s with
    | (Ok a, s') => k a s'
    | (Fault f, s') => (Fault f, s')
    end.

Definition get {S} : stateful S S := λ s, (Ok s, s).
Definition modify {S} (f : S → S) : stateful S unit := λ s, (Ok tt, f s).
(** A computation that does not touch the object. *)
Definition lift {S A} (r : res A) : stateful S A := λ s, (r, s).

Fixpoint sfor_each {A S} (l : list A) (body : A → stateful S unit)
    : stateful S unit :=
  match l with
  | [] => mret tt
  | x :: l' => _ ← body x; sfor_each l' body
  end.

(** ** Machine integers *)

Definition two32 : N := 4294967296%N.
Definition int32_max : N := 2147483647%N.

(** [uint32_t] addition. *)
Definition add32 (a b : N) : N := ((a + b) mod two32)%N.
(** [uint32_t] multiplication. *)
Definition mul32 (a b : N) : N := ((a * b) mod two32)%N.
(** [uint32_t] subtraction. *)
Definition sub32 (a b : N) : N := ((a + two32 - b mod two32) mod two32)%N.

(** [static_cast<int32_t>] of a 32-bit unsigned value. *)
Definition to_int32 (a : N) : Z :=
  let z := (Z.of_N a mod Z.of_N two32)%Z in
  if (z <? Z.of_N two32 / 2)%Z then z else (z - Z.of_N two32)%Z.

(** [for (auto b = lo; b < hi; ++b)] over [uint32_t] values. *)
Definition range32 (lo hi : N) : list N :=
  map N.of_nat (seq (N.to_nat lo) (N.to_nat hi - N.to_nat lo)).

(** ** [CommonRowPartitioner::FindSplitConditions] *)

(** [float] with the comparison [==] of the source.  Nothing is assumed
    about it: it need not be reflexive (NaN). *)
Class FloatEq (Float : Type) := feq : Float → Float → bool.

(** The part of [ExpandEntry] that is used: the node id. *)
Record ExpandEntry := { nid : Z }.

(** The part of [RegTree] that the partitioner calls. *)
Record RegTree (Float : Type) := {
  SplitIndex : Z → N;
  SplitCond : Z → Float;
  DefaultLeft : Z → bool;
  LeftChild : Z → Z;
  RightChild : Z → Z;
}.
Arguments SplitIndex {Float} _ _.
Arguments SplitCond {Float} _ _.
Arguments DefaultLeft {Float} _ _.
Arguments LeftChild {Float} _ _.
Arguments RightChild {Float} _ _.

Section SplitConditions.
Context {Float : Type} `{!FloatEq Float}.

(** The inner loop: the last [bound] whose cut value equals [split_pt]
    wins. *)
Definition scan_bounds (vals : list Float) (split_pt : Float)
    (lower_bound upper_bound : N) : res Z :=
  for_each (range32 lower_bound upper_bound)
    (λ bound split_cond,
       v ← read vals (N.to_nat bound);
       mret (if feq split_pt v then to_int32 bound else split_cond))
    (-1)%Z.

Definition FindSplitConditions (nodes : list ExpandEntry) (tree : RegTree Float)
    (ptrs : list N) (vals : list Float) (split_conditions : list Z)
    : res (list Z) :=
  for_range (length nodes)
    (λ i split_conditions,
       e ← read nodes i;
       let nidx := nid e in
       let fidx := SplitIndex tree nidx in
       let split_pt := SplitCond tree nidx in
       lower_bound ← read ptrs (N.to_nat fidx);
       upper_bound ← read ptrs (N.to_nat (add32 fidx 1));
       _ ← check (upper_bound <? int32_max)%N;
       split_cond ← scan_bounds vals split_pt lower_bound upper_bound;
       write split_conditions i split_cond)
    split_conditions.

End SplitConditions.

(** ** Gradient pairs and histograms *)

(** [GradientPairInternal<T>]: two adjacent fields of type [T]. *)
Record GradientPairInternal (T : Type) := MkGradientPair {
  grad_ : T;
  hess_ : T;
}.
Arguments MkGradientPair {T} _ _.
Arguments grad_ {T} _.
Arguments hess_ {T} _.

Definition GetGrad {T} (p : GradientPairInternal T) : T := grad_ p.
Definition GetHess {T} (p : GradientPairInternal T) : T := hess_ p.

(** The arithmetic of the histogram precision [FPType] and the conversion
    from the precision [ValueT] of the input gradients.  No law is assumed
    here; the statements that need exact arithmetic ask for [FPExact]. *)
Class FPOps (ValueT FPType : Type) := {
  fp_of_value : ValueT → FPType;
  fp_zero : FPType;
  fp_add : FPType → FPType → FPType;
  fp_sub : FPType → FPType → FPType;
}.

(** Exact arithmetic: addition is a commutative monoid.  Floating-point
    addition satisfies this only up to rounding. *)
Class FPExact {ValueT FPType : Type} (ops : FPOps ValueT FPType) : Prop := {
  fp_add_comm : ∀ x y : FPType, fp_add x y = fp_add y x;
  fp_add_assoc : ∀ x y z : FPType, fp_add x (fp_add y z) = fp_add (fp_add x y) z;
  fp_add_0_l : ∀ x : FPType, fp_add fp_zero x = x;
}.

(** Exact subtraction: [x - y] is the value that gives [x] back when [y]
    is added to it. *)
Class FPGroup {ValueT FPType : Type} (ops : FPOps ValueT FPType) : Prop := {
  fp_sub_add : ∀ x y : FPType, fp_add (fp_sub x y) y = x;
  fp_add_sub : ∀ x y : FPType, fp_sub (fp_add x y) y = x;
}.

(** The integers as an exact instance, used to evaluate the kernels. *)
#[global] Instance Z_FPOps : FPOps Z Z := {|
  fp_of_value := λ v, v;
  fp_zero := 0%Z;
  fp_add := Z.add;
  fp_sub := Z.sub;
|}.

(** ** The binned matrix *)

Inductive BinIdxType : Type := uint8_t | uint16_t | uint32_t.

Definition sizeof (T : BinIdxType) : nat :=
  match T with uint8_t => 1 | uint16_t => 2 | uint32_t => 4 end.

Inductive BinTypeSize : Type :=
  | kUint8BinsTypeSize
  | kUint16BinsTypeSize
  | kUint32BinsTypeSize.

(** The fields of [GHistIndexMatrix] that the kernels read.  [index_data] is
    the raw storage of [gmat.index]; [cut_ptrs_] is [gmat.cut.cut_ptrs_]. *)
Record GHistIndexMatrix := {
  nfeatures : nat;
  row_stride : nat;
  nbins : nat;
  max_num_bins : nat;
  min_num_bins : nat;
  index_data : list Byte.byte;
  index_bin_type_size : BinTypeSize;
  cut_ptrs_ : list N;
}.

Definition GetBinTypeSize (gmat : GHistIndexMatrix) : BinTypeSize :=
  index_bin_type_size gmat.

(** The value of a little-endian byte string. *)
Fixpoint le_value (bs : list Byte.byte) : N :=
  match bs with
  | [] => 0%N
  | b :: r => (Byte.to_N b + 256 * le_value r)%N
  end.

(** [gmat.index.data<T>()[k]]: the storage reinterpreted as an array of
    [T]. *)
Definition index_at (T : BinIdxType) (data : list Byte.byte) (k : nat) : res N :=
  let w := sizeof T in
  if decide (k * w + w ≤ length data)
  then Ok (le_value (take w (drop (k * w) data)))
  else Fault BadRead.

(** ** The dispatcher's configuration *)

Record Block := { size : nat; nblocks : nat }.

(** The fields of [tree::HistDispatcher<FPType>] read by this file. *)
Record HistDispatcher := {
  work_group_size : nat;
  block : Block;
  use_local_hist : bool;
  use_atomics : bool;
}.

(** ** Loops of the kernels *)

(** [for (j = first; j < bound; j += step)]: the indices visited.  The
    fuel [bound] is enough whenever [step > 0]; a lane exists only when the
    work-group size, which is the step, is positive. *)
Fixpoint stride_from (fuel j step bound : nat) : list nat :=
  match fuel with
  | 0 => []
  | S fuel' =>
      if decide (j < bound) then j :: stride_from fuel' (j + step) step bound
      else []
  end.

Definition strided (first bound step : nat) : list nat :=
  stride_from bound first step bound.

(** A two-dimensional [parallel_for]: the work-items run one after the
    other in the order of their global id.  Interleavings and the
    work-group barrier are not modelled. *)
Definition parallel_for2 {S} (n m : nat) (body : nat → nat → S → res S) (s : S)
    : res S :=
  for_range n (λ a, for_range m (λ b, body a b)) s.

(** [qu->fill(a, v, n)]. *)
Definition fill {A} (a : list A) (v : A) (n : nat) : res (list A) :=
  for_range n (λ i a, write a i v) a.

Section Hist.
Context {ValueT FPType : Type} `{!FPOps ValueT FPType}.

(** [GradientPair] is [GradientPairInternal<float>]; [GradientPairT] is the
    pair type of the histogram. *)
Local Abbreviation GradientPair := (GradientPairInternal ValueT).
Local Abbreviation GradientPairT := (GradientPairInternal FPType).

(** [GradientPairT(0, 0)]. *)
Definition gp_zero : GradientPairT := MkGradientPair fp_zero fp_zero.

(** [operator+=] on pairs. *)
Definition gp_add (a b : GradientPairT) : GradientPairT :=
  MkGradientPair (fp_add (grad_ a) (grad_ b)) (fp_add (hess_ a) (hess_ b)).

(** [a[i] += v] on an array of pairs. *)
Definition accumulate (a : list GradientPairT) (i : nat) (v : GradientPairT)
    : res (list GradientPairT) :=
  match a !! i with
  | Some x => Ok (<[i := gp_add x v]> a)
  | None => Fault BadWrite
  end.

(** An array of pairs seen through [reinterpret_cast<T*>]: element [i] is
    a field of pair [i / 2]. *)
Definition flat_get {T} (p : GradientPairInternal T) (i : nat) : T :=
  if Nat.even i then grad_ p else hess_ p.

Definition flat_set {T} (p : GradientPairInternal T) (i : nat) (v : T)
    : GradientPairInternal T :=
  if Nat.even i then MkGradientPair v (hess_ p) else MkGradientPair (grad_ p) v.

Definition flat_read {T} (a : list (GradientPairInternal T)) (i : nat) : res T :=
  p ← read a (i / 2); mret (flat_get p i).

Definition flat_write {T} (a : list (GradientPairInternal T)) (i : nat) (v : T)
    : res (list (GradientPairInternal T)) :=
  match a !! (i / 2) with
  | Some p => Ok (<[i / 2 := flat_set p i v]> a)
  | None => Fault BadWrite
  end.

(** [AtomicRef<FPType>(a[i]) += v]. *)
Definition atomic_add (a : list GradientPairT) (i : nat) (v : FPType)
    : res (list GradientPairT) :=
  match a !! (i / 2) with
  | Some p => Ok (<[i / 2 := flat_set p i (fp_add (flat_get p i) v)]> a)
  | None => Fault BadWrite
  end.

(** *** [InitHist] and [CopyHist] *)

(** [qu->fill(hist->Begin(), GradientPairInternal<GradientSumT>(), size)];
    the default-constructed pair is the pair of zeros. *)
Definition InitHist (hist : list GradientPairT) (size : nat)
    : res (list GradientPairT) :=
  fill hist gp_zero size.

Definition CopyHist (dst src : list GradientPairT) (size : nat)
    : res (list GradientPairT) :=
  let pdst := dst in
  let psrc := src in
  for_range (2 * size)
    (λ i pdst,
       x ← flat_read psrc i;
       flat_write pdst i x)
    pdst.

(** *** [SubtractionHist] and [SubtractionTrick] *)

Definition SubtractionHist (dst src1 src2 : list GradientPairT) (size : nat)
    : res (list GradientPairT) :=
  let pdst := dst in
  let psrc1 := src1 in
  let psrc2 := src2 in
  for_range (2 * size)
    (λ i pdst,
       x ← flat_read psrc1 i;
       y ← flat_read psrc2 i;
       flat_write pdst i (fp_sub x y))
    pdst.

Definition SubtractionTrick (self sibling parent : list GradientPairT)
    : res (list GradientPairT) :=
  let size := length self in
  _ ← check (length sibling =? size);
  _ ← check (length parent =? size);
  SubtractionHist self parent sibling size.

(** *** [ReduceHist] *)

Definition ReduceHist (hist_data hist_buffer_data : list GradientPairT)
    (nblocks nbins : nat) : res (list GradientPairT) :=
  for_range nbins
    (λ idx_bin hist_data,
       gpair ← for_range nblocks
                 (λ j gpair,
                    x ← read hist_buffer_data (j * nbins + idx_bin);
                    mret (gp_add gpair x))
                 gp_zero;
       write hist_data idx_bin gpair)
    hist_data.

(** The global bin of the cell read at [gradient_index + icol_start] and
    column [j]: in the dense layout the stored value is local to the
    feature and [offsets[j]] is added in [uint32_t]. *)
Definition load_bin (T : BinIdxType) (isDense : bool) (gmat : GHistIndexMatrix)
    (icol_start j : nat) : res N :=
  idx_bin ← index_at T (index_data gmat) (icol_start + j);
  if isDense
  then o ← read (cut_ptrs_ gmat) j; mret (add32 idx_bin o)
  else mret idx_bin.

(** *** Variant A: the kernel with a buffer *)

(** The kernel lambda, for the work-item [(block, feat)]; its first
    arguments are the captured locals. *)
Definition BuildHistKernel_buffered_item (T : BinIdxType) (isDense : bool)
    (gmat : GHistIndexMatrix) (pgh : list GradientPair) (rid : list nat)
    (size n_columns nbins work_group_size block_size : nat)
    (block feat : nat) (hist_buffer_data : list GradientPairT)
    : res (list GradientPairT) :=
  let hist_local := block * nbins in
  for_range block_size
    (λ idx hist_buffer_data,
       let i := block * block_size + idx in
       if decide (i < size) then
         rid_i ← read rid i;
         let icol_start := n_columns * rid_i in
         let idx_gh := rid_i in
         g ← read pgh idx_gh;
         let pgh_row :=
           MkGradientPair (fp_of_value (GetGrad g)) (fp_of_value (GetHess g)) in
         for_each (strided feat n_columns work_group_size)
           (λ j hist_buffer_data,
              idx_bin ← load_bin T isDense gmat icol_start j;
              if decide (N.to_nat idx_bin < nbins)
              then accumulate hist_buffer_data (hist_local + N.to_nat idx_bin) pgh_row
              else mret hist_buffer_data)
           hist_buffer_data
       else mret hist_buffer_data)
    hist_buffer_data.

Definition BuildHistKernel_buffered (T : BinIdxType) (isDense : bool)
    (gpair : list GradientPair) (row_indices : list nat)
    (gmat : GHistIndexMatrix) (hist hist_buffer : list GradientPairT)
    (dispatcher : HistDispatcher)
    : res (list GradientPairT * list GradientPairT) :=
  let work_group_size := work_group_size dispatcher in
  let block_size := size (block dispatcher) in
  let nblocks := nblocks (block dispatcher) in
  let size := length row_indices in
  let rid := row_indices in
  let n_columns := if isDense then nfeatures gmat else row_stride gmat in
  let pgh := gpair in
  let nbins := nbins gmat in
  hist_buffer_data ← fill hist_buffer gp_zero (nblocks * nbins);
  hist_buffer_data ←
    parallel_for2 nblocks work_group_size
      (BuildHistKernel_buffered_item T isDense gmat pgh rid
         size n_columns nbins work_group_size block_size)
      hist_buffer_data;
  hist_data ← ReduceHist hist hist_buffer_data nblocks nbins;
  mret (hist_data, hist_buffer_data).

(** *** Variant B: the kernel with a buffer and a local histogram *)

(** The body of the loop over the features [fid] of a lane: it zeroes the
    bins of the feature in [hist_fast], accumulates the rows of the block,
    and copies the bins to the slice of the block. *)
Definition BuildHistKernelLocal_feature (T : BinIdxType)
    (gmat : GHistIndexMatrix) (pgh : list GradientPair) (rid : list nat)
    (size n_columns nbins block_size block : nat)
    (fid : nat) (st : list GradientPairT * list GradientPairT)
    : res (list GradientPairT * list GradientPairT) :=
  let '(hist_fast, hist_buffer_data) := st in
  let offsets := cut_ptrs_ gmat in
  let hist_local := block * nbins in
  o1 ← read offsets (fid + 1);
  o0 ← read offsets fid;
  let n_bins_feature := N.to_nat (sub32 o1 o0) in
  hist_fast ← for_range n_bins_feature
                (λ bin hist_fast, write hist_fast bin gp_zero)
                hist_fast;
  hist_fast ←
    for_range block_size
      (λ idx hist_fast,
         let i := block * block_size + idx in
         if decide (i < size) then
           row_id ← read rid i;
           let icol_start := n_columns * row_id in
           g ← read pgh row_id;
           let pgh_row :=
             MkGradientPair (fp_of_value (GetGrad g))
                            (fp_of_value (GetHess g)) in
           idx_bin ← index_at T (index_data gmat) (icol_start + fid);
           accumulate hist_fast (N.to_nat idx_bin) pgh_row
         else mret hist_fast)
      hist_fast;
  hist_buffer_data ←
    for_range n_bins_feature
      (λ bin hist_buffer_data,
         x ← read hist_fast bin;
         write hist_buffer_data
               (hist_local + N.to_nat (add32 (N.of_nat bin) o0)) x)
      hist_buffer_data;
  mret (hist_fast, hist_buffer_data).

(** The kernel lambda.  [hist_fast] is the uninitialised per-lane array of
    [kMaxNumBins] pairs; its initial content is the argument
    [hist_fast]. *)
Definition BuildHistKernelLocal_item (T : BinIdxType)
    (gmat : GHistIndexMatrix) (pgh : list GradientPair) (rid : list nat)
    (size n_columns nbins work_group_size block_size : nat)
    (hist_fast : list GradientPairT)
    (block feat : nat) (hist_buffer_data : list GradientPairT)
    : res (list GradientPairT) :=
  '(_, hist_buffer_data) ←
    for_each (strided feat n_columns work_group_size)
      (BuildHistKernelLocal_feature T gmat pgh rid size n_columns nbins
         block_size block)
      (hist_fast, hist_buffer_data);
  mret hist_buffer_data.

(** [hist_fast0 block feat] is what the work-item [(block, feat)] finds in
    its [hist_fast] array, which the kernel declares without initialising;
    its length is [kMaxNumBins]. *)
Definition BuildHistKernelLocal (T : BinIdxType)
    (gpair : list GradientPair) (row_indices : list nat)
    (gmat : GHistIndexMatrix) (hist hist_buffer : list GradientPairT)
    (dispatcher : HistDispatcher)
    (hist_fast0 : nat → nat → list GradientPairT)
    : res (list GradientPairT * list GradientPairT) :=
  let work_group_size := work_group_size dispatcher in
  let block_size := size (block dispatcher) in
  let nblocks := nblocks (block dispatcher) in
  let size := length row_indices in
  let rid := row_indices in
  let n_columns := nfeatures gmat in
  let pgh := gpair in
  let nbins := nbins gmat in
  let hist_buffer_data := hist_buffer in
  hist_buffer_data ←
    parallel_for2 nblocks work_group_size
      (λ block feat,
         BuildHistKernelLocal_item T gmat pgh rid
           size n_columns nbins work_group_size block_size
           (hist_fast0 block feat) block feat)
      hist_buffer_data;
  hist_data ← ReduceHist hist hist_buffer_data nblocks nbins;
  mret (hist_data, hist_buffer_data).

(** *** Variant C: the kernel with atomics *)

(** [const int i = pid.get_global_id(0)] followed by [rid[i]]: the
    conversion to [int] wraps modulo [2^32], and a negative index is
    outside the array. *)
Definition read_int {A} (a : list A) (gid : nat) : res A :=
  let i := to_int32 (N.of_nat gid) in
  if (i <? 0)%Z then Fault BadRead else read a (Z.to_nat i).

(** The kernel lambda for row [gid] and the lane [local_id] of the group
    [group_id].  [idx_bin] is a [uint32_t], and so are the scalar indices
    [2 * idx_bin] and [2 * idx_bin + 1] into [hist_data]. *)
Definition BuildHistKernel_atomic_item (T : BinIdxType) (isDense : bool)
    (gmat : GHistIndexMatrix) (pgh : list GradientPair) (rid : list nat)
    (n_columns nbins work_group_size : nat)
    (gid group_id local_id : nat) (hist_data : list GradientPairT)
    : res (list GradientPairT) :=
  rid_i ← read_int rid gid;
  let icol_start := n_columns * rid_i in
  let idx_gh := rid_i in
  g0 ← flat_read pgh (2 * idx_gh);
  g1 ← flat_read pgh (2 * idx_gh + 1);
  let pgh_row := (fp_of_value g0, fp_of_value g1) in
  let j := group_id * work_group_size + local_id in
  if decide (j < n_columns) then
    idx_bin ← load_bin T isDense gmat icol_start j;
    if decide (N.to_nat idx_bin < nbins) then
      hist_data ← atomic_add hist_data (N.to_nat (mul32 2 idx_bin))
                     (fst pgh_row);
      atomic_add hist_data (N.to_nat (add32 (mul32 2 idx_bin) 1))
        (snd pgh_row)
    else mret hist_data
  else mret hist_data.

(** [qu->fill(hist_data, FPType(0), n)] on the flat view. *)
Definition fill_flat (a : list GradientPairT) (v : FPType) (n : nat)
    : res (list GradientPairT) :=
  for_range n (λ i a, flat_write a i v) a.

Definition BuildHistKernel_atomic (T : BinIdxType) (isDense : bool)
    (gpair : list GradientPair) (row_indices : list nat)
    (gmat : GHistIndexMatrix) (hist : list GradientPairT)
    (dispatcher : HistDispatcher) : res (list GradientPairT) :=
  let work_group_size := work_group_size dispatcher in
  let size := length row_indices in
  let rid := row_indices in
  let n_columns := if isDense then nfeatures gmat else row_stride gmat in
  let pgh := gpair in
  let hist_data := hist in
  let nbins := nbins gmat in
  _ ← (if decide (work_group_size = 0) then Fault DivByZero else mret tt);
  let n_work_groups :=
    n_columns / work_group_size
    + (if decide (0 < n_columns mod work_group_size) then 1 else 0) in
  hist_data ← fill_flat hist_data fp_zero (nbins * 2);
  parallel_for2 size n_work_groups
    (λ gid group_id,
       for_range work_group_size
         (BuildHistKernel_atomic_item T isDense gmat pgh rid
            n_columns nbins work_group_size gid group_id))
    hist_data.

End Hist.

(** ** Kernel selection *)

(** The kernel instantiations that [BuildHistDispatchKernel] can return
    from, as values, with the branch taken and the run of an
    instantiation. *)
Inductive KernelCall : Type :=
  | Call_BuildHistKernelLocal (T : BinIdxType)
  | Call_BuildHistKernel_buffered (T : BinIdxType) (isDense : bool)
  | Call_BuildHistKernel_atomic (T : BinIdxType) (isDense : bool).

(** The branches of [BuildHistDispatchKernel<FPType, BinIdxType>]. *)
Definition BuildHistDispatchKernel_branch (BinIdxT : BinIdxType)
    (dispatcher : HistDispatcher) (isDense force_atomic_use : bool)
    : KernelCall :=
  let use_atomic := use_atomics dispatcher || force_atomic_use in
  if negb use_atomic then
    if isDense then
      if use_local_hist dispatcher
      then Call_BuildHistKernelLocal BinIdxT
      else Call_BuildHistKernel_buffered BinIdxT true
    else Call_BuildHistKernel_buffered uint32_t false
  else
    if isDense
    then Call_BuildHistKernel_atomic BinIdxT true
    else Call_BuildHistKernel_atomic uint32_t false.

Section Dispatch.
Context {ValueT FPType : Type} `{!FPOps ValueT FPType}.

(** [tree::DeviceProperties] and the constructor of
    [tree::HistDispatcher<FPType>] are declared in [hist_dispatcher.h],
    which is not among the sources: the constructor is any function of its
    arguments. *)
Context {DeviceProperties : Type}.
Variable HistDispatcher_new :
  DeviceProperties → bool → nat → nat → nat → nat → nat → nat → HistDispatcher.

Definition launch (call : KernelCall)
    (gpair : list (GradientPairInternal ValueT)) (row_indices : list nat)
    (gmat : GHistIndexMatrix)
    (hist hist_buffer : list (GradientPairInternal FPType))
    (dispatcher : HistDispatcher)
    (hist_fast0 : nat → nat → list (GradientPairInternal FPType))
    : res (list (GradientPairInternal FPType)
           * list (GradientPairInternal FPType)) :=
  match call with
  | Call_BuildHistKernelLocal T =>
      BuildHistKernelLocal T gpair row_indices gmat hist hist_buffer
        dispatcher hist_fast0
  | Call_BuildHistKernel_buffered T isDense =>
      BuildHistKernel_buffered T isDense gpair row_indices gmat hist
        hist_buffer dispatcher
  | Call_BuildHistKernel_atomic T isDense =>
      hist ← BuildHistKernel_atomic T isDense gpair row_indices gmat hist
               dispatcher;
      mret (hist, hist_buffer)
  end.

(** The dispatcher built by [BuildHistDispatchKernel]; [hist_buffer->Size()
    / nbins] divides by [nbins]. *)
Definition BuildHistDispatchKernel_dispatcher
    (row_indices : list nat) (gmat : GHistIndexMatrix) (isDense : bool)
    (hist_buffer : list (GradientPairInternal FPType))
    (device_prop : DeviceProperties) : res HistDispatcher :=
  let size := length row_indices in
  let n_columns := if isDense then nfeatures gmat else row_stride gmat in
  let nbins := nbins gmat in
  let max_num_bins := max_num_bins gmat in
  let min_num_bins := min_num_bins gmat in
  _ ← (if decide (nbins = 0) then Fault DivByZero else mret tt);
  let max_n_blocks := length hist_buffer / nbins in
  mret (HistDispatcher_new device_prop isDense size max_n_blocks nbins
          n_columns max_num_bins min_num_bins).

(** The kernels with a buffer return the histogram and the buffer; the
    atomic kernel does not take the buffer, which stays as it is. *)
Definition BuildHistDispatchKernel (BinIdxT : BinIdxType)
    (gpair : list (GradientPairInternal ValueT)) (row_indices : list nat)
    (gmat : GHistIndexMatrix) (hist : list (GradientPairInternal FPType))
    (isDense : bool) (hist_buffer : list (GradientPairInternal FPType))
    (device_prop : DeviceProperties) (force_atomic_use : bool)
    (hist_fast0 : nat → nat → list (GradientPairInternal FPType))
    : res (list (GradientPairInternal FPType)
           * list (GradientPairInternal FPType)) :=
  dispatcher ← BuildHistDispatchKernel_dispatcher row_indices gmat isDense
                 hist_buffer device_prop;
  (* force_atomic_use flag is used only for testing *)
  let use_atomic := use_atomics dispatcher || force_atomic_use in
  if negb use_atomic then
    if isDense then
      if use_local_hist dispatcher then
        BuildHistKernelLocal BinIdxT gpair row_indices gmat hist hist_buffer
          dispatcher hist_fast0
      else
        BuildHistKernel_buffered BinIdxT true gpair row_indices gmat hist
          hist_buffer dispatcher
    else
      BuildHistKernel_buffered uint32_t false gpair row_indices gmat hist
        hist_buffer dispatcher
  else
    if isDense then
      hist ← BuildHistKernel_atomic BinIdxT true gpair row_indices gmat hist
               dispatcher;
      mret (hist, hist_buffer)
    else
      hist ← BuildHistKernel_atomic uint32_t false gpair row_indices gmat hist
               dispatcher;
      mret (hist, hist_buffer).

(** The bin-width dispatch.  The [default] branch of the [switch] is not
    reachable with a value of the enumeration. *)
Definition BuildHistKernel
    (gpair : list (GradientPairInternal ValueT)) (row_indices : list nat)
    (gmat : GHistIndexMatrix) (isDense : bool)
    (hist hist_buffer : list (GradientPairInternal FPType))
    (device_prop : DeviceProperties) (force_atomic_use : bool)
    (hist_fast0 : nat → nat → list (GradientPairInternal FPType))
    : res (list (GradientPairInternal FPType)
           * list (GradientPairInternal FPType)) :=
  let is_dense := isDense in
  match GetBinTypeSize gmat with
  | kUint8BinsTypeSize =>
      BuildHistDispatchKernel uint8_t gpair row_indices gmat hist is_dense
        hist_buffer device_prop force_atomic_use hist_fast0
  | kUint16BinsTypeSize =>
      BuildHistDispatchKernel uint16_t gpair row_indices gmat hist is_dense
        hist_buffer device_prop force_atomic_use hist_fast0
  | kUint32BinsTypeSize =>
      BuildHistDispatchKernel uint32_t gpair row_indices gmat hist is_dense
        hist_buffer device_prop force_atomic_use hist_fast0
  end.

(** The kernel instantiation reached from [BuildHistKernel]. *)
Definition BuildHistKernel_call (gmat : GHistIndexMatrix)
    (dispatcher : HistDispatcher) (isDense force_atomic_use : bool)
    : KernelCall :=
  match GetBinTypeSize gmat with
  | kUint8BinsTypeSize =>
      BuildHistDispatchKernel_branch uint8_t dispatcher isDense force_atomic_use
  | kUint16BinsTypeSize =>
      BuildHistDispatchKernel_branch uint16_t dispatcher isDense force_atomic_use
  | kUint32BinsTypeSize =>
      BuildHistDispatchKernel_branch uint32_t dispatcher isDense force_atomic_use
  end.

Definition BuildHist := BuildHistKernel.

End Dispatch.


(** ** The row partitioner *)

(** [RowSetCollection::Elem]: a range of the shared row-index buffer. *)
Record Elem := { begin_ : nat; end_ : nat }.

Definition Elem_Size (e : Elem) : nat := end_ e - begin_ e.

(** [RowSetCollection]: the shared row-index buffer and the range of each
    node that has one. *)
Record RowSetCollection := {
  row_indices_ : list nat;
  elem_of_each_node_ : gmap Z Elem;
}.

(** [ColumnSplitHelper]: the two bit vectors, stored in 8-bit words, and
    their per-thread replicas.  [decision_bits_] and [missing_bits_] are
    views of the two storages and have no state of their own. *)
Record ColumnSplitHelper := {
  decision_storage_ : list Z;
  missing_storage_ : list Z;
  tloc_decision_ : list Z;
  tloc_missing_ : list Z;
}.

(** The scratch of the partition builder: for each node of the batch, the
    rows bound for the left child and those bound for the right child. *)
Definition Scratch : Type := list (list nat * list nat).

(** [CommonRowPartitioner].  The helper holds pointers to
    [partition_builder_] and [row_set_collection_]; its methods therefore
    act on the whole partitioner. *)
Record CommonRowPartitioner := {
  base_rowid : nat;
  partition_builder_ : Scratch;
  row_set_collection_ : RowSetCollection;
  is_col_split_ : bool;
  column_split_helper_ : ColumnSplitHelper;
}.

Definition set_partition_builder (pb : Scratch) (p : CommonRowPartitioner)
    : CommonRowPartitioner :=
  {| base_rowid := base_rowid p;
     partition_builder_ := pb;
     row_set_collection_ := row_set_collection_ p;
     is_col_split_ := is_col_split_ p;
     column_split_helper_ := column_split_helper_ p |}.

Definition set_row_set_collection (rs : RowSetCollection)
    (p : CommonRowPartitioner) : CommonRowPartitioner :=
  {| base_rowid := base_rowid p;
     partition_builder_ := partition_builder_ p;
     row_set_collection_ := rs;
     is_col_split_ := is_col_split_ p;
     column_split_helper_ := column_split_helper_ p |}.

Definition set_column_split_helper (h : ColumnSplitHelper)
    (p : CommonRowPartitioner) : CommonRowPartitioner :=
  {| base_rowid := base_rowid p;
     partition_builder_ := partition_builder_ p;
     row_set_collection_ := row_set_collection_ p;
     is_col_split_ := is_col_split_ p;
     column_split_helper_ := h |}.

(** Modelled from the spec: indexing the row-set collection by a node
    identifier returns the node's range; the spec leaves a node without a
    range undefined, which is a read fault here.  [RowSetCollection] is
    declared in [row_set.h], not among the sources. *)
Definition row_set_lookup (rs : RowSetCollection) (nidx : Z) : res Elem :=
  match elem_of_each_node_ rs !! nidx with
  | Some e => Ok e
  | None => Fault BadRead
  end.

(** The rows of a node, read through [row_set_collection_[nid].begin()]. *)
Definition node_rows (rs : RowSetCollection) (nidx : Z) : res (list nat) :=
  e ← row_set_lookup rs nidx;
  if decide (end_ e ≤ length (row_indices_ rs))
  then mret (take (Elem_Size e) (drop (begin_ e) (row_indices_ rs)))
  else Fault BadRead.

Fixpoint all_node_rows (rs : RowSetCollection) (nodes : list ExpandEntry)
    : res (list (list nat)) :=
  match nodes with
  | [] => mret []
  | e :: nodes' =>
      r ← node_rows rs (nid e);
      rs' ← all_node_rows rs nodes';
      mret (r :: rs')
  end.

(** Modelled from the spec: [AddSplit(parent, left, right, n_left,
    n_right)] splits the parent's range into [[begin, begin + n_left)] and
    [[begin + n_left, begin + n_left + n_right)], attaches them to the
    children, and requires [n_left + n_right] to be the parent's size.  The
    row-index buffer is not written.  [RowSetCollection::AddSplit] is not
    among the sources. *)
Definition AddSplit (rs : RowSetCollection) (node_id left_node_id right_node_id : Z)
    (n_left n_right : nat) : res RowSetCollection :=
  e ← row_set_lookup rs node_id;
  _ ← check (n_left + n_right =? Elem_Size e);
  let l := {| begin_ := begin_ e; end_ := begin_ e + n_left |} in
  let r := {| begin_ := begin_ e + n_left; end_ := begin_ e + n_left + n_right |} in
  mret {| row_indices_ := row_indices_ rs;
          elem_of_each_node_ :=
            <[right_node_id := r]> (<[left_node_id := l]> (elem_of_each_node_ rs)) |}.

(** Modelled from the spec: the merge phase copies the left and the right
    rows of a node into their final positions in the shared row-index
    buffer, the left rows first.  [PartitionBuilder::MergeToArray] is not
    among the sources; the blocks of a node are merged in one step here. *)
Fixpoint copy_to {A} (dst : list A) (pos : nat) (src : list A) : res (list A) :=
  match src with
  | [] => mret dst
  | x :: src' => dst ← write dst pos x; copy_to dst (S pos) src'
  end.

Definition MergeToArray (pb : Scratch) (node_in_set : nat) (begin : nat)
    (rows_indexes : list nat) : res (list nat) :=
  '(left_rows, right_rows) ← read pb node_in_set;
  rows_indexes ← copy_to rows_indexes begin left_rows;
  copy_to rows_indexes (begin + length left_rows) right_rows.

(** Modelled from the spec: [GetNLeftElems] and [GetNRightElems] are the
    numbers of rows that the partition pass sent to each side. *)
Definition GetNLeftElems (pb : Scratch) (i : nat) : res nat :=
  p ← read pb i; mret (length (fst p)).
Definition GetNRightElems (pb : Scratch) (i : nat) : res nat :=
  p ← read pb i; mret (length (snd p)).

(** The reduction operators of the collective. *)
Inductive Op : Type := kBitwiseOR | kBitwiseAND.

Definition Op_apply (op : Op) : Z → Z → Z :=
  match op with kBitwiseOR => Z.lor | kBitwiseAND => Z.land end.

(** The other workers, as seen from this one: whether the transport works
    and what each of them contributes to the two all-reduce calls. *)
Record Collective := {
  transport_ok : bool;
  peers_decision : list (list Z);
  peers_missing : list (list Z);
}.

(** Modelled from the spec: the buffer returned by the all-reduce is the
    bitwise aggregate of the buffers of all workers; a transport failure is
    surfaced by the call.  [collective::Allreduce] is not among the
    sources. *)
Definition Allreduce (ok : bool) (peers : list (list Z)) (buf : list Z) (op : Op)
    : res (list Z) :=
  if ok
  then mret (foldl (λ acc peer, zip_with (Op_apply op) acc peer) buf peers)
  else Fault CollectiveFailed.

(** Modelled from the spec: the thread-local replicas are reduced by
    bitwise OR.  [RBitField8::operator|=] is not among the sources; the
    left operand is the view of [n] words at [dst] and the right operand the
    view at [src] of the same storage. *)
Definition bitfield_or_assign (storage : list Z) (dst src n : nat)
    : res (list Z) :=
  for_range n
    (λ i storage,
       x ← read storage (dst + i);
       y ← read storage (src + i);
       write storage (dst + i) (Z.lor x y))
    storage.

(** [std::copy_n(src + pos, n, dst)] into a vector [dst] of [n] words. *)
Definition copy_n (src : list Z) (pos n : nat) : res (list Z) :=
  if decide (pos + n ≤ length src)
  then mret (take n (drop pos src))
  else Fault BadRead.

(** [make_tloc(storage, tidx)]: the offset of the view
    [span.subspan(n * tidx, n)], whose bounds the span checks. *)
Definition make_tloc (storage : list Z) (n tidx : nat) : res nat :=
  _ ← check (bool_decide (n * tidx + n ≤ length storage));
  mret (n * tidx).

(** What [UpdatePosition] reads of the matrix: whether its column matrix
    is initialised, its [base_rowid], and the cuts. *)
Record MatrixView (Float : Type) := {
  column_matrix_IsInitialized : bool;
  gmat_base_rowid : nat;
  cut_Ptrs : list N;
  cut_Values : list Float;
}.
Arguments column_matrix_IsInitialized {Float} _.
Arguments gmat_base_rowid {Float} _.
Arguments cut_Ptrs {Float} _.
Arguments cut_Values {Float} _.

Section RowPartitioner.
Context {Float : Type} `{!FloatEq Float}.

(** The passes that run [PartitionBuilder::MaskRows], [PartitionByMask] and
    [Partition] over the blocked space.  The partition builder is not among
    the sources; the passes are any functions of what they are given: the
    split conditions, the rows of each node, and the bit vectors. *)
Variable MaskRows_pass :
  list Z → list (list nat) → list Z → list Z → list Z * list Z.
Variable PartitionByMask_pass :
  list (list nat) → list Z → list Z → Scratch.
Variable Partition_pass : list Z → list (list nat) → Scratch.

Definition ColumnSplitHelper_Partition (coll : Collective) (n_threads : nat)
    (nodes : list ExpandEntry) (split_conditions : list Z)
    : stateful CommonRowPartitioner unit :=
  self ← get;
  let h := column_split_helper_ self in
  let n := length (decision_storage_ h) in
  let decision_storage := replicate n 0%Z in
  let missing_storage := replicate (length (missing_storage_ h)) 0%Z in
  let tloc_decision := replicate (n * n_threads) 0%Z in
  let tloc_missing := replicate (n * n_threads) 0%Z in
  rows ← lift (all_node_rows (row_set_collection_ self) nodes);
  let '(tloc_decision, tloc_missing) :=
    MaskRows_pass split_conditions rows tloc_decision tloc_missing in
  _ ← modify (set_column_split_helper
                {| decision_storage_ := decision_storage;
                   missing_storage_ := missing_storage;
                   tloc_decision_ := tloc_decision;
                   tloc_missing_ := tloc_missing |});
  (* Reduce thread local *)
  decision ← lift (make_tloc tloc_decision n 0);
  missing ← lift (make_tloc tloc_missing n 0);
  '(tloc_decision, tloc_missing) ←
    lift (for_each (seq 1 (n_threads - 1))
            (λ tidx '(tloc_decision, tloc_missing),
               d ← make_tloc tloc_decision n tidx;
               tloc_decision ← bitfield_or_assign tloc_decision decision d n;
               m ← make_tloc tloc_missing n tidx;
               tloc_missing ← bitfield_or_assign tloc_missing missing m n;
               mret (tloc_decision, tloc_missing))
            (tloc_decision, tloc_missing));
  (* CHECK_EQ(decision_storage_.size(), decision.NumValues()) compares [n]
     with the length of the view made by [make_tloc], which is [n]. *)
  decision_storage ← lift (copy_n tloc_decision decision n);
  missing_storage ←
    lift (copy_n tloc_missing missing (length missing_storage));
  _ ← modify (set_column_split_helper
                {| decision_storage_ := decision_storage;
                   missing_storage_ := missing_storage;
                   tloc_decision_ := tloc_decision;
                   tloc_missing_ := tloc_missing |});
  (* Then aggregate the bit vectors across all the workers. *)
  decision_storage ←
    lift (Allreduce (transport_ok coll) (peers_decision coll)
            decision_storage kBitwiseOR);
  _ ← modify (set_column_split_helper
                {| decision_storage_ := decision_storage;
                   missing_storage_ := missing_storage;
                   tloc_decision_ := tloc_decision;
                   tloc_missing_ := tloc_missing |});
  missing_storage ←
    lift (Allreduce (transport_ok coll) (peers_missing coll)
            missing_storage kBitwiseAND);
  _ ← modify (set_column_split_helper
                {| decision_storage_ := decision_storage;
                   missing_storage_ := missing_storage;
                   tloc_decision_ := tloc_decision;
                   tloc_missing_ := tloc_missing |});
  (* Finally use the bit vectors to partition the rows. *)
  let decision_bits := decision_storage in
  let missing_bits := missing_storage in
  modify (set_partition_builder
            (PartitionByMask_pass rows decision_bits missing_bits)).

(** [AddSplitsToRowSet]. *)
Definition AddSplitsToRowSet (nodes : list ExpandEntry) (p_tree : RegTree Float)
    : stateful CommonRowPartitioner unit :=
  let n_nodes := length nodes in
  sfor_each (seq 0 n_nodes)
    (λ i,
       self ← get;
       e ← lift (read nodes i);
       let nidx := nid e in
       n_left ← lift (GetNLeftElems (partition_builder_ self) i);
       n_right ← lift (GetNRightElems (partition_builder_ self) i);
       _ ← lift (check (LeftChild p_tree nidx + 1 =? RightChild p_tree nidx)%Z);
       rs ← lift (AddSplit (row_set_collection_ self) nidx
                    (LeftChild p_tree nidx) (RightChild p_tree nidx)
                    n_left n_right);
       modify (set_row_set_collection rs)).

(** Steps 1 to 3 of [UpdatePosition]: the split conditions, the blocked
    space and the partition builder's buffers, the partition pass, and the
    row offsets.  In this model the offsets of a node are the lengths of
    its two row lists, so [CalculateRowOffsets] has nothing to compute. *)
Definition UpdatePosition_partition (coll : Collective) (n_threads : nat)
    (gmat : MatrixView Float) (nodes : list ExpandEntry) (p_tree : RegTree Float)
    : stateful CommonRowPartitioner unit :=
  let n_nodes := length nodes in
  split_conditions ←
    lift (if column_matrix_IsInitialized gmat
          then FindSplitConditions nodes p_tree (cut_Ptrs gmat)
                 (cut_Values gmat) (replicate n_nodes 0%Z)
          else mret []);
  self ← get;
  rows ← lift (all_node_rows (row_set_collection_ self) nodes);
  _ ← modify (set_partition_builder (replicate n_nodes ([], [])));
  _ ← lift (check (base_rowid self =? gmat_base_rowid gmat));
  if is_col_split_ self
  then ColumnSplitHelper_Partition coll n_threads nodes split_conditions
  else modify (set_partition_builder (Partition_pass split_conditions rows)).

(** Step 4 of [UpdatePosition]: the rows go back from the partition
    builder to the row-index buffer of [row_set_collection_]. *)
Definition UpdatePosition_merge (nodes : list ExpandEntry)
    : stateful CommonRowPartitioner unit :=
  sfor_each (seq 0 (length nodes))
    (λ node_in_set,
       self ← get;
       let rs := row_set_collection_ self in
       e ← lift (read nodes node_in_set);
       r ← lift (row_set_lookup rs (nid e));
       rows ← lift (MergeToArray (partition_builder_ self) node_in_set
                      (begin_ r) (row_indices_ rs));
       modify (set_row_set_collection
                 {| row_indices_ := rows;
                    elem_of_each_node_ := elem_of_each_node_ rs |})).

Definition UpdatePosition (coll : Collective) (n_threads : nat)
    (gmat : MatrixView Float) (nodes : list ExpandEntry) (p_tree : RegTree Float)
    : stateful CommonRowPartitioner unit :=
  _ ← UpdatePosition_partition coll n_threads gmat nodes p_tree;
  _ ← UpdatePosition_merge nodes;
  AddSplitsToRowSet nodes p_tree.

End RowPartitioner.

(** ** The split condition of a node, as the claim words it *)

Section SplitConditionSpec.
Context {Float : Type} `{!FloatEq Float}.

(** [c] is the largest index of [[lo, hi)] whose cut value equals
    [split_pt], or [-1] when there is none. *)
Definition is_split_cond (vals : list Float) (split_pt : Float) (lo hi : N)
    (c : Z) : Prop :=
  (c = (-1)%Z
   ∧ ∀ b v, (lo ≤ b < hi)%N → vals !! N.to_nat b = Some v → feq split_pt v = false)
  ∨ (∃ b v, c = Z.of_N b ∧ (lo ≤ b < hi)%N
      ∧ vals !! N.to_nat b = Some v ∧ feq split_pt v = true
      ∧ ∀ b' v', (b < b' < hi)%N → vals !! N.to_nat b' = Some v' →
                 feq split_pt v' = false).

(** The cuts of the split feature of node [e] can be read, and the upper
    bound passes the [CHECK]. *)
Definition node_cuts_ok (tree : RegTree Float) (ptrs : list N)
    (vals : list Float) (e : ExpandEntry) : Prop :=
  let fidx := SplitIndex tree (nid e) in
  ∃ lo hi,
    (fidx + 1 < two32)%N
    ∧ ptrs !! N.to_nat fidx = Some lo
    ∧ ptrs !! N.to_nat (fidx + 1) = Some hi
    ∧ (hi < int32_max)%N
    ∧ ∀ b, (lo ≤ b < hi)%N → is_Some (vals !! N.to_nat b).

End SplitConditionSpec.

(** ** The variants, as the spec names them *)

Inductive Variant : Type :=
  | VariantA  (* buffered *)
  | VariantB  (* buffered, with local private bins *)
  | VariantC. (* atomic *)

Definition KernelCall_variant (call : KernelCall) : Variant :=
  match call with
  | Call_BuildHistKernel_buffered _ _ => VariantA
  | Call_BuildHistKernelLocal _ => VariantB
  | Call_BuildHistKernel_atomic _ _ => VariantC
  end.

(** The type at which the kernel reads [gmat.index]. *)
Definition KernelCall_BinIdxType (call : KernelCall) : BinIdxType :=
  match call with
  | Call_BuildHistKernel_buffered T _ => T
  | Call_BuildHistKernelLocal T => T
  | Call_BuildHistKernel_atomic T _ => T
  end.

(** ** Pairwise subtraction, as the claim words it *)

Definition gp_sub {ValueT FPType : Type} `{!FPOps ValueT FPType}
    (a b : GradientPairInternal FPType) : GradientPairInternal FPType :=
  MkGradientPair (fp_sub (grad_ a) (grad_ b)) (fp_sub (hess_ a) (hess_ b)).

(** ** The histogram of a node, as the spec defines it *)

Section HistSpec.
Context {ValueT FPType : Type} `{!FPOps ValueT FPType}.
Local Abbreviation GradientPair := (GradientPairInternal ValueT).
Local Abbreviation GradientPairT := (GradientPairInternal FPType).

(** The sum of [f x] over the elements [x] of [l]. *)
Definition gp_sum {A} (l : list A) (f : A → GradientPairT) : GradientPairT :=
  foldr (λ x acc, gp_add (f x) acc) gp_zero l.

Definition num_columns (isDense : bool) (gmat : GHistIndexMatrix) : nat :=
  if isDense then nfeatures gmat else row_stride gmat.

Variable T : BinIdxType.
Variable isDense : bool.
Variable gmat : GHistIndexMatrix.
Variable pgh : list GradientPair.
Variable rid : list nat.

(** The gradient pair of the [i]-th row of the node, in the precision of
    the histogram. *)
Definition row_pair (i : nat) : GradientPairT :=
  match r ← read rid i; read pgh r with
  | Ok g => MkGradientPair (fp_of_value (GetGrad g)) (fp_of_value (GetHess g))
  | Fault _ => gp_zero
  end.

(** The bin that column [j] of the [i]-th row of the node falls in, when
    it is a bin of the histogram. *)
Definition cell_bin (i j : nat) : option nat :=
  match r ← read rid i;
        load_bin T isDense gmat (num_columns isDense gmat * r) j with
  | Ok b => if decide (N.to_nat b < nbins gmat) then Some (N.to_nat b) else None
  | Fault _ => None
  end.

(** What the cell [(i, j)] adds to bin [b]. *)
Definition contrib (b i j : nat) : GradientPairT :=
  if decide (cell_bin i j = Some b) then row_pair i else gp_zero.

(** [(G_b, H_b)]: the sum of the pairs of the rows of the node over the
    cells that fall in bin [b]. *)
Definition hist_spec (b : nat) : GradientPairT :=
  gp_sum (seq 0 (length rid))
    (λ i, gp_sum (seq 0 (num_columns isDense gmat)) (λ j, contrib b i j)).

(** The pair of the histogram in which the atomic kernel accumulates a
    cell of bin [c]: it is the pair of the scalar [2 * c] computed in
    [uint32_t]. *)
Definition atomic_slot (c : nat) : nat := N.to_nat (mul32 2 (N.of_nat c)) / 2.

(** What the cell [(i, j)] adds to the pair [b] of the histogram in the
    atomic kernel. *)
Definition atomic_contrib (b i j : nat) : GradientPairT :=
  match cell_bin i j with
  | Some c => if decide (b = atomic_slot c) then row_pair i else gp_zero
  | None => gp_zero
  end.

(** The pair [b] of the histogram after the atomic kernel. *)
Definition atomic_hist_spec (b : nat) : GradientPairT :=
  gp_sum (seq 0 (length rid))
    (λ i, gp_sum (seq 0 (num_columns isDense gmat))
            (λ j, atomic_contrib b i j)).

Definition atomic_hist_result (hist : list GradientPairT)
    : list GradientPairT :=
  map atomic_hist_spec (seq 0 (nbins gmat)) ++ drop (nbins gmat) hist.

(** What [ReduceHist] leaves in bin [b]: the slices of the blocks are added
    to the pair of zeros in the order of the blocks. *)
Definition block_sum (buf : list GradientPairT) (nblocks nbins b : nat)
    : GradientPairT :=
  foldl (λ acc j, gp_add acc (default gp_zero (buf !! (j * nbins + b))))
    gp_zero (seq 0 nblocks).

(** The histogram after a build into [hist]: the first [nbins] entries are
    the bins. *)
Definition hist_result (hist : list GradientPairT) : list GradientPairT :=
  map hist_spec (seq 0 (nbins gmat)) ++ drop (nbins gmat) hist.

(** What a block of rows adds to bin [b]: the content of the block's slice
    of the buffer. *)
Definition slice_spec (block_size block b : nat) : GradientPairT :=
  gp_sum (seq 0 block_size)
    (λ idx,
       let i := block * block_size + idx in
       if decide (i < length rid)
       then gp_sum (seq 0 (num_columns isDense gmat)) (λ j, contrib b i j)
       else gp_zero).

(** The content of the buffer after the kernels with a buffer: position
    [p] is bin [p mod nbins] of the slice of block [p / nbins]. *)
Definition buffer_spec (block_size p : nat) : GradientPairT :=
  slice_spec block_size (p / nbins gmat) (p mod nbins gmat).

(** What the cell [(i, j)] adds over all bins: the pair of the row when
    the cell falls in a bin of the histogram. *)
Definition cell_pair (i j : nat) : GradientPairT :=
  if decide (is_Some (cell_bin i j)) then row_pair i else gp_zero.

(** Every read of the kernels is inside its array. *)
Definition input_ok : Prop :=
  ∀ i, i < length rid →
    ∃ r g, rid !! i = Some r ∧ pgh !! r = Some g
      ∧ ∀ j, j < num_columns isDense gmat →
          is_Ok (load_bin T isDense gmat (num_columns isDense gmat * r) j).

End HistSpec.

(** The cut pointers of a matrix: [nfeatures + 1] values that start at
    [0], do not decrease and end at [nbins]. *)
Definition cut_ptrs_wf (gmat : GHistIndexMatrix) : Prop :=
  length (cut_ptrs_ gmat) = S (nfeatures gmat)
  ∧ cut_ptrs_ gmat !! 0 = Some 0%N
  ∧ cut_ptrs_ gmat !! nfeatures gmat = Some (N.of_nat (nbins gmat))
  ∧ (∀ f o0 o1, cut_ptrs_ gmat !! f = Some o0 →
       cut_ptrs_ gmat !! S f = Some o1 → (o0 ≤ o1)%N)
  ∧ (N.of_nat (nbins gmat) < two32)%N.

(** [max_num_bins] bounds the number of bins of every feature. *)
Definition max_num_bins_wf (gmat : GHistIndexMatrix) : Prop :=
  ∀ f o0 o1, cut_ptrs_ gmat !! f = Some o0 → cut_ptrs_ gmat !! S f = Some o1 →
    (o1 - o0 ≤ N.of_nat (max_num_bins gmat))%N.

(** In the dense layout every stored value is a bin of its feature: it is
    below the feature's bin count. *)
Definition dense_bins_wf (T : BinIdxType) (gmat : GHistIndexMatrix)
    (rid : list nat) : Prop :=
  ∀ i r f k o0 o1,
    rid !! i = Some r → f < nfeatures gmat →
    index_at T (index_data gmat) (nfeatures gmat * r + f) = Ok k →
    cut_ptrs_ gmat !! f = Some o0 → cut_ptrs_ gmat !! S f = Some o1 →
    (o0 + k < o1)%N.

(** ** Auxiliary notions for the proofs *)

(** Two runs end alike: both complete, with results related by [R], or
    both stop with the same fault. *)
Definition rel_res {A B} (R : A → B → Prop) (r1 : res A) (r2 : res B) : Prop :=
  match r1, r2 with
  | Ok a, Ok b => R a b
  | Fault f, Fault g => f = g
  | _, _ => False
  end.

(** Two arrays of the same length that agree below [n]. *)
Definition same_below {A} (n : nat) (h1 h2 : list A) : Prop :=
  length h1 = length h2 ∧ ∀ bin, bin < n → h1 !! bin = h2 !! bin.

(** Two arrays of the same length that agree on the positions in [W]. *)
Definition agree {A} (W : nat → Prop) (a b : list A) : Prop :=
  length a = length b ∧ ∀ p, W p → a !! p = b !! p.

(** Two arrays of the same length that agree from [n] on. *)
Definition same_from {A} (n : nat) (h1 h2 : list A) : Prop :=
  length h1 = length h2 ∧ ∀ k, n ≤ k → h1 !! k = h2 !! k.

(** A run whose result, when it completes, satisfies [I]. *)
Definition ends_in {A} (I : A → Prop) (r : res A) : Prop :=
  match r with
  | Ok a => I a
  | Fault _ => True
  end.

(** A run that does not write outside an array, and whose result, when it
    completes, satisfies [I]. *)
Definition safe_res {A} (I : A → Prop) (r : res A) : Prop :=
  match r with
  | Ok a => I a
  | Fault f => f ≠ BadWrite
  end.

(** The positions of the slice of [block] that the local kernel writes for
    the feature [fid]. *)
Definition feature_writes (gmat : GHistIndexMatrix) (block fid p : nat) : Prop :=
  ∃ o0 o1 bin, cut_ptrs_ gmat !! fid = Some o0
    ∧ cut_ptrs_ gmat !! (fid + 1) = Some o1
    ∧ bin < N.to_nat (sub32 o1 o0)
    ∧ p = block * nbins gmat + N.to_nat (add32 (N.of_nat bin) o0).

(** The positions of the slice of [block] that hold the bins of the
    feature [fid]. *)
Definition feature_slots (gmat : GHistIndexMatrix) (block fid p : nat) : Prop :=
  ∃ o0 o1 b, cut_ptrs_ gmat !! fid = Some o0
    ∧ cut_ptrs_ gmat !! S fid = Some o1
    ∧ N.to_nat o0 ≤ b < N.to_nat o1
    ∧ p = block * nbins gmat + b.

Section ArrayUpdates.
Context {ValueT FPType : Type} `{!FPOps ValueT FPType}.
Local Abbreviation GradientPairT := (GradientPairInternal FPType).

(** The array [a] after [F b] has been added to each entry [b]. *)
Definition add_fun (a : list GradientPairT) (F : nat → GradientPairT)
    : list GradientPairT :=
  imap (λ b x, gp_add x (F b)) a.

(** [a'] is [a] after some entries [p] were overwritten by [V p]. *)
Definition writes_only (V : nat → GradientPairT) (a a' : list GradientPairT)
    : Prop :=
  length a' = length a
  ∧ ∀ p, a' !! p = a !! p ∨ a' !! p = Some (V p).

(** What the cell [(i, j)] adds to position [p] of the buffer when it is
    accumulated in the slice of [block]. *)
Definition slot_contrib (T : BinIdxType) (isDense : bool)
    (gmat : GHistIndexMatrix) (pgh : list (GradientPairInternal ValueT))
    (rid : list nat) (block i j p : nat) : GradientPairT :=
  match cell_bin T isDense gmat rid i j with
  | Some b => if decide (p = block * nbins gmat + b) then row_pair pgh rid i
              else gp_zero
  | None => gp_zero
  end.

End ArrayUpdates.

(** ** Small concrete inputs *)

(** Integers stand for floats where a run is evaluated. *)
#[global] Instance Z_FloatEq : FloatEq Z := Z.eqb.

Definition ex_tree : RegTree Z :=
  {| SplitIndex := λ _, 0%N;
     SplitCond := λ _, 5%Z;
     DefaultLeft := λ _, true;
     LeftChild := λ _, 1%Z;
     RightChild := λ _, 2%Z |}.

(** A tree whose children are not adjacent, which [AddSplitsToRowSet]
    checks for. *)
Definition ex_tree_gap : RegTree Z :=
  {| SplitIndex := λ _, 0%N;
     SplitCond := λ _, 5%Z;
     DefaultLeft := λ _, true;
     LeftChild := λ _, 1%Z;
     RightChild := λ _, 3%Z |}.

Definition ex_nodes : list ExpandEntry := [ {| nid := 0 |} ].
Definition ex_ptrs : list N := [0; 3]%N.
Definition ex_vals : list Z := [1; 5; 5]%Z.

Definition ex_helper : ColumnSplitHelper :=
  {| decision_storage_ := [0%Z];
     missing_storage_ := [0%Z];
     tloc_decision_ := [];
     tloc_missing_ := [] |}.

(** Two rows, both owned by the root. *)
Definition ex_partitioner (col_split : bool) : CommonRowPartitioner :=
  {| base_rowid := 0;
     partition_builder_ := [];
     row_set_collection_ :=
       {| row_indices_ := [0; 1];
          elem_of_each_node_ := {[ 0%Z := {| begin_ := 0; end_ := 2 |} ]} |};
     is_col_split_ := col_split;
     column_split_helper_ := ex_helper |}.

(** Thread 0 sets bit 0 of the decision word and bits 0 and 1 of the
    missing word; thread 1 sets bit 1 of the decision word and bit 0 of the
    missing word. *)
Definition ex_MaskRows_pass (_ : list Z) (_ : list (list nat))
    (_ _ : list Z) : list Z * list Z :=
  ([1; 2]%Z, [3; 1]%Z).

(** Row [r] goes left when its missing bit is set, or else when its
    decision bit is clear. *)
Definition ex_PartitionByMask_pass (rows : list (list nat))
    (decision_bits missing_bits : list Z) : Scratch :=
  map (λ r,
         let goes_left (x : nat) :=
           Z.testbit (missing_bits !!! (x / 8)) (Z.of_nat (x mod 8))
           || negb (Z.testbit (decision_bits !!! (x / 8)) (Z.of_nat (x mod 8))) in
         (filter (λ x, goes_left x = true) r,
          filter (λ x, goes_left x = false) r))
      rows.

(** Odd rows go left, even rows go right. *)
Definition ex_Partition_pass (_ : list Z) (rows : list (list nat)) : Scratch :=
  map (λ r, (filter (λ x, Nat.odd x = true) r,
             filter (λ x, Nat.odd x = false) r)) rows.

Definition ex_collective : Collective :=
  {| transport_ok := true;
     peers_decision := [[4%Z]];
     peers_missing := [[1%Z]] |}.

Definition ex_matrix_view (base : nat) : MatrixView Z :=
  {| column_matrix_IsInitialized := true;
     gmat_base_rowid := base;
     cut_Ptrs := ex_ptrs;
     cut_Values := ex_vals |}.

(** One dense row with two features of one bin each, and the pair
    [(1, 1)]. *)
Definition ex_gmat : GHistIndexMatrix :=
  {| nfeatures := 2;
     row_stride := 2;
     nbins := 2;
     max_num_bins := 1;
     min_num_bins := 1;
     index_data := ["000"%byte; "000"%byte];
     index_bin_type_size := kUint8BinsTypeSize;
     cut_ptrs_ := [0; 1; 2]%N |}.

Definition ex_gpair : list (GradientPairInternal Z) := [MkGradientPair 1 1]%Z.
Definition ex_rows : list nat := [0].
Definition ex_hist : list (GradientPairInternal Z) :=
  [MkGradientPair 0 0; MkGradientPair 0 0]%Z.

Definition ex_dispatcher (local atomics : bool) : HistDispatcher :=
  {| work_group_size := 2;
     block := {| size := 1; nblocks := 1 |};
     use_local_hist := local;
     use_atomics := atomics |}.

(** A dispatcher constructor that selects the local kernel on dense input
    with few bins per feature and never selects atomics. *)
Definition ex_HistDispatcher_new (_ : unit) (isDense : bool)
    (size max_n_blocks nbins n_columns max_num_bins min_num_bins : nat)
    : HistDispatcher :=
  {| work_group_size := 2;
     block := {| size := 1; nblocks := Nat.min 1 max_n_blocks |};
     use_local_hist := isDense && (max_num_bins <=? 4);
     use_atomics := false |}.

(** Two scratch buffers and two [hist_fast] arrays with unrelated
    contents. *)
Definition ex_scratch1 : list (GradientPairInternal Z) :=
  [MkGradientPair 7 7; MkGradientPair 8 8]%Z.
Definition ex_scratch2 : list (GradientPairInternal Z) :=
  [MkGradientPair 0 0; MkGradientPair (-5) 5]%Z.
Definition ex_hist_fast1 (block feat : nat) : list (GradientPairInternal Z) :=
  [MkGradientPair 9 (Z.of_nat feat)]%Z.
Definition ex_hist_fast2 (block feat : nat) : list (GradientPairInternal Z) :=
  [MkGradientPair 3 (-3)]%Z.

(** Two dense rows with two features of one bin each. *)
Definition ex_gmat2 : GHistIndexMatrix :=
  {| nfeatures := 2;
     row_stride := 2;
     nbins := 2;
     max_num_bins := 1;
     min_num_bins := 1;
     index_data := ["000"%byte; "000"%byte; "000"%byte; "000"%byte];
     index_bin_type_size := kUint8BinsTypeSize;
     cut_ptrs_ := [0; 1; 2]%N |}.

Definition ex_gpair2 : list (GradientPairInternal Z) :=
  [MkGradientPair 1 1; MkGradientPair 2 3]%Z.


(** A node of [2^31 + 1] rows, all of them row [0] of the matrix, and a
    dispatcher with one block for them. *)
Definition ex_many_rows : list nat := replicate (N.to_nat 2147483649) 0.

Definition ex_dispatcher_many : HistDispatcher :=
  {| work_group_size := 2;
     block := {| size := N.to_nat 2147483649; nblocks := 1 |};
     use_local_hist := false;
     use_atomics := true |}.

(** A sparse matrix of one row and two columns that declares one byte per
    bin index and stores the global bins [0] and [1] on four bytes each. *)
Definition ex_gmat_sparse : GHistIndexMatrix :=
  {| nfeatures := 2;
     row_stride := 2;
     nbins := 2;
     max_num_bins := 1;
     min_num_bins := 1;
     index_data := ["000"%byte; "000"%byte; "000"%byte; "000"%byte;
                    "001"%byte; "000"%byte; "000"%byte; "000"%byte];
     index_bin_type_size := kUint8BinsTypeSize;
     cut_ptrs_ := [0; 1; 2]%N |}.

(** * Properties *)

(** ** The error monad and its loops *)

Lemma bind_Ok {A B} (a : A) (k : A → res B) : (Ok a ≫= k) = k a.
Proof. reflexivity. Qed.

Lemma read_Some {A} (a : list A) i x : a !! i = Some x → read a i = Ok x.
Proof. unfold read. by intros ->. Qed.

Lemma read_Ok {A} (a : list A) i x : read a i = Ok x → a !! i = Some x.
Proof. unfold read. destruct (a !! i); naive_solver. Qed.

Lemma read_lt {A} (a : list A) i : i < length a → ∃ x, a !! i = Some x ∧ read a i = Ok x.
Proof.
  intros H. destruct (lookup_lt_is_Some_2 a i H) as [x Hx].
  exists x. split; [done | by apply read_Some].
Qed.

Lemma write_lt {A} (a : list A) i x : i < length a → write a i x = Ok (<[i:=x]> a).
Proof. intros H. unfold write. by rewrite decide_True. Qed.

Lemma for_each_app {A St} (l1 l2 : list A) (body : A → St → res St) s :
  for_each (l1 ++ l2) body s = s' ← for_each l1 body s; for_each l2 body s'.
Proof.
  revert s. induction l1 as [|x l1 IH]; intros s; simpl; [done|].
  destruct (body x s) as [s'|f]; simpl; [apply IH | done].
Qed.

Lemma for_range_S {St} n (body : nat → St → res St) s :
  for_range (S n) body s = s' ← for_range n body s; body n s'.
Proof.
  unfold for_range. rewrite seq_S, for_each_app. simpl.
  destruct (for_each (seq 0 n) body s) as [s'|f]; simpl; [|done].
  by destruct (body n s').
Qed.

(** The loop stops with the fault of the first iteration that faults. *)
Lemma for_range_fault_at {St} n m (body : nat → St → res St) s s' f :
  m < n → for_range m body s = Ok s' → body m s' = Fault f →
  for_range n body s = Fault f.
Proof.
  intros Hm Hrun Hf. unfold for_range in *.
  replace n with (m + S (n - m - 1)) by lia.
  rewrite seq_app, for_each_app, Hrun, bind_Ok.
  cbn [seq for_each Nat.add]. by rewrite Hf.
Qed.

(** An invariant that every iteration re-establishes holds at the end, and
    the loop does not fault. *)
Lemma for_each_inv {A St} (P : list A → St → Prop) (l : list A)
    (body : A → St → res St) s :
  P [] s →
  (∀ pre x post s, l = pre ++ x :: post → P pre s →
     ∃ s', body x s = Ok s' ∧ P (pre ++ [x]) s') →
  ∃ s', for_each l body s = Ok s' ∧ P l s'.
Proof.
  intros H0 Hstep.
  assert (∀ post pre s, l = pre ++ post → P pre s →
            ∃ s', for_each post body s = Ok s' ∧ P l s') as Hgen.
  { induction post as [|x post IH]; intros pre s1 Hl Hp; simpl.
    - rewrite app_nil_r in Hl. subst. eauto.
    - destruct (Hstep pre x post s1 Hl Hp) as (s2 & -> & Hp2). simpl.
      apply (IH (pre ++ [x])); [|done]. by rewrite <- app_assoc. }
  by apply (Hgen l []).
Qed.

Lemma for_range_inv {St} (P : nat → St → Prop) n (body : nat → St → res St) s :
  P 0 s →
  (∀ i s, i < n → P i s → ∃ s', body i s = Ok s' ∧ P (S i) s') →
  ∃ s', for_range n body s = Ok s' ∧ P n s'.
Proof.
  intros H0 Hstep. induction n as [|n IH].
  - exists s. by split.
  - destruct IH as (s1 & Hs1 & Hp1); [intros; apply Hstep; [lia|done]|].
    destruct (Hstep n s1) as (s2 & Hs2 & Hp2); [lia|done|].
    exists s2. rewrite for_range_S, Hs1. by split.
Qed.

(** ** [FindSplitConditions] *)

Lemma to_int32_small (a : N) : (a ≤ int32_max)%N → to_int32 a = Z.of_N a.
Proof.
  intros H. unfold to_int32, int32_max, two32 in *.
  rewrite Z.mod_small by lia.
  change (Z.of_N 4294967296 / 2)%Z with 2147483648%Z.
  destruct (Z.ltb_spec (Z.of_N a) 2147483648); lia.
Qed.

Section SplitConditionsFacts.
Context {Float : Type} `{!FloatEq Float}.

Lemma is_split_cond_empty (vals : list Float) pt lo hi :
  (hi ≤ lo)%N → is_split_cond vals pt lo hi (-1).
Proof. intros H. left. split; [done|]. intros b v Hb. lia. Qed.

(** One more iteration of the scan extends the range by one index. *)
Lemma is_split_cond_step (vals : list Float) pt lo hi c v :
  (lo ≤ hi)%N → (hi < int32_max)%N →
  vals !! N.to_nat hi = Some v →
  is_split_cond vals pt lo hi c →
  is_split_cond vals pt lo (hi + 1)
    (if feq pt v then to_int32 hi else c).
Proof.
  intros Hle Hmax Hv Hc. destruct (feq pt v) eqn:Heq.
  - right. exists hi, v. rewrite to_int32_small by lia.
    split_and!; [done | lia | lia | done | done |].
    intros b' v' Hb'. lia.
  - destruct Hc as [[-> Hnone] | (b & w & -> & Hb & Hw & Hwe & Hlast)].
    + left. split; [done|]. intros b w Hb Hw.
      destruct (decide (b = hi)) as [->|Hne].
      * congruence.
      * apply (Hnone b w); [lia | done].
    + right. exists b, w. split_and!; [done | lia | lia | done | done |].
      intros b' v' Hb' Hv'.
      destruct (decide (b' = hi)) as [->|Hne].
      * congruence.
      * apply (Hlast b' v'); [lia | done].
Qed.

Lemma scan_prefix (vals : list Float) pt (a k : nat) :
  (N.of_nat (a + k) ≤ int32_max)%N →
  (∀ b, a ≤ b < a + k → is_Some (vals !! b)) →
  ∃ c, for_each (map N.of_nat (seq a k))
         (λ bound split_cond,
            v ← read vals (N.to_nat bound);
            mret (if feq pt v then to_int32 bound else split_cond))
         (-1)%Z = Ok c
       ∧ is_split_cond vals pt (N.of_nat a) (N.of_nat (a + k)) c.
Proof.
  induction k as [|k IH]; intros Hmax Hvals.
  - exists (-1)%Z. split; [done|]. apply is_split_cond_empty. lia.
  - destruct IH as (c & Hc & Hspec); [lia | intros; apply Hvals; lia |].
    destruct (Hvals (a + k)) as [v Hv]; [lia|].
    rewrite seq_S, map_app, for_each_app, Hc. simpl.
    rewrite Nat2N.id, (read_Some _ _ _ Hv). simpl.
    eexists. split; [done|].
    replace (N.of_nat (a + S k)) with (N.of_nat (a + k) + 1)%N by lia.
    apply is_split_cond_step; [lia | lia | by rewrite Nat2N.id | done].
Qed.

Lemma scan_bounds_spec (vals : list Float) pt lo hi :
  (hi < int32_max)%N →
  (∀ b, (lo ≤ b < hi)%N → is_Some (vals !! N.to_nat b)) →
  ∃ c, scan_bounds vals pt lo hi = Ok c ∧ is_split_cond vals pt lo hi c.
Proof.
  intros Hmax Hvals. unfold scan_bounds, range32.
  destruct (decide (lo ≤ hi)%N) as [Hle|Hgt].
  - destruct (scan_prefix vals pt (N.to_nat lo) (N.to_nat hi - N.to_nat lo))
      as (c & Hc & Hspec).
    + lia.
    + intros b Hb. specialize (Hvals (N.of_nat b)).
      rewrite Nat2N.id in Hvals. apply Hvals. lia.
    + exists c. split; [done|].
      replace (N.of_nat (N.to_nat lo)) with lo in Hspec by lia.
      replace (N.of_nat (N.to_nat lo + (N.to_nat hi - N.to_nat lo)))
        with hi in Hspec by lia.
      done.
  - replace (N.to_nat hi - N.to_nat lo) with 0 by lia. simpl.
    exists (-1)%Z. split; [done|]. apply is_split_cond_empty. lia.
Qed.

(** C3. For every node [i] of the input list, [FindSplitConditions] stores
    in [split_conditions[i]] the largest index [b] of
    [[ptrs[f], ptrs[f+1])] with [vals[b] == split_pt], where [f] and
    [split_pt] are the split feature and the split value of the node, and
    [-1] when no index of the range has an equal cut value, in particular
    when the range is empty.  The upper bounds fit a signed 32-bit integer,
    as the function's [CHECK] demands, and the cuts can be read. *)
Theorem FindSplitConditions_max_equal_cut
    (nodes : list ExpandEntry) (tree : RegTree Float) (ptrs : list N)
    (vals : list Float) (split_conditions : list Z) :
  length split_conditions = length nodes →
  Forall (node_cuts_ok tree ptrs vals) nodes →
  ∃ sc, FindSplitConditions nodes tree ptrs vals split_conditions = Ok sc
    ∧ length sc = length nodes
    ∧ ∀ i e lo hi,
        nodes !! i = Some e →
        ptrs !! N.to_nat (SplitIndex tree (nid e)) = Some lo →
        ptrs !! N.to_nat (SplitIndex tree (nid e) + 1) = Some hi →
        ∃ c, sc !! i = Some c
          ∧ is_split_cond vals (SplitCond tree (nid e)) lo hi c.
Proof.
  intros Hlen Hok. unfold FindSplitConditions.
  pose (P := λ (n : nat) (sc : list Z),
    length sc = length nodes
    ∧ ∀ i e lo hi, i < n →
        nodes !! i = Some e →
        ptrs !! N.to_nat (SplitIndex tree (nid e)) = Some lo →
        ptrs !! N.to_nat (SplitIndex tree (nid e) + 1) = Some hi →
        ∃ c, sc !! i = Some c
          ∧ is_split_cond vals (SplitCond tree (nid e)) lo hi c).
  destruct (for_range_inv P (length nodes)
    (λ i split_conditions,
       e ← read nodes i;
       let nidx := nid e in
       let fidx := SplitIndex tree nidx in
       let split_pt := SplitCond tree nidx in
       lower_bound ← read ptrs (N.to_nat fidx);
       upper_bound ← read ptrs (N.to_nat (add32 fidx 1));
       _ ← check (upper_bound <? int32_max)%N;
       split_cond ← scan_bounds vals split_pt lower_bound upper_bound;
       write split_conditions i split_cond) split_conditions)
    as (sc & Hrun & Hlen' & Hall).
  - split; [done|]. intros; lia.
  - intros i sc Hi [Hl Hprev].
    destruct (read_lt nodes i Hi) as (e & He & Hre). rewrite Hre. simpl.
    rewrite Forall_forall in Hok.
    destruct (Hok e) as (lo & hi & Hf & Hlo & Hhi & Hmax & Hvals).
    { eapply list_elem_of_lookup_2. exact He. }
    assert (add32 (SplitIndex tree (nid e)) 1 = (SplitIndex tree (nid e) + 1)%N)
      as Hadd by (unfold add32; apply N.mod_small; done).
    rewrite (read_Some _ _ _ Hlo). simpl.
    rewrite Hadd, (read_Some _ _ _ Hhi). simpl.
    destruct (N.ltb_spec hi int32_max) as [_|]; [simpl | lia].
    destruct (scan_bounds_spec vals (SplitCond tree (nid e)) lo hi Hmax Hvals)
      as (c & -> & Hc). simpl.
    rewrite write_lt by lia. eexists. split; [done|].
    split; [by rewrite length_insert|].
    intros i' e' lo' hi' Hi' He' Hlo' Hhi'.
    destruct (decide (i' = i)) as [->|Hne].
    + assert (e' = e) by congruence. subst e'.
      assert (lo' = lo) by congruence. assert (hi' = hi) by congruence.
      subst. exists c. split; [|done].
      apply list_lookup_insert_eq. lia.
    + rewrite list_lookup_insert_ne by done.
      apply (Hprev i' e' lo' hi'); [lia | done..].
  - exists sc. split; [done|]. split; [done|].
    intros i e lo hi He. apply Hall; [|done]. by eapply lookup_lt_Some.
Qed.

End SplitConditionsFacts.

(** ** More on loops *)

Lemma bind_assoc {A B C} (m : res A) (f : A → res B) (g : B → res C) :
  (m ≫= f) ≫= g = m ≫= (λ a, f a ≫= g).
Proof. by destruct m. Qed.

Lemma for_each_ext {A St} (l : list A) (f g : A → St → res St) s :
  (∀ x s, x ∈ l → f x s = g x s) → for_each l f s = for_each l g s.
Proof.
  revert s. induction l as [|x l IH]; intros s H; simpl; [done|].
  rewrite H by left. destruct (g x s); simpl; [|done].
  apply IH. intros. apply H. by right.
Qed.

Lemma for_range_ext {St} n (f g : nat → St → res St) s :
  (∀ i s, i < n → f i s = g i s) → for_range n f s = for_range n g s.
Proof.
  intros H. apply for_each_ext. intros i s' Hi. apply H.
  apply list_elem_of_In, in_seq in Hi. lia.
Qed.

(** A loop over [2 * n] indices that handles them two at a time. *)
Lemma for_range_double {St} n (body : nat → St → res St) s :
  for_range (2 * n) body s
  = for_range n (λ i s, s' ← body (2 * i) s; body (2 * i + 1) s') s.
Proof.
  induction n as [|n IH]; [done|].
  replace (2 * S n) with (S (S (2 * n))) by lia.
  rewrite !for_range_S, IH, bind_assoc.
  by replace (S (2 * n)) with (2 * n + 1) by lia.
Qed.

(** ** The flat view of an array of pairs *)

Lemma half_even k : (2 * k) / 2 = k.
Proof. rewrite Nat.mul_comm. apply Nat.div_mul. lia. Qed.

Lemma half_odd k : (2 * k + 1) / 2 = k.
Proof. rewrite Nat.mul_comm, Nat.div_add_l by lia. simpl. lia. Qed.

Lemma even_even k : Nat.even (2 * k) = true.
Proof. by rewrite Nat.even_mul. Qed.

Lemma even_odd k : Nat.even (2 * k + 1) = false.
Proof. by rewrite Nat.even_add, Nat.even_mul. Qed.

Section FlatView.
Context {ValueT FPType : Type} `{!FPOps ValueT FPType}.
Local Abbreviation GradientPairT := (GradientPairInternal FPType).

Lemma flat_read_pair {T} (a : list (GradientPairInternal T)) k p :
  a !! k = Some p →
  flat_read a (2 * k) = Ok (grad_ p) ∧ flat_read a (2 * k + 1) = Ok (hess_ p).
Proof.
  intros H. unfold flat_read, flat_get.
  rewrite half_even, half_odd, even_even, even_odd, (read_Some _ _ _ H).
  done.
Qed.

(** Writing the two fields of pair [k] through the flat view writes the
    pair. *)
Lemma flat_write_pair {T} (a : list (GradientPairInternal T)) k p v w :
  a !! k = Some p →
  (a' ← flat_write a (2 * k) v; flat_write a' (2 * k + 1) w)
  = Ok (<[k := MkGradientPair v w]> a).
Proof.
  intros H. unfold flat_write, flat_set.
  rewrite half_even, half_odd, even_even, even_odd, H. simpl.
  rewrite list_lookup_insert_eq by (by eapply lookup_lt_Some). simpl.
  by rewrite list_insert_insert_eq.
Qed.

(** Two atomic additions to the fields of pair [k] are one [+=] of a
    pair. *)
Lemma atomic_add_pair (a : list GradientPairT) k (v w : FPType) :
  (a' ← atomic_add a (2 * k) v; atomic_add a' (2 * k + 1) w)
  = accumulate a k (MkGradientPair v w).
Proof.
  unfold atomic_add, accumulate, flat_set, flat_get, gp_add.
  rewrite half_even, half_odd, even_even, even_odd.
  destruct (a !! k) as [p|] eqn:H; simpl; [|done].
  rewrite list_lookup_insert_eq by (by eapply lookup_lt_Some). simpl.
  by rewrite list_insert_insert_eq.
Qed.

End FlatView.

(** ** [SubtractionHist] and [SubtractionTrick] *)

Section SubtractionFacts.
Context {ValueT FPType : Type} `{!FPOps ValueT FPType}.
Local Abbreviation GradientPairT := (GradientPairInternal FPType).

(** The two iterations of the flat loop that belong to pair [i]. *)
Lemma SubtractionHist_pair (pdst src1 src2 : list GradientPairT) i x y :
  src1 !! i = Some x → src2 !! i = Some y → i < length pdst →
  (d ← (x ← flat_read src1 (2 * i);
        y ← flat_read src2 (2 * i);
        flat_write pdst (2 * i) (fp_sub x y));
   x ← flat_read src1 (2 * i + 1);
   y ← flat_read src2 (2 * i + 1);
   flat_write d (2 * i + 1) (fp_sub x y))
  = Ok (<[i := gp_sub x y]> pdst).
Proof.
  intros Hx Hy Hi.
  destruct (flat_read_pair src1 i x Hx) as [-> ->].
  destruct (flat_read_pair src2 i y Hy) as [-> ->]. simpl.
  destruct (lookup_lt_is_Some_2 pdst i Hi) as [p Hp].
  by rewrite (flat_write_pair pdst i p).
Qed.

Lemma SubtractionHist_spec (dst src1 src2 : list GradientPairT) (size : nat) :
  size ≤ length src1 → size ≤ length src2 → size ≤ length dst →
  ∃ dst', SubtractionHist dst src1 src2 size = Ok dst'
    ∧ length dst' = length dst
    ∧ (∀ i x y, i < size → src1 !! i = Some x → src2 !! i = Some y →
         dst' !! i = Some (gp_sub x y))
    ∧ (∀ i, size ≤ i → dst' !! i = dst !! i).
Proof.
  intros H1 H2 Hd. unfold SubtractionHist. rewrite for_range_double.
  pose (P := λ (n : nat) (d : list GradientPairT),
    length d = length dst
    ∧ (∀ i x y, i < n → src1 !! i = Some x → src2 !! i = Some y →
         d !! i = Some (gp_sub x y))
    ∧ (∀ i, n ≤ i → d !! i = dst !! i)).
  apply (for_range_inv P).
  - split_and!; [done | intros; lia | done].
  - intros i d Hi (Hlen & Hlo & Hhi).
    destruct (lookup_lt_is_Some_2 src1 i) as [x Hx]; [lia|].
    destruct (lookup_lt_is_Some_2 src2 i) as [y Hy]; [lia|].
    rewrite (SubtractionHist_pair d src1 src2 i x y Hx Hy) by lia.
    eexists. split; [done|]. split_and!.
    + by rewrite length_insert.
    + intros i' x' y' Hi' Hx' Hy'.
      destruct (decide (i' = i)) as [->|Hne].
      * rewrite list_lookup_insert_eq by lia. congruence.
      * rewrite list_lookup_insert_ne by done. apply Hlo; [lia | done..].
    + intros i' Hi'. rewrite list_lookup_insert_ne by lia. apply Hhi. lia.
Qed.

(** C5. For histograms [a] and [b] of [B] pairs, [SubtractionHist(dst, a,
    b, B)] sets [dst[i] = a[i] - b[i]] for every index [i], in both
    components; and [SubtractionTrick(self, sibling, parent)], when the
    three sizes are equal, sets [self[i] = parent[i] - sibling[i]] for every
    [i]. *)
Theorem SubtractionHist_SubtractionTrick_pairwise :
  (∀ (dst a b : list GradientPairT) (B : nat),
     length a = B → length b = B → length dst = B →
     ∃ dst', SubtractionHist dst a b B = Ok dst'
       ∧ length dst' = B
       ∧ ∀ i x y, a !! i = Some x → b !! i = Some y →
           dst' !! i = Some (gp_sub x y))
  ∧ (∀ (self sibling parent : list GradientPairT),
       length sibling = length self → length parent = length self →
       ∃ self', SubtractionTrick self sibling parent = Ok self'
         ∧ length self' = length self
         ∧ ∀ i p s, parent !! i = Some p → sibling !! i = Some s →
             self' !! i = Some (gp_sub p s)).
Proof.
  split.
  - intros dst a b B Ha Hb Hd.
    destruct (SubtractionHist_spec dst a b B) as (dst' & Hrun & Hlen & Hlo & _);
      [lia..|].
    exists dst'. split_and!; [done | lia |].
    intros i x y Hx Hy. apply Hlo; [|done..].
    apply lookup_lt_Some in Hx. lia.
  - intros self sibling parent Hs Hp. unfold SubtractionTrick.
    rewrite Hs, Hp, Nat.eqb_refl. simpl.
    destruct (SubtractionHist_spec self parent sibling (length self))
      as (self' & Hrun & Hlen & Hlo & _); [lia..|].
    exists self'. split_and!; [done..|].
    intros i p s Hpi Hsi. apply Hlo; [|done..].
    apply lookup_lt_Some in Hpi. lia.
Qed.

End SubtractionFacts.

(** ** Kernel selection *)

Section DispatchFacts.
Context {ValueT FPType : Type} `{!FPOps ValueT FPType}.
Context {DeviceProperties : Type}.
Variable HistDispatcher_new :
  DeviceProperties → bool → nat → nat → nat → nat → nat → nat → HistDispatcher.
Local Abbreviation GradientPair := (GradientPairInternal ValueT).
Local Abbreviation GradientPairT := (GradientPairInternal FPType).

(** C6. In every call of [BuildHistDispatchKernel] on a matrix with at
    least one bin, with the dispatcher built from the call's arguments:
    when the dispatcher reports [use_atomics] or [force_atomic_use] is set,
    the call is the run of the atomic kernel; otherwise, on dense input for
    which the dispatcher reports [use_local_hist], it is the run of the
    kernel with local private bins; and in all remaining cases it is the
    run of the plain buffered kernel.  The three conditions exclude each
    other and leave no case out, so each kernel runs exactly when its
    condition holds.  On dense input the kernels are instantiated at the
    index type of the call, on sparse input at [uint32_t]. *)
Theorem BuildHistDispatchKernel_selection
    (BinIdxT : BinIdxType) (gpair : list GradientPair)
    (row_indices : list nat) (gmat : GHistIndexMatrix)
    (hist : list GradientPairT) (isDense : bool)
    (hist_buffer : list GradientPairT) (device_prop : DeviceProperties)
    (force_atomic_use : bool)
    (hist_fast0 : nat → nat → list GradientPairT)
    (dispatcher : HistDispatcher) :
  nbins gmat ≠ 0 →
  dispatcher
  = HistDispatcher_new device_prop isDense (length row_indices)
      (length hist_buffer / nbins gmat) (nbins gmat)
      (if isDense then nfeatures gmat else row_stride gmat)
      (max_num_bins gmat) (min_num_bins gmat) →
  (use_atomics dispatcher = true ∨ force_atomic_use = true →
   BuildHistDispatchKernel HistDispatcher_new BinIdxT gpair row_indices gmat
     hist isDense hist_buffer device_prop force_atomic_use hist_fast0
   = (h ← BuildHistKernel_atomic (if isDense then BinIdxT else uint32_t)
            isDense gpair row_indices gmat hist dispatcher;
      mret (h, hist_buffer)))
  ∧ (¬ (use_atomics dispatcher = true ∨ force_atomic_use = true) →
     isDense = true ∧ use_local_hist dispatcher = true →
     BuildHistDispatchKernel HistDispatcher_new BinIdxT gpair row_indices
       gmat hist isDense hist_buffer device_prop force_atomic_use hist_fast0
     = BuildHistKernelLocal BinIdxT gpair row_indices gmat hist hist_buffer
         dispatcher hist_fast0)
  ∧ (¬ (use_atomics dispatcher = true ∨ force_atomic_use = true) →
     ¬ (isDense = true ∧ use_local_hist dispatcher = true) →
     BuildHistDispatchKernel HistDispatcher_new BinIdxT gpair row_indices
       gmat hist isDense hist_buffer device_prop force_atomic_use hist_fast0
     = BuildHistKernel_buffered (if isDense then BinIdxT else uint32_t)
         isDense gpair row_indices gmat hist hist_buffer dispatcher).
Proof.
  intros Hnbins Hd.
  unfold BuildHistDispatchKernel, BuildHistDispatchKernel_dispatcher.
  cbv zeta. rewrite (decide_False (P := nbins gmat = 0)) by done.
  rewrite bind_Ok, <- Hd. change (mret dispatcher) with (Ok dispatcher).
  rewrite bind_Ok. clear Hd.
  destruct (use_atomics dispatcher), force_atomic_use, isDense,
    (use_local_hist dispatcher); simpl;
    split_and!; try done; intros; exfalso; intuition congruence.
Qed.


(** The kernel that [BuildHistKernel] runs is the one named by
    [BuildHistKernel_call]. *)
Lemma BuildHistKernel_runs_call
    (gpair : list GradientPair) (row_indices : list nat)
    (gmat : GHistIndexMatrix) (isDense : bool)
    (hist hist_buffer : list GradientPairT)
    (device_prop : DeviceProperties) (force_atomic_use : bool)
    (hist_fast0 : nat → nat → list GradientPairT) :
  BuildHistKernel HistDispatcher_new gpair row_indices gmat isDense hist
    hist_buffer device_prop force_atomic_use hist_fast0
  = dispatcher ← BuildHistDispatchKernel_dispatcher HistDispatcher_new
                   row_indices gmat isDense hist_buffer device_prop;
    launch (BuildHistKernel_call gmat dispatcher isDense force_atomic_use)
      gpair row_indices gmat hist hist_buffer dispatcher hist_fast0.
Proof.
  unfold BuildHistKernel, BuildHistKernel_call, BuildHistDispatchKernel,
    BuildHistDispatchKernel_branch, launch. cbv zeta.
  destruct (GetBinTypeSize gmat);
    (destruct (BuildHistDispatchKernel_dispatcher _ _ _ _ _ _) as [d|f];
     [|done]);
    rewrite !bind_Ok;
    by destruct (use_atomics d), force_atomic_use, isDense,
      (use_local_hist d).
Qed.

End DispatchFacts.

(** ** [ColumnSplitHelper::Partition] *)

(** A loop over [seq a n] with an invariant indexed by the counter. *)
Lemma for_seq_inv {St} (P : nat → St → Prop) a n (body : nat → St → res St) s :
  P a s →
  (∀ i s, a ≤ i < a + n → P i s → ∃ s', body i s = Ok s' ∧ P (S i) s') →
  ∃ s', for_each (seq a n) body s = Ok s' ∧ P (a + n) s'.
Proof.
  intros H0 Hstep. induction n as [|n IH].
  - exists s. rewrite Nat.add_0_r. by split.
  - destruct IH as (s1 & Hs1 & Hp1); [intros; apply Hstep; [lia|done]|].
    destruct (Hstep (a + n) s1) as (s2 & Hs2 & Hp2); [lia|done|].
    exists s2. rewrite seq_S, for_each_app, Hs1. simpl. rewrite Hs2. simpl.
    split; [done|]. by replace (a + S n) with (S (a + n)) by lia.
Qed.

(** [dst |= src] on two views of [n] words that do not overlap. *)
Lemma bitfield_or_assign_spec (storage : list Z) (dst src n : nat) :
  dst + n ≤ src → src + n ≤ length storage →
  ∃ storage', bitfield_or_assign storage dst src n = Ok storage'
    ∧ length storage' = length storage
    ∧ (∀ i, i < n →
         storage' !!! (dst + i)
         = Z.lor (storage !!! (dst + i)) (storage !!! (src + i)))
    ∧ (∀ p, ¬ (dst ≤ p < dst + n) → storage' !! p = storage !! p).
Proof.
  intros Hdisj Hlen. unfold bitfield_or_assign.
  pose (P := λ (m : nat) (st : list Z),
    length st = length storage
    ∧ (∀ i, i < m →
         st !!! (dst + i)
         = Z.lor (storage !!! (dst + i)) (storage !!! (src + i)))
    ∧ (∀ p, ¬ (dst ≤ p < dst + m) → st !! p = storage !! p)).
  destruct (for_range_inv P n
    (λ i storage,
       x ← read storage (dst + i);
       y ← read storage (src + i);
       write storage (dst + i) (Z.lor x y)) storage)
    as (st & Hrun & Hl & Hor & Hframe).
  - split_and!; [done | intros; lia | done].
  - intros i st Hi (Hl & Hor & Hframe).
    destruct (read_lt st (dst + i)) as (x & Hx & ->); [lia|].
    destruct (read_lt st (src + i)) as (y & Hy & ->); [lia|]. simpl.
    rewrite write_lt by lia. eexists. split; [done|].
    rewrite Hframe in Hx, Hy by lia.
    apply list_lookup_total_correct in Hx, Hy.
    split_and!.
    + by rewrite length_insert.
    + intros i' Hi'. destruct (decide (i' = i)) as [->|Hne].
      * rewrite list_lookup_total_insert_eq by lia. by rewrite Hx, Hy.
      * rewrite list_lookup_total_insert_ne by lia. apply Hor. lia.
    + intros p Hp. rewrite list_lookup_insert_ne by lia. apply Hframe. lia.
  - by exists st.
Qed.

Lemma zip_with_lookup_total (f : Z → Z → Z) (a p : list Z) k :
  k < length a → k < length p →
  zip_with f a p !!! k = f (a !!! k) (p !!! k).
Proof.
  intros Ha Hp. apply list_lookup_total_correct. rewrite lookup_zip_with.
  rewrite (list_lookup_lookup_total_lt a k Ha). simpl.
  by rewrite (list_lookup_lookup_total_lt p k Hp).
Qed.

Lemma Allreduce_length (f : Z → Z → Z) (peers : list (list Z)) (buf : list Z) n :
  length buf = n → Forall (λ p, length p = n) peers →
  length (foldl (λ acc peer, zip_with f acc peer) buf peers) = n.
Proof.
  intros Hb Hp. revert buf Hb.
  induction Hp as [|p peers Hlen _ IH]; intros buf Hb; simpl; [done|].
  apply IH. rewrite length_zip_with. lia.
Qed.

(** After the all-reduce with OR a bit is set exactly when it is set in the
    buffer of some worker. *)
Lemma Allreduce_OR_bits (peers : list (list Z)) (buf : list Z) n k b :
  length buf = n → Forall (λ p, length p = n) peers → k < n →
  Z.testbit (foldl (λ acc peer, zip_with Z.lor acc peer) buf peers !!! k) b
  = true
  ↔ Z.testbit (buf !!! k) b = true
    ∨ ∃ p, p ∈ peers ∧ Z.testbit (p !!! k) b = true.
Proof.
  intros Hb Hp Hk. revert buf Hb.
  induction Hp as [|p peers Hlen _ IH]; intros buf Hb; simpl.
  - split; [by left|]. intros [H|(p & Hin & _)]; [done|].
    by apply elem_of_nil in Hin.
  - rewrite IH by (rewrite length_zip_with; lia).
    rewrite zip_with_lookup_total by lia. simpl.
    rewrite Z.lor_spec, orb_true_iff. split.
    + intros [[H|H]|(q & Hq & H)]; [by left | right | right].
      * exists p. split; [left | done].
      * exists q. split; [by right | done].
    + intros [H|(q & Hq & H)]; [by left; left|].
      apply elem_of_cons in Hq as [->|Hq]; [by left; right|].
      right. by exists q.
Qed.

(** After the all-reduce with AND a bit is set exactly when it is set in
    the buffers of all workers. *)
Lemma Allreduce_AND_bits (peers : list (list Z)) (buf : list Z) n k b :
  length buf = n → Forall (λ p, length p = n) peers → k < n →
  Z.testbit (foldl (λ acc peer, zip_with Z.land acc peer) buf peers !!! k) b
  = true
  ↔ Z.testbit (buf !!! k) b = true
    ∧ ∀ p, p ∈ peers → Z.testbit (p !!! k) b = true.
Proof.
  intros Hb Hp Hk. revert buf Hb.
  induction Hp as [|p peers Hlen _ IH]; intros buf Hb; simpl.
  - split; [|by intros [? _]]. intros H. split; [done|].
    intros p Hin. by apply elem_of_nil in Hin.
  - rewrite IH by (rewrite length_zip_with; lia).
    rewrite zip_with_lookup_total by lia. simpl.
    rewrite Z.land_spec, andb_true_iff. split.
    + intros [[H1 H2] H3]. split; [done|]. intros q Hq.
      apply elem_of_cons in Hq as [->|Hq]; [done | by apply H3].
    + intros [H1 H2]. split_and!; [done | apply H2; left |].
      intros q Hq. apply H2. by right.
Qed.

(** The reduction of the thread-local replicas: afterwards a bit of the
    first replica is set exactly when it was set in some replica. *)
Lemma reduce_thread_local (td tm : list Z) (n n_threads : nat) :
  1 ≤ n_threads → length td = n * n_threads → length tm = n * n_threads →
  ∃ td' tm',
    for_each (seq 1 (n_threads - 1))
      (λ tidx '(tloc_decision, tloc_missing),
         d ← make_tloc tloc_decision n tidx;
         tloc_decision ← bitfield_or_assign tloc_decision (n * 0) d n;
         m ← make_tloc tloc_missing n tidx;
         tloc_missing ← bitfield_or_assign tloc_missing (n * 0) m n;
         mret (tloc_decision, tloc_missing))
      (td, tm) = Ok (td', tm')
    ∧ length td' = length td ∧ length tm' = length tm
    ∧ (∀ k b, k < n →
         Z.testbit (td' !!! k) b = true
         ↔ ∃ t, t < n_threads ∧ Z.testbit (td !!! (n * t + k)) b = true)
    ∧ (∀ k b, k < n →
         Z.testbit (tm' !!! k) b = true
         ↔ ∃ t, t < n_threads ∧ Z.testbit (tm !!! (n * t + k)) b = true).
Proof.
  intros Hthr Hd Hm.
  pose (Q := λ (src cur : list Z) (m : nat),
    length cur = length src
    ∧ (∀ p, n ≤ p → cur !! p = src !! p)
    ∧ (∀ k b, k < n →
         Z.testbit (cur !!! k) b = true
         ↔ ∃ t, t < m ∧ Z.testbit (src !!! (n * t + k)) b = true)).
  assert (∀ src, Q src src 1) as Hinit.
  { intros src. split_and!; [done..|]. intros k b Hk. split.
    - intros H. exists 0. split; [lia|]. by rewrite Nat.mul_0_r.
    - intros (t & Ht & H). assert (t = 0) as -> by lia.
      by rewrite Nat.mul_0_r in H. }
  assert (∀ src cur m, length src = n * n_threads → 1 ≤ m < n_threads →
            Q src cur m →
            ∃ cur', (d ← make_tloc cur n m;
                     bitfield_or_assign cur (n * 0) d n) = Ok cur'
                    ∧ Q src cur' (S m)) as Hstep.
  { intros src cur m Hsrc Hm' (Hl & Hframe & Hbits). unfold make_tloc.
    rewrite bool_decide_eq_true_2 by nia. simpl.
    destruct (bitfield_or_assign_spec cur (n * 0) (n * m) n)
      as (cur' & -> & Hl' & Hor & Hfr'); [nia | nia |].
    exists cur'. split; [done|]. split_and!.
    - lia.
    - intros p Hp. rewrite Hfr' by lia. by apply Hframe.
    - intros k b Hk. specialize (Hor k Hk).
      rewrite Nat.mul_0_r in Hor. simpl in Hor. rewrite Hor, Z.lor_spec.
      rewrite orb_true_iff, Hbits by done.
      assert (cur !!! (n * m + k) = src !!! (n * m + k)) as ->.
      { rewrite !list_lookup_total_alt. f_equal. apply Hframe. nia. }
      split.
      + intros [(t & Ht & H)|H]; [exists t | exists m]; (split; [lia|done]).
      + intros (t & Ht & H). destruct (decide (t = m)) as [->|Hne];
          [by right | left]. exists t. split; [lia|done]. }
  destruct (for_seq_inv (λ m '(cd, cm), Q td cd m ∧ Q tm cm m) 1 (n_threads - 1)
    (λ tidx '(tloc_decision, tloc_missing),
         d ← make_tloc tloc_decision n tidx;
         tloc_decision ← bitfield_or_assign tloc_decision (n * 0) d n;
         m ← make_tloc tloc_missing n tidx;
         tloc_missing ← bitfield_or_assign tloc_missing (n * 0) m n;
         mret (tloc_decision, tloc_missing)) (td, tm))
    as ([td' tm'] & Hrun & HQd & HQm).
  - split; apply Hinit.
  - intros i [cd cm] Hi [HQd HQm].
    destruct (Hstep td cd i Hd) as (cd' & Hcd & HQd'); [lia | done |].
    destruct (Hstep tm cm i Hm) as (cm' & Hcm & HQm'); [lia | done |].
    exists (cd', cm'). split; [|done].
    rewrite <- bind_assoc, Hcd. simpl. rewrite <- bind_assoc, Hcm. done.
  - replace (1 + (n_threads - 1)) with n_threads in * by lia.
    destruct HQd as (? & _ & ?), HQm as (? & _ & ?).
    exists td', tm'. by split_and!.
Qed.

Section ColumnSplitFacts.
Variable MaskRows_pass :
  list Z → list (list nat) → list Z → list Z → list Z * list Z.
Variable PartitionByMask_pass :
  list (list nat) → list Z → list Z → Scratch.

(** C4. In a call of [ColumnSplitHelper::Partition] the per-thread
    replicas of the decision and missing bit vectors are reduced into the
    worker-local vectors by bitwise OR; the worker-local decision vector is
    then all-reduced across the workers with bitwise OR and the worker-local
    missing vector with bitwise AND; and the second pass partitions with
    the aggregated bits.  So a decision bit is set in the second pass
    exactly when some thread of this worker or some other worker set it, and
    a missing bit exactly when some thread of this worker set it and every
    other worker contributes it set. *)
Theorem ColumnSplitHelper_Partition_aggregates
    (coll : Collective) (n_threads : nat) (nodes : list ExpandEntry)
    (split_conditions : list Z) (self : CommonRowPartitioner)
    (rows : list (list nat)) (td tm : list Z) :
  let n := length (decision_storage_ (column_split_helper_ self)) in
  length (missing_storage_ (column_split_helper_ self)) = n →
  1 ≤ n_threads →
  all_node_rows (row_set_collection_ self) nodes = Ok rows →
  MaskRows_pass split_conditions rows
    (replicate (n * n_threads) 0%Z) (replicate (n * n_threads) 0%Z) = (td, tm) →
  length td = n * n_threads → length tm = n * n_threads →
  transport_ok coll = true →
  Forall (λ p, length p = n) (peers_decision coll) →
  Forall (λ p, length p = n) (peers_missing coll) →
  ∃ self',
    ColumnSplitHelper_Partition MaskRows_pass PartitionByMask_pass coll
      n_threads nodes split_conditions self = (Ok tt, self')
    ∧ row_set_collection_ self' = row_set_collection_ self
    ∧ let D := decision_storage_ (column_split_helper_ self') in
      let M := missing_storage_ (column_split_helper_ self') in
      partition_builder_ self' = PartitionByMask_pass rows D M
      ∧ length D = n ∧ length M = n
      ∧ (∀ k b, k < n →
           Z.testbit (D !!! k) b = true
           ↔ (∃ t, t < n_threads ∧ Z.testbit (td !!! (n * t + k)) b = true)
             ∨ (∃ p, p ∈ peers_decision coll ∧ Z.testbit (p !!! k) b = true))
      ∧ (∀ k b, k < n →
           Z.testbit (M !!! k) b = true
           ↔ (∃ t, t < n_threads ∧ Z.testbit (tm !!! (n * t + k)) b = true)
             ∧ (∀ p, p ∈ peers_missing coll → Z.testbit (p !!! k) b = true)).
Proof.
  intros n Hmiss Hthr Hrows Hmask Hd Hm Hok Hpd Hpm.
  destruct (reduce_thread_local td tm n n_threads Hthr Hd Hm)
    as (td' & tm' & Hred & Hld & Hlm & Hbd & Hbm).
  assert (n ≤ length td' ∧ n ≤ length tm') as [Hnd Hnm] by (split; nia).
  unfold ColumnSplitHelper_Partition, mbind, stateful_bind, get, lift, modify.
  fold n. rewrite Hrows, Hmask, Hmiss. simpl.
  unfold make_tloc at 1 2.
  rewrite !bool_decide_eq_true_2 by nia. simpl.
  unfold mbind in Hred. rewrite Hred. simpl. unfold copy_n.
  rewrite length_replicate, !decide_True by lia. simpl.
  unfold Allreduce. rewrite Hok. simpl.
  rewrite Nat.mul_0_r, !drop_0.
  eexists. split; [done|]. simpl. split; [done|]. split; [done|].
  assert (length (take n td') = n) as Htd by (rewrite length_take; lia).
  assert (length (take n tm') = n) as Htm by (rewrite length_take; lia).
  split_and!.
  - by apply Allreduce_length.
  - by apply Allreduce_length.
  - intros k b Hk. rewrite (Allreduce_OR_bits _ _ n) by done.
    rewrite lookup_total_take, decide_True by done. by rewrite Hbd.
  - intros k b Hk. rewrite (Allreduce_AND_bits _ _ n) by done.
    rewrite lookup_total_take, decide_True by done. by rewrite Hbm.
Qed.

End ColumnSplitFacts.

(** ** [UpdatePosition] and the row-set collection *)

(** A computation that leaves the row-set collection as it found it,
    whether it completes or faults. *)
Lemma keeps_row_set_bind {A B} (m : stateful CommonRowPartitioner A)
    (k : A → stateful CommonRowPartitioner B) :
  (∀ s, row_set_collection_ (m s).2 = row_set_collection_ s) →
  (∀ a s, row_set_collection_ (k a s).2 = row_set_collection_ s) →
  ∀ s, row_set_collection_ ((m ≫= k) s).2 = row_set_collection_ s.
Proof.
  intros Hm Hk s. unfold mbind, stateful_bind.
  specialize (Hm s). destruct (m s) as [[a|f] s1]; simpl in *; [|done].
  by rewrite Hk.
Qed.

(** Walks through a sequence of steps none of which writes the row-set
    collection. *)
Ltac keeps_row_set :=
  repeat first
    [ apply keeps_row_set_bind; [done|]; intros ? ?
    | match goal with
      | |- context [match ?x with (_, _) => _ end] => is_var x; destruct x
      end ];
  try done.

Section UpdatePositionFacts.
Context {Float : Type} `{!FloatEq Float}.
Variable MaskRows_pass :
  list Z → list (list nat) → list Z → list Z → list Z * list Z.
Variable PartitionByMask_pass :
  list (list nat) → list Z → list Z → Scratch.
Variable Partition_pass : list Z → list (list nat) → Scratch.

Lemma ColumnSplitHelper_Partition_keeps_row_set
    (coll : Collective) (n_threads : nat) (nodes : list ExpandEntry)
    (split_conditions : list Z) (s : CommonRowPartitioner) :
  row_set_collection_
    (ColumnSplitHelper_Partition MaskRows_pass PartitionByMask_pass coll
       n_threads nodes split_conditions s).2
  = row_set_collection_ s.
Proof.
  unfold ColumnSplitHelper_Partition.
  apply keeps_row_set_bind; [done|]. intros self s1.
  apply keeps_row_set_bind; [done|]. intros rows s2.
  destruct (MaskRows_pass _ _ _ _) as [td tm].
  keeps_row_set.
Qed.

(** Steps 1 to 3 of [UpdatePosition] do not touch the row-set
    collection. *)
Lemma UpdatePosition_partition_keeps_row_set
    (coll : Collective) (n_threads : nat) (gmat : MatrixView Float)
    (nodes : list ExpandEntry) (p_tree : RegTree Float)
    (s : CommonRowPartitioner) :
  row_set_collection_
    (UpdatePosition_partition MaskRows_pass PartitionByMask_pass
       Partition_pass coll n_threads gmat nodes p_tree s).2
  = row_set_collection_ s.
Proof.
  unfold UpdatePosition_partition.
  keeps_row_set.
  destruct (is_col_split_ _).
  - apply ColumnSplitHelper_Partition_keeps_row_set.
  - done.
Qed.

(** C8, as amended. The shared row-index buffer is not written before the
    merge step of [UpdatePosition], which comes before [AddSplit]: when the
    operation fails before the merge, that is in [FindSplitConditions], in
    reading the rows of the nodes, in the [base_rowid] check or in the
    partition pass with its collective calls, [UpdatePosition] fails with
    the same fault and the row-set collection is left as it was. *)
Theorem UpdatePosition_failure_before_merge_keeps_row_set
    (coll : Collective) (n_threads : nat) (gmat : MatrixView Float)
    (nodes : list ExpandEntry) (p_tree : RegTree Float)
    (self self' : CommonRowPartitioner) (f : fault) :
  UpdatePosition_partition MaskRows_pass PartitionByMask_pass Partition_pass
    coll n_threads gmat nodes p_tree self = (Fault f, self') →
  UpdatePosition MaskRows_pass PartitionByMask_pass Partition_pass
    coll n_threads gmat nodes p_tree self = (Fault f, self')
  ∧ row_set_collection_ self' = row_set_collection_ self.
Proof.
  intros H. split.
  - unfold UpdatePosition. unfold mbind at 1, stateful_bind. by rewrite H.
  - pose proof (UpdatePosition_partition_keeps_row_set coll n_threads gmat
                  nodes p_tree self) as Hkeep.
    by rewrite H in Hkeep.
Qed.

End UpdatePositionFacts.

(** ** The statements at concrete inputs *)

Example FindSplitConditions_ex :
  FindSplitConditions ex_nodes ex_tree ex_ptrs ex_vals [0%Z] = Ok [2%Z].
Proof. reflexivity. Qed.

Lemma FindSplitConditions_max_equal_cut_witness :
  ∃ sc, FindSplitConditions ex_nodes ex_tree ex_ptrs ex_vals [0%Z] = Ok sc
    ∧ length sc = length ex_nodes
    ∧ ∀ i e lo hi,
        ex_nodes !! i = Some e →
        ex_ptrs !! N.to_nat (SplitIndex ex_tree (nid e)) = Some lo →
        ex_ptrs !! N.to_nat (SplitIndex ex_tree (nid e) + 1) = Some hi →
        ∃ c, sc !! i = Some c
          ∧ is_split_cond ex_vals (SplitCond ex_tree (nid e)) lo hi c.
Proof.
  apply (FindSplitConditions_max_equal_cut ex_nodes ex_tree ex_ptrs ex_vals [0%Z]).
  - reflexivity.
  - repeat constructor. exists 0%N, 3%N. simpl.
    split_and!; [reflexivity..|].
    intros b Hb.
    assert (b = 0 ∨ b = 1 ∨ b = 2)%N as [->|[->| ->]] by lia; by eexists.
Defined.

Lemma SubtractionHist_SubtractionTrick_pairwise_witness :
  (∃ dst', SubtractionHist
             [MkGradientPair 0 0; MkGradientPair 0 0]%Z
             [MkGradientPair 5 7; MkGradientPair 1 1]%Z
             [MkGradientPair 2 3; MkGradientPair 1 0]%Z 2 = Ok dst'
     ∧ length dst' = 2)
  ∧ (∃ self', SubtractionTrick
                [MkGradientPair 0 0]%Z [MkGradientPair 2 3]%Z
                [MkGradientPair 5 7]%Z = Ok self'
       ∧ length self' = 1).
Proof.
  destruct (SubtractionHist_SubtractionTrick_pairwise
              (ValueT := Z) (FPType := Z)) as [Hsub Htrick].
  split.
  - destruct (Hsub [MkGradientPair 0 0; MkGradientPair 0 0]%Z
                [MkGradientPair 5 7; MkGradientPair 1 1]%Z
                [MkGradientPair 2 3; MkGradientPair 1 0]%Z 2)
      as (dst' & Hrun & Hlen & _); [reflexivity..|].
    exists dst'. by split.
  - destruct (Htrick [MkGradientPair 0 0]%Z [MkGradientPair 2 3]%Z
                [MkGradientPair 5 7]%Z)
      as (self' & Hrun & Hlen & _); [reflexivity..|].
    exists self'. by split.
Defined.

Example SubtractionTrick_ex :
  SubtractionTrick [MkGradientPair 0 0]%Z [MkGradientPair 2 3]%Z
    [MkGradientPair 5 7]%Z = Ok [MkGradientPair 3 4]%Z.
Proof. reflexivity. Qed.

Lemma ColumnSplitHelper_Partition_aggregates_witness :
  ∃ self',
    ColumnSplitHelper_Partition ex_MaskRows_pass ex_PartitionByMask_pass
      ex_collective 2 ex_nodes [2%Z] (ex_partitioner true) = (Ok tt, self')
    ∧ decision_storage_ (column_split_helper_ self') = [7%Z]
    ∧ missing_storage_ (column_split_helper_ self') = [1%Z].
Proof.
  destruct (ColumnSplitHelper_Partition_aggregates ex_MaskRows_pass
              ex_PartitionByMask_pass ex_collective 2 ex_nodes [2%Z]
              (ex_partitioner true) [[0; 1]] [1; 2]%Z [3; 1]%Z)
    as (self' & Hrun & _); simpl.
  - reflexivity.
  - lia.
  - reflexivity.
  - reflexivity.
  - reflexivity.
  - reflexivity.
  - reflexivity.
  - by repeat constructor.
  - by repeat constructor.
  - exists self'. split; [exact Hrun|].
    assert (self' = (ColumnSplitHelper_Partition ex_MaskRows_pass
                       ex_PartitionByMask_pass ex_collective 2 ex_nodes
                       [2%Z] (ex_partitioner true)).2) as ->
      by (by rewrite Hrun).
    by vm_compute.
Defined.

(** C8, as the claim words it, fails: with a tree whose children are not
    adjacent [UpdatePosition] fails in the check of [AddSplitsToRowSet],
    before any [AddSplit]; the ranges of the row-set collection are as
    before, but the merge step has already rewritten the shared row-index
    buffer. *)
Lemma UpdatePosition_fails_after_merge :
  ∃ self',
    UpdatePosition ex_MaskRows_pass ex_PartitionByMask_pass ex_Partition_pass
      ex_collective 2 (ex_matrix_view 0) ex_nodes ex_tree_gap
      (ex_partitioner false) = (Fault CheckFailed, self')
    ∧ row_indices_ (row_set_collection_ (ex_partitioner false)) = [0; 1]
    ∧ row_indices_ (row_set_collection_ self') = [1; 0]
    ∧ elem_of_each_node_ (row_set_collection_ self')
      = elem_of_each_node_ (row_set_collection_ (ex_partitioner false))
    ∧ row_set_collection_ self' ≠ row_set_collection_ (ex_partitioner false).
Proof.
  eexists. split; [by vm_compute|].
  split_and!; [done..|]. intros H.
  apply (f_equal row_indices_) in H. discriminate H.
Qed.

Lemma UpdatePosition_failure_before_merge_keeps_row_set_witness :
  ∃ self',
    UpdatePosition ex_MaskRows_pass ex_PartitionByMask_pass ex_Partition_pass
      ex_collective 2 (ex_matrix_view 1) ex_nodes ex_tree
      (ex_partitioner false) = (Fault CheckFailed, self')
    ∧ row_set_collection_ self' = row_set_collection_ (ex_partitioner false).
Proof.
  eexists.
  apply (UpdatePosition_failure_before_merge_keeps_row_set
           ex_MaskRows_pass ex_PartitionByMask_pass ex_Partition_pass
           ex_collective 2 (ex_matrix_view 1) ex_nodes ex_tree
           (ex_partitioner false)).
  by vm_compute.
Defined.

(** ** Sums of gradient pairs under exact arithmetic *)

Section SumFacts.
Context {ValueT FPType : Type} {ops : FPOps ValueT FPType}.
Context {exact : FPExact ops}.
Local Abbreviation GradientPairT := (GradientPairInternal FPType).

Lemma gp_add_comm (x y : GradientPairT) : gp_add x y = gp_add y x.
Proof. unfold gp_add. by rewrite (fp_add_comm (grad_ x)), (fp_add_comm (hess_ x)). Qed.

Lemma gp_add_assoc (x y z : GradientPairT) :
  gp_add x (gp_add y z) = gp_add (gp_add x y) z.
Proof. unfold gp_add. simpl. by rewrite !fp_add_assoc. Qed.

Lemma gp_add_0_l (x : GradientPairT) : gp_add gp_zero x = x.
Proof. destruct x. unfold gp_add, gp_zero. simpl. by rewrite !fp_add_0_l. Qed.

Lemma gp_add_0_r (x : GradientPairT) : gp_add x gp_zero = x.
Proof. by rewrite gp_add_comm, gp_add_0_l. Qed.

Lemma gp_sum_nil {A} (f : A → GradientPairT) : gp_sum [] f = gp_zero.
Proof. done. Qed.

Lemma gp_sum_cons {A} (x : A) (l : list A) (f : A → GradientPairT) :
  gp_sum (x :: l) f = gp_add (f x) (gp_sum l f).
Proof. done. Qed.

Lemma gp_sum_app {A} (l1 l2 : list A) (f : A → GradientPairT) :
  gp_sum (l1 ++ l2) f = gp_add (gp_sum l1 f) (gp_sum l2 f).
Proof.
  induction l1 as [|x l1 IH]; simpl.
  - by rewrite gp_add_0_l.
  - by rewrite IH, gp_add_assoc.
Qed.

Lemma gp_sum_ext {A} (l : list A) (f g : A → GradientPairT) :
  (∀ x, x ∈ l → f x = g x) → gp_sum l f = gp_sum l g.
Proof.
  induction l as [|x l IH]; intros H; simpl; [done|].
  rewrite H by left. rewrite IH; [done|]. intros. apply H. by right.
Qed.

Lemma gp_sum_zero {A} (l : list A) :
  gp_sum l (λ _, gp_zero) = (gp_zero : GradientPairT).
Proof. induction l as [|x l IH]; simpl; [done|]. by rewrite IH, gp_add_0_l. Qed.

Lemma gp_sum_add {A} (l : list A) (f g : A → GradientPairT) :
  gp_sum l (λ x, gp_add (f x) (g x)) = gp_add (gp_sum l f) (gp_sum l g).
Proof.
  induction l as [|x l IH]; simpl.
  - by rewrite gp_add_0_l.
  - rewrite IH, !gp_add_assoc. f_equal.
    rewrite <- !gp_add_assoc. f_equal. apply gp_add_comm.
Qed.

Lemma gp_sum_exchange {A B} (l1 : list A) (l2 : list B)
    (f : A → B → GradientPairT) :
  gp_sum l1 (λ x, gp_sum l2 (f x)) = gp_sum l2 (λ y, gp_sum l1 (λ x, f x y)).
Proof.
  induction l1 as [|x l1 IH]; simpl.
  - by rewrite gp_sum_zero.
  - by rewrite IH, <- gp_sum_add.
Qed.

Lemma gp_sum_if {A} (l : list A) (P : Prop) `{!Decision P}
    (f : A → GradientPairT) :
  gp_sum l (λ x, if decide P then f x else gp_zero)
  = if decide P then gp_sum l f else gp_zero.
Proof. case_decide; [done | apply gp_sum_zero]. Qed.

(** A sum in which only the index [c] counts. *)
Lemma gp_sum_indicator (l : list nat) (c : nat) (f : nat → GradientPairT) :
  NoDup l →
  gp_sum l (λ x, if decide (x = c) then f x else gp_zero)
  = if decide (c ∈ l) then f c else gp_zero.
Proof.
  induction 1 as [|x l Hx Hnd IH].
  - rewrite gp_sum_nil, decide_False; [done | apply not_elem_of_nil].
  - rewrite gp_sum_cons, IH. destruct (decide (x = c)) as [->|Hne].
    + rewrite (decide_False (P := c ∈ l)) by done.
      rewrite decide_True by left. apply gp_add_0_r.
    + rewrite gp_add_0_l. destruct (decide (c ∈ l)) as [Hin|Hnin].
      * rewrite decide_True; [done | by right].
      * rewrite decide_False; [done|].
        intros [->|?]%elem_of_cons; done.
Qed.

Lemma gp_sum_seq_indicator (n c : nat) (f : nat → GradientPairT) :
  gp_sum (seq 0 n) (λ x, if decide (x = c) then f x else gp_zero)
  = if decide (c < n) then f c else gp_zero.
Proof.
  rewrite gp_sum_indicator by apply NoDup_seq.
  destruct (decide (c < n)) as [H|H].
  - rewrite decide_True; [done|]. apply list_elem_of_In, in_seq. lia.
  - rewrite decide_False; [done|]. rewrite list_elem_of_In, in_seq. lia.
Qed.

Lemma gp_sum_seq_shift (a n : nat) (f : nat → GradientPairT) :
  gp_sum (seq a n) f = gp_sum (seq 0 n) (λ i, f (a + i)).
Proof.
  revert a f. induction n as [|n IH]; intros a f; simpl; [done|].
  rewrite Nat.add_0_r, (IH (S a)), (IH 1). f_equal.
  apply gp_sum_ext. intros i _. f_equal. lia.
Qed.

(** Two nested loops over [n] blocks of [m] indices visit [n * m]
    indices. *)
Lemma gp_sum_seq_flatten (n m : nat) (f : nat → GradientPairT) :
  gp_sum (seq 0 n) (λ a, gp_sum (seq 0 m) (λ b, f (a * m + b)))
  = gp_sum (seq 0 (n * m)) f.
Proof.
  induction n as [|n IH]; [done|].
  rewrite seq_S, gp_sum_app. simpl. rewrite IH, gp_add_0_r.
  replace (m + n * m) with (n * m + m) by lia.
  by rewrite seq_app, gp_sum_app, (gp_sum_seq_shift (0 + n * m)).
Qed.

(** Indices at or beyond [size] add nothing. *)
Lemma gp_sum_seq_truncate (n size : nat) (f : nat → GradientPairT) :
  size ≤ n →
  gp_sum (seq 0 n) (λ i, if decide (i < size) then f i else gp_zero)
  = gp_sum (seq 0 size) f.
Proof.
  intros H. replace n with (size + (n - size)) by lia.
  rewrite seq_app, gp_sum_app.
  rewrite (gp_sum_ext (seq 0 size) _ f).
  - rewrite (gp_sum_ext (seq (0 + size) _) _ (λ _, gp_zero)).
    + by rewrite gp_sum_zero, gp_add_0_r.
    + intros i Hi%list_elem_of_In%in_seq. rewrite decide_False; [done|lia].
  - intros i Hi%list_elem_of_In%in_seq. rewrite decide_True; [done|lia].
Qed.

(** A sum over a duplicate-free list of indices below [n] is a sum over
    all indices below [n] in which only the members count. *)
Lemma gp_sum_subset (l : list nat) (n : nat) (f : nat → GradientPairT) :
  NoDup l → (∀ x, x ∈ l → x < n) →
  gp_sum l f
  = gp_sum (seq 0 n) (λ x, if decide (x ∈ l) then f x else gp_zero).
Proof.
  induction 1 as [|a l Ha Hnd IH]; intros Hlt.
  - rewrite gp_sum_nil.
    rewrite (gp_sum_ext _ _ (λ _, gp_zero)); [by rewrite gp_sum_zero|].
    intros x _. rewrite decide_False; [done | apply not_elem_of_nil].
  - rewrite gp_sum_cons, IH by (intros; apply Hlt; by right).
    rewrite <- (decide_True (P := a < n) (f a) gp_zero) at 1
      by (apply Hlt; left).
    rewrite <- gp_sum_seq_indicator, <- gp_sum_add.
    apply gp_sum_ext. intros x _.
    destruct (decide (x = a)) as [->|Hne].
    + rewrite (decide_False (P := a ∈ l)) by done.
      rewrite decide_True by left. apply gp_add_0_r.
    + rewrite gp_add_0_l. destruct (decide (x ∈ l)) as [Hin|Hnin].
      * rewrite decide_True; [done | by right].
      * rewrite decide_False; [done|].
        intros [->|?]%elem_of_cons; done.
Qed.

End SumFacts.

(** ** The strided loop of a lane *)

Lemma stride_from_bounds fuel j step bound x :
  x ∈ stride_from fuel j step bound → j ≤ x < bound.
Proof.
  revert j. induction fuel as [|fuel IH]; intros j; simpl.
  - by intros ?%elem_of_nil.
  - case_decide; [|by intros ?%elem_of_nil].
    intros [->|Hx%IH]%elem_of_cons; lia.
Qed.

(** With a positive step and enough fuel the loop visits the indices
    [j, j + step, j + 2 * step, ...] below [bound]. *)
Lemma elem_of_stride_from fuel j step bound x :
  0 < step → bound ≤ j + fuel →
  x ∈ stride_from fuel j step bound
  ↔ j ≤ x < bound ∧ ∃ c, x = j + c * step.
Proof.
  intros Hstep. revert j. induction fuel as [|fuel IH]; intros j Hfuel; simpl.
  - split; [by intros ?%elem_of_nil | lia].
  - case_decide as Hj.
    + rewrite elem_of_cons, IH by lia. split.
      * intros [->|[Hx [c ->]]].
        -- split; [lia|]. exists 0. lia.
        -- split; [lia|]. exists (S c). lia.
      * intros [Hx [c ->]]. destruct c as [|c]; [left; lia|].
        right. split; [nia|]. exists c. lia.
    + split; [by intros ?%elem_of_nil | lia].
Qed.

Lemma NoDup_stride_from fuel j step bound :
  0 < step → NoDup (stride_from fuel j step bound).
Proof.
  intros Hstep. revert j. induction fuel as [|fuel IH]; intros j; simpl.
  - constructor.
  - case_decide; [|constructor]. constructor; [|apply IH].
    intros Hin%stride_from_bounds. lia.
Qed.

(** The lane [feat] of a work-group of [step] lanes visits the columns
    that are congruent to [feat]. *)
Lemma elem_of_strided feat bound step x :
  feat < step →
  x ∈ strided feat bound step ↔ x < bound ∧ x mod step = feat.
Proof.
  intros Hfeat. unfold strided. rewrite elem_of_stride_from by lia. split.
  - intros [Hx [c ->]]. split; [lia|].
    rewrite Nat.Div0.mod_add. by apply Nat.mod_small.
  - intros [Hx Hmod]. pose proof (Nat.div_mod_eq x step) as Hdiv.
    split; [lia|]. exists (x / step). lia.
Qed.

Section StridedSum.
Context {ValueT FPType : Type} {ops : FPOps ValueT FPType}.
Context {exact : FPExact ops}.
Local Abbreviation GradientPairT := (GradientPairInternal FPType).

(** The lanes of a work-group share the columns among them. *)
Lemma gp_sum_strided (n step : nat) (f : nat → GradientPairT) :
  0 < step →
  gp_sum (seq 0 step) (λ feat, gp_sum (strided feat n step) f)
  = gp_sum (seq 0 n) f.
Proof.
  intros Hstep.
  rewrite (gp_sum_ext _ _
    (λ feat, gp_sum (seq 0 n)
               (λ j, if decide (feat = j mod step) then f j else gp_zero))).
  - rewrite gp_sum_exchange. apply gp_sum_ext. intros j _.
    rewrite (gp_sum_seq_indicator step (j mod step) (λ _, f j)).
    rewrite decide_True; [done|]. apply Nat.mod_upper_bound. lia.
  - intros feat Hfeat%list_elem_of_In%in_seq.
    rewrite (gp_sum_subset _ n).
    + apply gp_sum_ext. intros j Hj%list_elem_of_In%in_seq.
      destruct (decide (feat = j mod step)) as [Heq|Hne].
      * rewrite decide_True; [done|]. apply elem_of_strided; lia.
      * rewrite decide_False; [done|]. rewrite elem_of_strided by lia. lia.
    + apply NoDup_stride_from. lia.
    + intros x Hx%stride_from_bounds. lia.
Qed.

End StridedSum.

(** ** Arrays that a loop adds to *)

Section AddFunFacts.
Context {ValueT FPType : Type} {ops : FPOps ValueT FPType}.
Context {exact : FPExact ops}.
Local Abbreviation GradientPairT := (GradientPairInternal FPType).

Lemma length_add_fun (a : list GradientPairT) F : length (add_fun a F) = length a.
Proof. apply length_imap. Qed.

Lemma lookup_add_fun (a : list GradientPairT) F b :
  add_fun a F !! b = (λ x, gp_add x (F b)) <$> a !! b.
Proof. apply list_lookup_imap. Qed.

Lemma add_fun_ext (a : list GradientPairT) F G :
  (∀ b, b < length a → F b = G b) → add_fun a F = add_fun a G.
Proof.
  intros H. apply list_eq. intros b. rewrite !lookup_add_fun.
  destruct (a !! b) eqn:Hb; simpl; [|done].
  rewrite H; [done|]. by eapply lookup_lt_Some.
Qed.

Lemma add_fun_zero (a : list GradientPairT) : add_fun a (λ _, gp_zero) = a.
Proof.
  apply list_eq. intros b. rewrite lookup_add_fun.
  destruct (a !! b); simpl; [|done]. by rewrite gp_add_0_r.
Qed.

Lemma add_fun_add_fun (a : list GradientPairT) F G :
  add_fun (add_fun a F) G = add_fun a (λ b, gp_add (F b) (G b)).
Proof.
  apply list_eq. intros b. rewrite !lookup_add_fun.
  destruct (a !! b); simpl; [|done]. by rewrite gp_add_assoc.
Qed.

(** [a[i] += v] adds [v] at [i] and nothing elsewhere. *)
Lemma accumulate_add_fun (a : list GradientPairT) i v :
  i < length a →
  accumulate a i v
  = Ok (add_fun a (λ b, if decide (b = i) then v else gp_zero)).
Proof.
  intros Hi. unfold accumulate.
  destruct (lookup_lt_is_Some_2 a i Hi) as [x Hx]. rewrite Hx. f_equal.
  apply list_eq. intros b. rewrite lookup_add_fun.
  destruct (decide (b = i)) as [->|Hne].
  - rewrite list_lookup_insert_eq by done. by rewrite Hx.
  - rewrite list_lookup_insert_ne by done.
    destruct (a !! b); simpl; [|done]. by rewrite gp_add_0_r.
Qed.

(** A loop whose iterations add to the array adds the sum of what they
    add. *)
Lemma for_each_add_fun {A} (l : list A)
    (body : A → list GradientPairT → res (list GradientPairT))
    (F : A → nat → GradientPairT) (L : nat) (a : list GradientPairT) :
  (∀ x a, x ∈ l → length a = L → body x a = Ok (add_fun a (F x))) →
  length a = L →
  for_each l body a = Ok (add_fun a (λ b, gp_sum l (λ x, F x b))).
Proof.
  revert a. induction l as [|x l IH]; intros a Hbody Ha; simpl.
  - by rewrite add_fun_zero.
  - rewrite Hbody by (done || left). simpl.
    rewrite IH.
    + by rewrite add_fun_add_fun.
    + intros y a' Hy. apply Hbody. by right.
    + by rewrite length_add_fun.
Qed.

Lemma for_range_add_fun (n : nat)
    (body : nat → list GradientPairT → res (list GradientPairT))
    (F : nat → nat → GradientPairT) (L : nat) (a : list GradientPairT) :
  (∀ i a, i < n → length a = L → body i a = Ok (add_fun a (F i))) →
  length a = L →
  for_range n body a = Ok (add_fun a (λ b, gp_sum (seq 0 n) (λ i, F i b))).
Proof.
  intros Hbody Ha. apply (for_each_add_fun _ _ _ L); [|done].
  intros i a' Hi%list_elem_of_In%in_seq. apply Hbody. lia.
Qed.

End AddFunFacts.

(** ** Filling an array *)

Lemma insert_prefix {A} (a : list A) (m : nat) (v : A) :
  m < length a →
  <[m:=v]> (replicate m v ++ drop m a) = replicate (S m) v ++ drop (S m) a.
Proof.
  intros Hm. apply list_eq. intros i.
  destruct (decide (i = m)) as [->|Hne].
  - rewrite list_lookup_insert_eq
      by (rewrite length_app, length_replicate, length_drop; lia).
    rewrite lookup_app_l by (rewrite length_replicate; lia).
    by rewrite lookup_replicate_2 by lia.
  - rewrite list_lookup_insert_ne by done.
    destruct (decide (i < m)) as [Hlt|Hge].
    + rewrite !lookup_app_l by (rewrite length_replicate; lia).
      by rewrite !lookup_replicate_2 by lia.
    + rewrite !lookup_app_r by (rewrite length_replicate; lia).
      rewrite !length_replicate, !lookup_drop. f_equal. lia.
Qed.

Lemma fill_spec {A} (a : list A) (v : A) (n : nat) :
  n ≤ length a → fill a v n = Ok (replicate n v ++ drop n a).
Proof.
  intros Hn. unfold fill.
  destruct (for_range_inv (λ m a', a' = replicate m v ++ drop m a) n
              (λ i a, write a i v) a) as (a' & Hrun & ->); [done| |done].
  intros i a' Hi ->.
  rewrite write_lt by (rewrite length_app, length_replicate, length_drop; lia).
  eexists. split; [done|]. apply insert_prefix. lia.
Qed.

Section FillFlat.
Context {ValueT FPType : Type} {ops : FPOps ValueT FPType}.
Local Abbreviation GradientPairT := (GradientPairInternal FPType).

(** Filling [2 * n] fields with zero through the flat view zeroes [n]
    pairs. *)
Lemma fill_flat_spec (a : list GradientPairT) (n : nat) :
  n ≤ length a →
  fill_flat a fp_zero (n * 2) = Ok (replicate n gp_zero ++ drop n a).
Proof.
  intros Hn. unfold fill_flat. rewrite Nat.mul_comm, for_range_double.
  destruct (for_range_inv (λ m a', a' = replicate m gp_zero ++ drop m a) n
              (λ i a, a' ← flat_write a (2 * i) fp_zero;
                      flat_write a' (2 * i + 1) fp_zero) a)
    as (a' & Hrun & ->); [done| |done].
  intros i a' Hi ->.
  destruct (lookup_lt_is_Some_2 (replicate i gp_zero ++ drop i a) i) as [p Hp].
  { rewrite length_app, length_replicate, length_drop. lia. }
  rewrite (flat_write_pair _ i p) by done.
  eexists. split; [done|]. apply insert_prefix. lia.
Qed.

End FillFlat.

(** ** The cells of a node *)

Section CellFacts.
Context {ValueT FPType : Type} {ops : FPOps ValueT FPType}.
Local Abbreviation GradientPair := (GradientPairInternal ValueT).
Local Abbreviation GradientPairT := (GradientPairInternal FPType).
Variable T : BinIdxType.
Variable isDense : bool.
Variable gmat : GHistIndexMatrix.
Variable pgh : list GradientPair.
Variable rid : list nat.

Lemma cell_bin_lt i j b : cell_bin T isDense gmat rid i j = Some b → b < nbins gmat.
Proof.
  unfold cell_bin. destruct (_ ≫= _) as [k|]; [|done].
  case_decide; [|done]. by intros [= <-].
Qed.

Lemma contrib_Some i j c b :
  cell_bin T isDense gmat rid i j = Some c →
  contrib T isDense gmat pgh rid b i j
  = if decide (b = c) then row_pair pgh rid i else gp_zero.
Proof.
  intros H. unfold contrib. rewrite H.
  destruct (decide (b = c)) as [->|Hne].
  - by rewrite decide_True.
  - rewrite decide_False; [done|]. by intros [= ->].
Qed.

Lemma contrib_None i j b :
  cell_bin T isDense gmat rid i j = None →
  contrib T isDense gmat pgh rid b i j = gp_zero.
Proof. intros H. unfold contrib. by rewrite H, decide_False. Qed.

Lemma contrib_out_of_range i j b :
  nbins gmat ≤ b → contrib T isDense gmat pgh rid b i j = gp_zero.
Proof.
  intros Hb. unfold contrib. rewrite decide_False; [done|].
  intros H%cell_bin_lt. lia.
Qed.

(** What the reads of row [i] return when the input is in range. *)
Lemma input_ok_row i :
  input_ok T isDense gmat pgh rid → i < length rid →
  ∃ r g, rid !! i = Some r ∧ pgh !! r = Some g
    ∧ row_pair pgh rid i
      = MkGradientPair (fp_of_value (grad_ g)) (fp_of_value (hess_ g))
    ∧ ∀ j, j < num_columns isDense gmat →
        ∃ k, load_bin T isDense gmat (num_columns isDense gmat * r) j = Ok k
          ∧ cell_bin T isDense gmat rid i j
            = if decide (N.to_nat k < nbins gmat) then Some (N.to_nat k)
              else None.
Proof.
  intros Hok Hi. destruct (Hok i Hi) as (r & g & Hr & Hg & Hbins).
  exists r, g. split_and!; [done..| |].
  - unfold row_pair. by rewrite (read_Some _ _ _ Hr), bind_Ok, (read_Some _ _ _ Hg).
  - intros j Hj. destruct (Hbins j Hj) as [k Hk]. exists k. split; [done|].
    unfold cell_bin. by rewrite (read_Some _ _ _ Hr), bind_Ok, Hk.
Qed.

End CellFacts.

(** ** The scalar indices of the atomic kernel *)

Lemma mul32_2 (k : N) : mul32 2 k = (2 * (k mod 2147483648))%N.
Proof.
  unfold mul32, two32. change 4294967296%N with (2 * 2147483648)%N.
  by rewrite N.Div0.mul_mod_distr_l.
Qed.

Lemma atomic_index_even (k : N) :
  N.to_nat (mul32 2 k) = 2 * N.to_nat (k mod 2147483648).
Proof. rewrite mul32_2. lia. Qed.

Lemma atomic_index_odd (k : N) :
  N.to_nat (add32 (mul32 2 k) 1) = 2 * N.to_nat (k mod 2147483648) + 1.
Proof.
  rewrite mul32_2. unfold add32, two32.
  pose proof (N.mod_upper_bound k 2147483648 ltac:(done)).
  rewrite N.mod_small by lia. lia.
Qed.

Lemma atomic_slot_eq (c : nat) :
  atomic_slot c = N.to_nat (N.of_nat c mod 2147483648).
Proof. unfold atomic_slot. by rewrite atomic_index_even, half_even. Qed.

Lemma atomic_slot_le (c : nat) : atomic_slot c ≤ c.
Proof.
  rewrite atomic_slot_eq.
  pose proof (N.Div0.mod_le (N.of_nat c) 2147483648). lia.
Qed.

Lemma atomic_slot_small (c : nat) :
  (N.of_nat c < 2147483648)%N → atomic_slot c = c.
Proof. intros H. rewrite atomic_slot_eq, N.mod_small by done. lia. Qed.

(** ** Variant C computes the histogram of the spec *)

Section AtomicFacts.
Context {ValueT FPType : Type} {ops : FPOps ValueT FPType}.
Context {exact : FPExact ops}.
Local Abbreviation GradientPair := (GradientPairInternal ValueT).
Local Abbreviation GradientPairT := (GradientPairInternal FPType).
Variable T : BinIdxType.
Variable isDense : bool.
Variable gmat : GHistIndexMatrix.
Variable pgh : list GradientPair.
Variable rid : list nat.
Hypothesis Hok : input_ok T isDense gmat pgh rid.

Lemma read_int_small {A} (a : list A) (gid : nat) :
  (N.of_nat gid ≤ int32_max)%N → read_int a gid = read a gid.
Proof.
  intros H. unfold read_int. rewrite to_int32_small by done.
  destruct (Z.ltb_spec (Z.of_N (N.of_nat gid)) 0); [lia|].
  f_equal. lia.
Qed.

Lemma hist_spec_out_of_range b :
  nbins gmat ≤ b → hist_spec T isDense gmat pgh rid b = gp_zero.
Proof.
  intros Hb. unfold hist_spec.
  rewrite (gp_sum_ext _ _ (λ _, gp_zero)); [apply gp_sum_zero|].
  intros i _. rewrite (gp_sum_ext _ _ (λ _, gp_zero)); [apply gp_sum_zero|].
  intros j _. by apply contrib_out_of_range.
Qed.

(** Adding to a zero-filled histogram what is added to each of its bins
    gives the bins. *)
Lemma add_fun_zero_filled (F : nat → GradientPairT)
    (hist : list GradientPairT) :
  nbins gmat ≤ length hist → (∀ b, nbins gmat ≤ b → F b = gp_zero) →
  add_fun (replicate (nbins gmat) gp_zero ++ drop (nbins gmat) hist) F
  = map F (seq 0 (nbins gmat)) ++ drop (nbins gmat) hist.
Proof.
  intros Hlen HF. apply list_eq. intros b.
  rewrite lookup_add_fun. destruct (decide (b < nbins gmat)) as [Hb|Hb].
  - rewrite !lookup_app_l
      by (rewrite ?length_replicate, ?length_map, ?length_seq; lia).
    rewrite lookup_replicate_2 by done. simpl.
    rewrite gp_add_0_l, list_lookup_fmap, lookup_seq_lt by done. done.
  - rewrite !lookup_app_r
      by (rewrite ?length_replicate, ?length_map, ?length_seq; lia).
    rewrite length_replicate, length_map, length_seq.
    rewrite HF by lia.
    destruct (drop _ _ !! _); simpl; [|done]. by rewrite gp_add_0_r.
Qed.

(** Adding the bins of the spec to a zero-filled histogram gives the
    result of the build. *)
Lemma add_fun_hist_spec (hist : list GradientPairT) :
  nbins gmat ≤ length hist →
  add_fun (replicate (nbins gmat) gp_zero ++ drop (nbins gmat) hist)
    (hist_spec T isDense gmat pgh rid)
  = hist_result T isDense gmat pgh rid hist.
Proof.
  intros Hlen. apply add_fun_zero_filled; [done|].
  apply hist_spec_out_of_range.
Qed.

Lemma atomic_contrib_out_of_range i j b :
  nbins gmat ≤ b → atomic_contrib T isDense gmat pgh rid b i j = gp_zero.
Proof.
  intros Hb. unfold atomic_contrib.
  destruct (cell_bin T isDense gmat rid i j) as [c|] eqn:Hc; [|done].
  rewrite decide_False; [done|].
  apply cell_bin_lt in Hc. pose proof (atomic_slot_le c). lia.
Qed.

Lemma atomic_hist_spec_out_of_range b :
  nbins gmat ≤ b → atomic_hist_spec T isDense gmat pgh rid b = gp_zero.
Proof.
  intros Hb. unfold atomic_hist_spec.
  rewrite (gp_sum_ext _ _ (λ _, gp_zero)); [apply gp_sum_zero|].
  intros i _. rewrite (gp_sum_ext _ _ (λ _, gp_zero)); [apply gp_sum_zero|].
  intros j _. by apply atomic_contrib_out_of_range.
Qed.

(** As long as the bins are counted in 31 bits the scalar indices do not
    wrap, and the atomic kernel accumulates a cell in the pair of its
    bin. *)
Lemma atomic_contrib_small b i j :
  (N.of_nat (nbins gmat) ≤ int32_max + 1)%N →
  atomic_contrib T isDense gmat pgh rid b i j
  = contrib T isDense gmat pgh rid b i j.
Proof.
  intros Hnb. unfold atomic_contrib.
  destruct (cell_bin T isDense gmat rid i j) as [c|] eqn:Hc.
  - rewrite (contrib_Some _ _ _ _ _ _ _ c b Hc).
    apply cell_bin_lt in Hc.
    rewrite atomic_slot_small; [done|]. unfold int32_max in Hnb. lia.
  - by rewrite contrib_None.
Qed.

Lemma atomic_hist_result_small (hist : list GradientPairT) :
  (N.of_nat (nbins gmat) ≤ int32_max + 1)%N →
  atomic_hist_result T isDense gmat pgh rid hist
  = hist_result T isDense gmat pgh rid hist.
Proof.
  intros Hnb. unfold atomic_hist_result, hist_result. f_equal.
  apply map_ext. intros b. unfold atomic_hist_spec, hist_spec.
  apply gp_sum_ext. intros i _. apply gp_sum_ext. intros j _.
  by apply atomic_contrib_small.
Qed.

(** From row [2^31] on the [int] is negative. *)
Lemma read_int_negative {A} (a : list A) (gid : nat) :
  (int32_max < N.of_nat gid)%N → (N.of_nat gid < two32)%N →
  read_int a gid = Fault BadRead.
Proof.
  unfold read_int, to_int32, int32_max, two32. intros Hlo Hhi.
  rewrite Z.mod_small by lia.
  change (Z.of_N 4294967296 / 2)%Z with 2147483648%Z.
  destruct (Z.ltb_spec (Z.of_N (N.of_nat gid)) 2147483648) as [|_]; [lia|].
  by destruct (Z.ltb_spec (Z.of_N (N.of_nat gid) - Z.of_N 4294967296) 0)
    as [_|]; [|lia].
Qed.

(** One work-item of the atomic kernel adds what its cell contributes. *)
Lemma BuildHistKernel_atomic_item_spec
    (work_group_size i group_id local_id : nat) (hist : list GradientPairT) :
  i < length rid → (N.of_nat i ≤ int32_max)%N →
  nbins gmat ≤ length hist →
  BuildHistKernel_atomic_item T isDense gmat pgh rid
    (num_columns isDense gmat) (nbins gmat) work_group_size
    i group_id local_id hist
  = Ok (add_fun hist
          (λ b, let j := group_id * work_group_size + local_id in
                if decide (j < num_columns isDense gmat)
                then atomic_contrib T isDense gmat pgh rid b i j
                else gp_zero)).
Proof.
  intros Hi Hsize Hlen. unfold BuildHistKernel_atomic_item.
  destruct (input_ok_row T isDense gmat pgh rid i Hok Hi)
    as (r & g & Hr & Hg & Hpair & Hbins).
  rewrite read_int_small by done. rewrite (read_Some _ _ _ Hr), bind_Ok.
  cbv zeta.
  destruct (flat_read_pair pgh r g Hg) as [-> ->]. rewrite !bind_Ok.
  cbn [fst snd]. case_decide as Hj.
  - destruct (Hbins _ Hj) as (k & -> & Hcell). rewrite bind_Ok.
    case_decide as Hk.
    + rewrite atomic_index_even, atomic_index_odd, atomic_add_pair.
      pose proof (atomic_slot_le (N.to_nat k)) as Hslot.
      rewrite atomic_slot_eq, N2Nat.id in Hslot.
      rewrite accumulate_add_fun by lia. f_equal.
      apply add_fun_ext. intros b _.
      unfold atomic_contrib. rewrite Hcell, atomic_slot_eq, N2Nat.id.
      by rewrite Hpair.
    + rewrite <- (add_fun_zero hist) at 1. f_equal.
      apply add_fun_ext. intros b _. unfold atomic_contrib. by rewrite Hcell.
  - by rewrite add_fun_zero.
Qed.

(** The number of work-groups covers the columns. *)
Lemma n_work_groups_cover (n_columns work_group_size : nat) :
  0 < work_group_size →
  n_columns
  ≤ (n_columns / work_group_size
     + (if decide (0 < n_columns mod work_group_size) then 1 else 0))
    * work_group_size.
Proof.
  intros Hw. pose proof (Nat.div_mod_eq n_columns work_group_size) as Hdiv.
  pose proof (Nat.mod_upper_bound n_columns work_group_size) as Hmod.
  case_decide; nia.
Qed.

(** The atomic kernel, for any number of bins. *)
Lemma BuildHistKernel_atomic_wrapped_spec (hist : list GradientPairT)
    (dispatcher : HistDispatcher) :
  0 < work_group_size dispatcher →
  (N.of_nat (length rid) ≤ int32_max + 1)%N →
  nbins gmat ≤ length hist →
  BuildHistKernel_atomic T isDense pgh rid gmat hist dispatcher
  = Ok (atomic_hist_result T isDense gmat pgh rid hist).
Proof.
  intros Hw Hsize Hlen. unfold BuildHistKernel_atomic. cbv zeta.
  rewrite (decide_False (P := work_group_size dispatcher = 0)) by lia.
  rewrite bind_Ok.
  rewrite fill_flat_spec by done. rewrite bind_Ok.
  set (wgs := work_group_size dispatcher) in *.
  set (n_columns := num_columns isDense gmat).
  set (nwg := n_columns / wgs + (if decide (0 < n_columns mod wgs) then 1 else 0)).
  set (hist0 := replicate (nbins gmat) gp_zero ++ drop (nbins gmat) hist).
  assert (length hist0 = length hist) as Hlen0.
  { unfold hist0. rewrite length_app, length_replicate, length_drop. lia. }
  unfold parallel_for2.
  rewrite (for_range_add_fun (length rid) _
    (λ i b, gp_sum (seq 0 nwg) (λ group_id,
              gp_sum (seq 0 wgs) (λ local_id,
                let j := group_id * wgs + local_id in
                if decide (j < n_columns)
                then atomic_contrib T isDense gmat pgh rid b i j
                else gp_zero)))
    (length hist)); [|clear hist0 Hlen0|done].
  - unfold atomic_hist_result.
    rewrite <- (add_fun_zero_filled (atomic_hist_spec T isDense gmat pgh rid))
      by (done || apply atomic_hist_spec_out_of_range).
    f_equal. fold hist0.
    apply add_fun_ext. intros b _. unfold atomic_hist_spec.
    apply gp_sum_ext. intros i _. cbv zeta.
    pose proof (gp_sum_seq_flatten nwg wgs
      (λ j, if decide (j < n_columns)
            then atomic_contrib T isDense gmat pgh rid b i j
            else gp_zero)) as Hflat.
    cbv beta in Hflat. rewrite Hflat.
    apply gp_sum_seq_truncate. by apply n_work_groups_cover.
  - intros i a Hi Ha.
    apply (for_range_add_fun nwg _
      (λ group_id b, gp_sum (seq 0 wgs) (λ local_id,
                let j := group_id * wgs + local_id in
                if decide (j < n_columns)
                then atomic_contrib T isDense gmat pgh rid b i j
                else gp_zero))
      (length hist)); [|done].
    intros group_id a' _ Ha'.
    apply (for_range_add_fun wgs _
      (λ local_id b,
                let j := group_id * wgs + local_id in
                if decide (j < n_columns)
                then atomic_contrib T isDense gmat pgh rid b i j
                else gp_zero)
      (length hist)); [|done].
    intros local_id a'' _ Ha''.
    apply BuildHistKernel_atomic_item_spec; [done | lia | lia].
Qed.

(** The work-items of the rows below [2^31] complete, however many rows
    the node has. *)
Lemma BuildHistKernel_atomic_rows_below
    (work_group_size n_work_groups m : nat) (hist : list GradientPairT) :
  m ≤ length rid → (N.of_nat m ≤ int32_max + 1)%N →
  nbins gmat ≤ length hist →
  is_Ok (for_range m
           (λ gid, for_range n_work_groups
              (λ group_id, for_range work_group_size
                 (BuildHistKernel_atomic_item T isDense gmat pgh rid
                    (num_columns isDense gmat) (nbins gmat) work_group_size
                    gid group_id)))
           hist).
Proof.
  intros Hm Hsize Hlen.
  set (F := λ i group_id local_id b,
              let j := group_id * work_group_size + local_id in
              if decide (j < num_columns isDense gmat)
              then atomic_contrib T isDense gmat pgh rid b i j
              else gp_zero).
  rewrite (for_range_add_fun m _
    (λ i b, gp_sum (seq 0 n_work_groups) (λ group_id,
              gp_sum (seq 0 work_group_size) (λ local_id,
                F i group_id local_id b)))
    (length hist)); [by eexists| |done].
  intros i a Hi Ha.
  apply (for_range_add_fun n_work_groups _
    (λ group_id b, gp_sum (seq 0 work_group_size) (λ local_id,
                     F i group_id local_id b))
    (length hist)); [|done].
  intros group_id a' _ Ha'.
  apply (for_range_add_fun work_group_size _
    (λ local_id b, F i group_id local_id b) (length hist)); [|done].
  intros local_id a'' _ Ha''.
  apply BuildHistKernel_atomic_item_spec; [lia | lia | lia].
Qed.

(** With at most [2^31] bins the atomic kernel builds the histogram of the
    spec. *)
Lemma BuildHistKernel_atomic_spec (hist : list GradientPairT)
    (dispatcher : HistDispatcher) :
  0 < work_group_size dispatcher →
  (N.of_nat (length rid) ≤ int32_max + 1)%N →
  (N.of_nat (nbins gmat) ≤ int32_max + 1)%N →
  nbins gmat ≤ length hist →
  BuildHistKernel_atomic T isDense pgh rid gmat hist dispatcher
  = Ok (hist_result T isDense gmat pgh rid hist).
Proof.
  intros Hw Hsize Hnb Hlen.
  rewrite BuildHistKernel_atomic_wrapped_spec by done.
  by rewrite atomic_hist_result_small.
Qed.

End AtomicFacts.

(** ** Conservation *)

#[global] Instance Z_FPExact : FPExact Z_FPOps.
Proof. split; simpl; intros; lia. Qed.

Section Conservation.
Context {ValueT FPType : Type} {ops : FPOps ValueT FPType}.
Context {exact : FPExact ops}.
Local Abbreviation GradientPair := (GradientPairInternal ValueT).
Local Abbreviation GradientPairT := (GradientPairInternal FPType).

Lemma gp_sum_map {A} (l : list A) (f : A → GradientPairT) :
  gp_sum (map f l) (λ x, x) = gp_sum l f.
Proof. induction l as [|x l IH]; simpl; [done|]. by rewrite IH. Qed.

(** Over all bins a cell adds its pair once when it falls in a bin of the
    histogram, and nothing otherwise. *)
Lemma contrib_sum_bins T isDense gmat (pgh : list GradientPair) rid i j :
  gp_sum (seq 0 (nbins gmat)) (λ b, contrib T isDense gmat pgh rid b i j)
  = cell_pair T isDense gmat pgh rid i j.
Proof.
  unfold cell_pair.
  destruct (cell_bin T isDense gmat rid i j) as [c|] eqn:Hc.
  - rewrite decide_True by done.
    rewrite (gp_sum_ext _ _
      (λ b, if decide (b = c) then (λ _, row_pair pgh rid i) b else gp_zero))
      by (intros; by apply contrib_Some).
    rewrite gp_sum_seq_indicator, decide_True; [done|].
    by eapply cell_bin_lt.
  - rewrite decide_False by (by intros [? ?]).
    rewrite (gp_sum_ext _ _ (λ _, gp_zero)); [apply gp_sum_zero|].
    intros b _. by apply contrib_None.
Qed.

Lemma hist_spec_sum_bins T isDense gmat (pgh : list GradientPair) rid :
  gp_sum (seq 0 (nbins gmat)) (hist_spec T isDense gmat pgh rid)
  = gp_sum (seq 0 (length rid))
      (λ i, gp_sum (seq 0 (num_columns isDense gmat))
              (λ j, cell_pair T isDense gmat pgh rid i j)).
Proof.
  unfold hist_spec. rewrite gp_sum_exchange.
  apply gp_sum_ext. intros i _. rewrite gp_sum_exchange.
  apply gp_sum_ext. intros j _. apply contrib_sum_bins.
Qed.

Lemma atomic_contrib_sum_bins T isDense gmat (pgh : list GradientPair)
    rid i j :
  gp_sum (seq 0 (nbins gmat))
    (λ b, atomic_contrib T isDense gmat pgh rid b i j)
  = cell_pair T isDense gmat pgh rid i j.
Proof.
  unfold cell_pair, atomic_contrib.
  destruct (cell_bin T isDense gmat rid i j) as [c|] eqn:Hc.
  - rewrite decide_True by done.
    pose proof (gp_sum_seq_indicator (nbins gmat) (atomic_slot c)
                  (λ _, row_pair pgh rid i)) as Hind.
    cbv beta in Hind. rewrite Hind, decide_True; [done|].
    apply cell_bin_lt in Hc. pose proof (atomic_slot_le c). lia.
  - rewrite decide_False by (by intros [? ?]). apply gp_sum_zero.
Qed.

Lemma atomic_hist_spec_sum_bins T isDense gmat (pgh : list GradientPair) rid :
  gp_sum (seq 0 (nbins gmat)) (atomic_hist_spec T isDense gmat pgh rid)
  = gp_sum (seq 0 (length rid))
      (λ i, gp_sum (seq 0 (num_columns isDense gmat))
              (λ j, cell_pair T isDense gmat pgh rid i j)).
Proof.
  unfold atomic_hist_spec. rewrite gp_sum_exchange.
  apply gp_sum_ext. intros i _. rewrite gp_sum_exchange.
  apply gp_sum_ext. intros j _. apply atomic_contrib_sum_bins.
Qed.

(** C1, as amended. The histogram built by the atomic kernel sums, over
    all bins, to the sum over the rows of the node of the row's pair taken
    once for every cell of the row that falls in a bin of the histogram
    (arithmetic being exact): a row counts once per such cell, not once. *)
Theorem BuildHistKernel_atomic_conservation
    (T : BinIdxType) (isDense : bool) (gpair : list GradientPair)
    (row_indices : list nat) (gmat : GHistIndexMatrix)
    (hist : list GradientPairT) (dispatcher : HistDispatcher) :
  input_ok T isDense gmat gpair row_indices →
  0 < work_group_size dispatcher →
  (N.of_nat (length row_indices) ≤ int32_max + 1)%N →
  nbins gmat ≤ length hist →
  ∃ h, BuildHistKernel_atomic T isDense gpair row_indices gmat hist dispatcher
       = Ok h
    ∧ gp_sum (take (nbins gmat) h) (λ x, x)
      = gp_sum (seq 0 (length row_indices))
          (λ i, gp_sum (seq 0 (num_columns isDense gmat))
                  (λ j, cell_pair T isDense gmat gpair row_indices i j)).
Proof.
  intros Hok Hw Hsize Hlen. eexists. split.
  - by apply BuildHistKernel_atomic_wrapped_spec.
  - unfold atomic_hist_result.
    rewrite take_app_length' by (by rewrite length_map, length_seq).
    rewrite gp_sum_map. apply atomic_hist_spec_sum_bins.
Qed.

End Conservation.

(** C1, as the claim words it, fails: for one dense row with two features
    the bins sum to twice the pair of the row. *)
Lemma BuildHistKernel_atomic_counts_row_per_feature :
  ∃ h, BuildHistKernel_atomic uint8_t true ex_gpair ex_rows ex_gmat ex_hist
         (ex_dispatcher false true) = Ok h
    ∧ gp_sum (take (nbins ex_gmat) h) (λ x, x) = (MkGradientPair 2 2)%Z
    ∧ gp_sum (seq 0 (length ex_rows)) (row_pair ex_gpair ex_rows)
      = (MkGradientPair 1 1)%Z
    ∧ gp_sum (take (nbins ex_gmat) h) (λ x, x)
      ≠ gp_sum (seq 0 (length ex_rows)) (row_pair ex_gpair ex_rows).
Proof. eexists. split; [by vm_compute|]. by split_and!. Qed.

Lemma ex_input_ok : input_ok uint8_t true ex_gmat ex_gpair ex_rows.
Proof.
  intros i Hi. assert (i = 0) as -> by (simpl in Hi; lia).
  exists 0, (MkGradientPair 1 1)%Z. split_and!; [done..|].
  intros j Hj.
  assert (j = 0 ∨ j = 1) as [-> | ->] by (simpl in Hj; lia); by eexists.
Defined.

Lemma BuildHistKernel_atomic_conservation_witness :
  ∃ h, BuildHistKernel_atomic uint8_t true ex_gpair ex_rows ex_gmat ex_hist
         (ex_dispatcher false true) = Ok h
    ∧ gp_sum (take (nbins ex_gmat) h) (λ x, x)
      = gp_sum (seq 0 (length ex_rows))
          (λ i, gp_sum (seq 0 (num_columns true ex_gmat))
                  (λ j, cell_pair uint8_t true ex_gmat ex_gpair ex_rows i j)).
Proof.
  apply (BuildHistKernel_atomic_conservation uint8_t true ex_gpair ex_rows
           ex_gmat ex_hist (ex_dispatcher false true)).
  - exact ex_input_ok.
  - simpl. lia.
  - by vm_compute.
  - simpl. lia.
Defined.

(** ** The reduction of the block slices *)

Lemma insert_prefix_map {A} (a : list A) (m : nat) (W : nat → A) :
  m < length a →
  <[m:=W m]> (map W (seq 0 m) ++ drop m a)
  = map W (seq 0 (S m)) ++ drop (S m) a.
Proof.
  intros Hm. apply list_eq. intros i.
  destruct (decide (i = m)) as [->|Hne].
  - rewrite list_lookup_insert_eq
      by (rewrite length_app, length_map, length_seq, length_drop; lia).
    rewrite lookup_app_l by (rewrite length_map, length_seq; lia).
    by rewrite list_lookup_fmap, lookup_seq_lt by lia.
  - rewrite list_lookup_insert_ne by done.
    destruct (decide (i < m)) as [Hlt|Hge].
    + rewrite !lookup_app_l by (rewrite length_map, length_seq; lia).
      by rewrite !list_lookup_fmap, !lookup_seq_lt by lia.
    + rewrite !lookup_app_r by (rewrite length_map, length_seq; lia).
      rewrite !length_map, !length_seq, !lookup_drop. f_equal. lia.
Qed.

Section ReduceFacts.
Context {ValueT FPType : Type} {ops : FPOps ValueT FPType}.
Context {exact : FPExact ops}.
Local Abbreviation GradientPair := (GradientPairInternal ValueT).
Local Abbreviation GradientPairT := (GradientPairInternal FPType).

(** [ReduceHist] sums the slices of the blocks, bin by bin. *)
Lemma ReduceHist_spec (hist buf : list GradientPairT) (nblocks nbins : nat)
    (V : nat → nat → GradientPairT) :
  (∀ k b, k < nblocks → b < nbins → buf !! (k * nbins + b) = Some (V k b)) →
  nbins ≤ length hist →
  ReduceHist hist buf nblocks nbins
  = Ok (map (λ b, gp_sum (seq 0 nblocks) (λ k, V k b)) (seq 0 nbins)
        ++ drop nbins hist).
Proof.
  intros Hbuf Hlen. unfold ReduceHist.
  set (W := λ b, gp_sum (seq 0 nblocks) (λ k, V k b)).
  assert (∀ b, b < nbins →
            for_range nblocks
              (λ j gpair, x ← read buf (j * nbins + b); mret (gp_add gpair x))
              gp_zero = Ok (W b)) as Hinner.
  { intros b Hb.
    destruct (for_range_inv
                (λ m g, g = gp_sum (seq 0 m) (λ k, V k b)) nblocks
                (λ j gpair, x ← read buf (j * nbins + b); mret (gp_add gpair x))
                gp_zero) as (g & Hrun & ->); [done| |done].
    intros k g Hk ->. rewrite (read_Some _ _ _ (Hbuf k b Hk Hb)).
    eexists. split; [done|].
    by rewrite seq_S, gp_sum_app, gp_sum_cons, gp_sum_nil, gp_add_0_r. }
  destruct (for_range_inv
              (λ m h, h = map W (seq 0 m) ++ drop m hist) nbins
              (λ idx_bin hist_data,
                 gpair ← for_range nblocks
                           (λ j gpair,
                              x ← read buf (j * nbins + idx_bin);
                              mret (gp_add gpair x))
                           gp_zero;
                 write hist_data idx_bin gpair) hist)
    as (h & Hrun & ->); [done| |done].
  intros b h Hb ->. rewrite Hinner by done. rewrite bind_Ok.
  rewrite write_lt
    by (rewrite length_app, length_map, length_seq, length_drop; lia).
  eexists. split; [done|]. apply insert_prefix_map. lia.
Qed.

(** The slices of the blocks add up to the bins of the spec when the
    blocks cover the rows. *)
Lemma slice_spec_sum T isDense gmat (pgh : list GradientPair) rid
    (block_size nblocks b : nat) :
  length rid ≤ nblocks * block_size →
  gp_sum (seq 0 nblocks)
    (λ k, slice_spec T isDense gmat pgh rid block_size k b)
  = hist_spec T isDense gmat pgh rid b.
Proof.
  intros Hcover. unfold slice_spec, hist_spec. cbv zeta.
  pose proof (gp_sum_seq_flatten nblocks block_size
    (λ i, if decide (i < length rid)
          then gp_sum (seq 0 (num_columns isDense gmat))
                 (λ j, contrib T isDense gmat pgh rid b i j)
          else gp_zero)) as Hflat.
  cbv beta in Hflat. rewrite Hflat. by apply gp_sum_seq_truncate.
Qed.

(** A buffer whose slices hold the sums of their blocks reduces to the
    histogram of the spec. *)
Lemma ReduceHist_slices T isDense gmat (pgh : list GradientPair) rid
    (hist buf : list GradientPairT) (block_size nblocks : nat) :
  (∀ k b, k < nblocks → b < nbins gmat →
     buf !! (k * nbins gmat + b)
     = Some (slice_spec T isDense gmat pgh rid block_size k b)) →
  length rid ≤ nblocks * block_size →
  nbins gmat ≤ length hist →
  ReduceHist hist buf nblocks (nbins gmat)
  = Ok (hist_result T isDense gmat pgh rid hist).
Proof.
  intros Hbuf Hcover Hlen.
  rewrite (ReduceHist_spec hist buf nblocks (nbins gmat)
             (slice_spec T isDense gmat pgh rid block_size)) by done.
  unfold hist_result. do 2 f_equal. apply map_ext_in.
  intros b _. by apply slice_spec_sum.
Qed.

End ReduceFacts.

(** ** Variant A computes the histogram of the spec *)

Section BufferedFacts.
Context {ValueT FPType : Type} {ops : FPOps ValueT FPType}.
Context {exact : FPExact ops}.
Local Abbreviation GradientPair := (GradientPairInternal ValueT).
Local Abbreviation GradientPairT := (GradientPairInternal FPType).
Variable T : BinIdxType.
Variable isDense : bool.
Variable gmat : GHistIndexMatrix.
Variable pgh : list GradientPair.
Variable rid : list nat.
Hypothesis Hok : input_ok T isDense gmat pgh rid.

Lemma gp_sum_zero_ext {A} (l : list A) (f : A → GradientPairT) :
  (∀ x, x ∈ l → f x = gp_zero) → gp_sum l f = gp_zero.
Proof.
  intros H. rewrite (gp_sum_ext _ _ (λ _, gp_zero)) by done. apply gp_sum_zero.
Qed.

(** Position [k * nbins + b] of the buffer belongs to the slice of block
    [k] only. *)
Lemma slot_contrib_at block i j k b :
  b < nbins gmat →
  slot_contrib T isDense gmat pgh rid block i j (k * nbins gmat + b)
  = if decide (block = k) then contrib T isDense gmat pgh rid b i j
    else gp_zero.
Proof.
  intros Hb. unfold slot_contrib.
  destruct (cell_bin T isDense gmat rid i j) as [c|] eqn:Hc.
  - pose proof (cell_bin_lt _ _ _ _ _ _ _ Hc) as Hlt.
    rewrite (contrib_Some _ _ _ _ _ _ _ c) by done.
    destruct (decide (block = k)) as [->|Hne].
    + destruct (decide (b = c)) as [->|Hbc].
      * by rewrite decide_True.
      * rewrite decide_False; [done | lia].
    + rewrite decide_False; [done | nia].
  - rewrite contrib_None by done. by case_decide.
Qed.

(** One work-item of the buffered kernel adds, to the slice of its block,
    what the cells of its columns contribute. *)
Lemma BuildHistKernel_buffered_item_spec
    (work_group_size block_size block feat : nat) (buf : list GradientPairT) :
  block * nbins gmat + nbins gmat ≤ length buf →
  BuildHistKernel_buffered_item T isDense gmat pgh rid (length rid)
    (num_columns isDense gmat) (nbins gmat) work_group_size block_size
    block feat buf
  = Ok (add_fun buf
          (λ p, gp_sum (seq 0 block_size)
                  (λ idx,
                     if decide (block * block_size + idx < length rid)
                     then gp_sum (strided feat (num_columns isDense gmat)
                                    work_group_size)
                            (λ j, slot_contrib T isDense gmat pgh rid block
                                    (block * block_size + idx) j p)
                     else gp_zero))).
Proof.
  intros Hlen. unfold BuildHistKernel_buffered_item. cbv zeta.
  apply (for_range_add_fun _ _ _ (length buf)); [|done].
  intros idx a _ Ha. case_decide as Hi.
  - destruct (input_ok_row T isDense gmat pgh rid _ Hok Hi)
      as (r & g & Hr & Hg & Hpair & Hbins).
    rewrite (read_Some _ _ _ Hr), bind_Ok, (read_Some _ _ _ Hg), bind_Ok.
    apply (for_each_add_fun _ _ _ (length buf)); [|done].
    intros j a' Hj%stride_from_bounds Ha'.
    destruct (Hbins j) as (k & -> & Hcell); [lia|]. rewrite bind_Ok.
    unfold slot_contrib. rewrite Hcell. case_decide as Hk.
    + rewrite accumulate_add_fun by lia. f_equal.
      apply add_fun_ext. intros p _. by rewrite Hpair.
    + by rewrite add_fun_zero.
  - by rewrite add_fun_zero.
Qed.

(** What the work-items add to position [k * nbins + b] is the sum of the
    block [k] for the bin [b]. *)
Lemma buffered_slot_sum (work_group_size block_size nblocks k b : nat) :
  0 < work_group_size → k < nblocks → b < nbins gmat →
  gp_sum (seq 0 nblocks)
    (λ block,
       gp_sum (seq 0 work_group_size)
         (λ feat,
            gp_sum (seq 0 block_size)
              (λ idx,
                 if decide (block * block_size + idx < length rid)
                 then gp_sum (strided feat (num_columns isDense gmat)
                                work_group_size)
                        (λ j, slot_contrib T isDense gmat pgh rid block
                                (block * block_size + idx) j
                                (k * nbins gmat + b))
                 else gp_zero)))
  = slice_spec T isDense gmat pgh rid block_size k b.
Proof.
  intros Hw Hk Hb.
  pose (G := λ block,
    gp_sum (seq 0 work_group_size)
      (λ feat,
         gp_sum (seq 0 block_size)
           (λ idx,
              if decide (block * block_size + idx < length rid)
              then gp_sum (strided feat (num_columns isDense gmat)
                             work_group_size)
                     (λ j, contrib T isDense gmat pgh rid b
                             (block * block_size + idx) j)
              else gp_zero))).
  rewrite (gp_sum_ext _ _
             (λ block, if decide (block = k) then G block else gp_zero)).
  - rewrite gp_sum_seq_indicator, decide_True by done. unfold G, slice_spec.
    rewrite gp_sum_exchange. apply gp_sum_ext. intros idx _. cbv zeta.
    rewrite gp_sum_if. case_decide; [|done].
    by apply gp_sum_strided.
  - intros block _. destruct (decide (block = k)) as [->|Hne].
    + unfold G. apply gp_sum_ext. intros feat _.
      apply gp_sum_ext. intros idx _. case_decide; [|done].
      apply gp_sum_ext. intros j _.
      by rewrite slot_contrib_at, decide_True.
    + apply gp_sum_zero_ext. intros feat _.
      apply gp_sum_zero_ext. intros idx _. case_decide; [|done].
      apply gp_sum_zero_ext. intros j _.
      by rewrite slot_contrib_at, decide_False.
Qed.

Lemma BuildHistKernel_buffered_spec (hist hist_buffer : list GradientPairT)
    (dispatcher : HistDispatcher) :
  0 < work_group_size dispatcher →
  length rid ≤ nblocks (block dispatcher) * size (block dispatcher) →
  nblocks (block dispatcher) * nbins gmat ≤ length hist_buffer →
  nbins gmat ≤ length hist →
  ∃ buf, BuildHistKernel_buffered T isDense pgh rid gmat hist hist_buffer
           dispatcher
         = Ok (hist_result T isDense gmat pgh rid hist, buf).
Proof.
  intros Hw Hcover Hbuf Hlen. unfold BuildHistKernel_buffered. cbv zeta.
  set (wgs := work_group_size dispatcher) in *.
  set (bs := size (block dispatcher)) in *.
  set (nb := nblocks (block dispatcher)) in *.
  rewrite fill_spec by done. rewrite bind_Ok.
  set (buf0 := replicate (nb * nbins gmat) gp_zero
               ++ drop (nb * nbins gmat) hist_buffer).
  assert (length buf0 = length hist_buffer) as Hlen0.
  { unfold buf0. rewrite length_app, length_replicate, length_drop. lia. }
  unfold parallel_for2.
  rewrite (for_range_add_fun nb _
    (λ block p,
       gp_sum (seq 0 wgs)
         (λ feat,
            gp_sum (seq 0 bs)
              (λ idx,
                 if decide (block * bs + idx < length rid)
                 then gp_sum (strided feat (num_columns isDense gmat) wgs)
                        (λ j, slot_contrib T isDense gmat pgh rid block
                                (block * bs + idx) j p)
                 else gp_zero)))
    (length hist_buffer)); [| |done].
  - rewrite bind_Ok.
    rewrite (ReduceHist_slices T isDense gmat pgh rid hist _ bs nb);
      [by eexists | | done | done].
    intros k b Hk Hb. rewrite lookup_add_fun. unfold buf0.
    rewrite lookup_app_l by (rewrite length_replicate; nia).
    rewrite lookup_replicate_2 by nia. simpl.
    by rewrite gp_add_0_l, buffered_slot_sum.
  - intros block a Hblock Ha.
    apply (for_range_add_fun wgs _
      (λ feat p,
            gp_sum (seq 0 bs)
              (λ idx,
                 if decide (block * bs + idx < length rid)
                 then gp_sum (strided feat (num_columns isDense gmat) wgs)
                        (λ j, slot_contrib T isDense gmat pgh rid block
                                (block * bs + idx) j p)
                 else gp_zero))
      (length hist_buffer)); [|done].
    intros feat a' _ Ha'.
    apply BuildHistKernel_buffered_item_spec. nia.
Qed.

End BufferedFacts.

(** ** Cut pointers *)

Section CutPtrFacts.
Variable gmat : GHistIndexMatrix.
Hypothesis Hcuts : cut_ptrs_wf gmat.

Lemma cut_ptrs_mono f f' o o' :
  f ≤ f' → cut_ptrs_ gmat !! f = Some o → cut_ptrs_ gmat !! f' = Some o' →
  (o ≤ o')%N.
Proof.
  destruct Hcuts as (_ & _ & _ & Hstep & _).
  intros Hle Ho. revert o'. induction f' as [|f' IH]; intros o' Ho'.
  - assert (f = 0) as -> by lia. assert (o = o') by congruence. lia.
  - destruct (decide (f = S f')) as [->|Hne].
    + assert (o = o') by congruence. lia.
    + destruct (lookup_lt_is_Some_2 (cut_ptrs_ gmat) f') as [o'' Ho''].
      { apply lookup_lt_Some in Ho'. lia. }
      specialize (IH ltac:(lia) o'' Ho'').
      specialize (Hstep f' o'' o' Ho'' Ho'). lia.
Qed.

Lemma cut_ptrs_le_nbins f o :
  cut_ptrs_ gmat !! f = Some o → (o ≤ N.of_nat (nbins gmat))%N.
Proof.
  intros Ho. pose proof Hcuts as (Hlen & _ & Hlast & _).
  apply (cut_ptrs_mono f (nfeatures gmat) o); [|done..].
  apply lookup_lt_Some in Ho. lia.
Qed.

Lemma cut_ptrs_feature f :
  f < nfeatures gmat →
  ∃ o0 o1, cut_ptrs_ gmat !! f = Some o0 ∧ cut_ptrs_ gmat !! S f = Some o1
    ∧ (o0 ≤ o1)%N ∧ (o1 ≤ N.of_nat (nbins gmat))%N
    ∧ (N.of_nat (nbins gmat) < two32)%N.
Proof.
  intros Hf. pose proof Hcuts as (Hlen & _ & _ & Hstep & Hmax).
  destruct (lookup_lt_is_Some_2 (cut_ptrs_ gmat) f) as [o0 Ho0]; [lia|].
  destruct (lookup_lt_is_Some_2 (cut_ptrs_ gmat) (S f)) as [o1 Ho1]; [lia|].
  exists o0, o1. split_and!; [done | done | by eapply Hstep | | done].
  by eapply cut_ptrs_le_nbins.
Qed.

(** Every bin belongs to a feature. *)
Lemma cut_ptrs_cover b :
  b < nbins gmat →
  ∃ f o0 o1, f < nfeatures gmat
    ∧ cut_ptrs_ gmat !! f = Some o0 ∧ cut_ptrs_ gmat !! S f = Some o1
    ∧ N.to_nat o0 ≤ b < N.to_nat o1.
Proof.
  intros Hb. pose proof Hcuts as (Hlen & Hfirst & Hlast & _ & _).
  assert (∀ m om, m ≤ nfeatures gmat → cut_ptrs_ gmat !! m = Some om →
            b < N.to_nat om →
            ∃ f o0 o1, f < m
              ∧ cut_ptrs_ gmat !! f = Some o0 ∧ cut_ptrs_ gmat !! S f = Some o1
              ∧ N.to_nat o0 ≤ b < N.to_nat o1) as Hgen.
  { induction m as [|m IH]; intros om Hm Hom Hlt.
    - assert (om = 0%N) by congruence. lia.
    - destruct (lookup_lt_is_Some_2 (cut_ptrs_ gmat) m) as [om' Hom']; [lia|].
      destruct (decide (b < N.to_nat om')) as [Hlt'|Hge].
      + destruct (IH om') as (f & o0 & o1 & Hf & H); [lia | done | done |].
        exists f, o0, o1. split; [lia | done].
      + exists m, om', om. split_and!; [lia | done | done | lia | done]. }
  destruct (Hgen (nfeatures gmat) (N.of_nat (nbins gmat)))
    as (f & o0 & o1 & Hf & H); [lia | done | lia |].
  by exists f, o0, o1.
Qed.

End CutPtrFacts.

(** ** Arrays that a loop overwrites *)

Section WritesOnlyFacts.
Context {ValueT FPType : Type} {ops : FPOps ValueT FPType}.
Local Abbreviation GradientPairT := (GradientPairInternal FPType).
Variable V : nat → GradientPairT.

Lemma writes_only_refl (a : list GradientPairT) : writes_only V a a.
Proof. split; [done|]. by left. Qed.

Lemma writes_only_trans (a b c : list GradientPairT) :
  writes_only V a b → writes_only V b c → writes_only V a c.
Proof.
  intros [Hl1 H1] [Hl2 H2]. split; [congruence|]. intros p.
  destruct (H2 p) as [-> | ->]; [apply H1 | by right].
Qed.

Lemma writes_only_keep (a b : list GradientPairT) p :
  writes_only V a b → a !! p = Some (V p) → b !! p = Some (V p).
Proof. intros [_ H] Hp. destruct (H p) as [-> | ->]; done. Qed.

Lemma writes_only_insert (a : list GradientPairT) p :
  writes_only V a (<[p := V p]> a).
Proof.
  split; [by rewrite length_insert|]. intros q.
  destruct (decide (q = p)) as [->|Hne].
  - destruct (decide (p < length a)).
    + right. by apply list_lookup_insert_eq.
    + left. by rewrite list_insert_ge by lia.
  - left. by apply list_lookup_insert_ne.
Qed.

(** A loop whose iterations overwrite entries [p] with [V p] leaves [V p]
    in every entry that some iteration covers. *)
Lemma for_each_writes {A} (cov : A → nat → Prop) (l : list A)
    (body : A → list GradientPairT → res (list GradientPairT)) (L : nat) :
  (∀ x a, x ∈ l → length a = L →
     ∃ a', body x a = Ok a' ∧ writes_only V a a'
       ∧ ∀ p, cov x p → a' !! p = Some (V p)) →
  ∀ a, length a = L →
    ∃ a', for_each l body a = Ok a' ∧ writes_only V a a'
      ∧ ∀ x p, x ∈ l → cov x p → a' !! p = Some (V p).
Proof.
  induction l as [|x l IH]; intros Hbody a Ha; simpl.
  - exists a. split_and!; [done | apply writes_only_refl |].
    by intros x p ?%elem_of_nil.
  - destruct (Hbody x a) as (a1 & -> & Hw1 & Hc1); [by left | done |]. simpl.
    destruct (IH (λ y a' Hy, Hbody y a' (list_elem_of_further _ _ _ Hy)) a1)
      as (a2 & Hrun & Hw2 & Hc2); [destruct Hw1; congruence|].
    exists a2. split_and!; [done | by eapply writes_only_trans |].
    intros y p [->|Hy]%elem_of_cons Hcov.
    + eapply writes_only_keep; [done|]. by apply Hc1.
    + by apply (Hc2 y).
Qed.

(** The same with a second component of the state that keeps an
    invariant. *)
Lemma for_each_writes_aux {A H} (I : H → Prop) (cov : A → nat → Prop)
    (l : list A)
    (body : A → H * list GradientPairT → res (H * list GradientPairT))
    (L : nat) :
  (∀ x h a, x ∈ l → I h → length a = L →
     ∃ h' a', body x (h, a) = Ok (h', a') ∧ I h' ∧ writes_only V a a'
       ∧ ∀ p, cov x p → a' !! p = Some (V p)) →
  ∀ h a, I h → length a = L →
    ∃ h' a', for_each l body (h, a) = Ok (h', a') ∧ I h'
      ∧ writes_only V a a'
      ∧ ∀ x p, x ∈ l → cov x p → a' !! p = Some (V p).
Proof.
  induction l as [|x l IH]; intros Hbody h a Hh Ha; simpl.
  - exists h, a. split_and!; [done | done | apply writes_only_refl |].
    by intros x p ?%elem_of_nil.
  - destruct (Hbody x h a) as (h1 & a1 & -> & Hh1 & Hw1 & Hc1);
      [by left | done | done |]. simpl.
    destruct (IH (λ y h' a' Hy, Hbody y h' a' (list_elem_of_further _ _ _ Hy))
                h1 a1)
      as (h2 & a2 & Hrun & Hh2 & Hw2 & Hc2); [done | destruct Hw1; congruence|].
    exists h2, a2. split_and!; [done | done | by eapply writes_only_trans |].
    intros y p [->|Hy]%elem_of_cons Hcov.
    + eapply writes_only_keep; [done|]. by apply Hc1.
    + by apply (Hc2 y).
Qed.

End WritesOnlyFacts.

Lemma sub32_small (a b : N) : (b ≤ a)%N → (a < two32)%N → sub32 a b = (a - b)%N.
Proof.
  intros Hle Hlt. unfold sub32, two32 in *.
  rewrite (N.mod_small b) by lia.
  replace (a + 4294967296 - b)%N with (a - b + 1 * 4294967296)%N by lia.
  rewrite N.Div0.mod_add. apply N.mod_small. lia.
Qed.

Lemma add32_small (a b : N) : (a + b < two32)%N → add32 a b = (a + b)%N.
Proof. intros H. unfold add32. by apply N.mod_small. Qed.

(** ** Variant B computes the histogram of the spec *)

Section LocalFacts.
Context {ValueT FPType : Type} {ops : FPOps ValueT FPType}.
Context {exact : FPExact ops}.
Local Abbreviation GradientPair := (GradientPairInternal ValueT).
Local Abbreviation GradientPairT := (GradientPairInternal FPType).
Variable T : BinIdxType.
Variable gmat : GHistIndexMatrix.
Variable pgh : list GradientPair.
Variable rid : list nat.
Hypothesis Hok : input_ok T true gmat pgh rid.
Hypothesis Hcuts : cut_ptrs_wf gmat.
Hypothesis Hmaxb : max_num_bins_wf gmat.
Hypothesis Hdense : dense_bins_wf T gmat rid.

Lemma buffer_spec_at isDense (block_size k b : nat) :
  b < nbins gmat →
  buffer_spec T isDense gmat pgh rid block_size (k * nbins gmat + b)
  = slice_spec T isDense gmat pgh rid block_size k b.
Proof.
  intros Hb. unfold buffer_spec.
  rewrite Nat.div_add_l, Nat.div_small, Nat.add_0_r by lia.
  by rewrite Nat.add_comm, Nat.Div0.mod_add, Nat.mod_small.
Qed.

(** A dense cell falls in the range of bins of its feature. *)
Lemma dense_cell i r fid o0 o1 :
  i < length rid → rid !! i = Some r → fid < nfeatures gmat →
  cut_ptrs_ gmat !! fid = Some o0 → cut_ptrs_ gmat !! S fid = Some o1 →
  ∃ k, index_at T (index_data gmat) (nfeatures gmat * r + fid) = Ok k
    ∧ (o0 + k < o1)%N
    ∧ cell_bin T true gmat rid i fid = Some (N.to_nat o0 + N.to_nat k).
Proof.
  intros Hi Hr Hf Ho0 Ho1.
  destruct (Hok i Hi) as (r' & g & Hr' & Hg & Hbins).
  assert (r' = r) as -> by congruence.
  destruct (Hbins fid Hf) as [b Hb]. unfold load_bin, num_columns in Hb.
  destruct (index_at T (index_data gmat) (nfeatures gmat * r + fid))
    as [k|] eqn:Hk; [|discriminate].
  exists k. pose proof (Hdense i r fid k o0 o1 Hr Hf Hk Ho0 Ho1) as Hlt.
  pose proof (cut_ptrs_le_nbins gmat Hcuts _ _ Ho1) as Hnb.
  pose proof Hcuts as (_ & _ & _ & _ & H32).
  split_and!; [done..|].
  unfold cell_bin, load_bin, num_columns.
  rewrite (read_Some _ _ _ Hr), bind_Ok, Hk, bind_Ok.
  rewrite (read_Some _ _ _ Ho0), bind_Ok.
  rewrite add32_small by lia. change (mret ?x) with (Ok x). cbv iota beta.
  rewrite decide_True by lia. f_equal. lia.
Qed.

(** A bin of the feature [fid] receives contributions from the column
    [fid] only. *)
Lemma local_feature_sum i fid o0 o1 b :
  i < length rid → fid < nfeatures gmat →
  cut_ptrs_ gmat !! fid = Some o0 → cut_ptrs_ gmat !! S fid = Some o1 →
  N.to_nat o0 ≤ b < N.to_nat o1 →
  gp_sum (seq 0 (nfeatures gmat)) (λ j, contrib T true gmat pgh rid b i j)
  = contrib T true gmat pgh rid b i fid.
Proof.
  intros Hi Hf Ho0 Ho1 Hb.
  rewrite (gp_sum_ext _ _
    (λ j, if decide (j = fid)
          then (λ j, contrib T true gmat pgh rid b i j) j else gp_zero)).
  - by rewrite gp_sum_seq_indicator, decide_True.
  - intros j Hj%list_elem_of_In%in_seq.
    destruct (decide (j = fid)) as [->|Hne]; [done|].
    destruct (Hok i Hi) as (r & _ & Hr & _).
    destruct (cut_ptrs_feature gmat Hcuts j) as (oj & oj1 & Hoj & Hoj1 & _);
      [lia|].
    destruct (dense_cell i r j oj oj1) as (k & _ & Hk & Hcell);
      [done | done | lia | done | done |].
    rewrite (contrib_Some _ _ _ _ _ _ _ _ _ Hcell).
    rewrite decide_False; [done|].
    destruct (decide (j < fid)) as [Hlt|Hgt].
    + pose proof (cut_ptrs_mono gmat Hcuts (S j) fid oj1 o0 ltac:(lia) Hoj1 Ho0).
      lia.
    + pose proof (cut_ptrs_mono gmat Hcuts (S fid) j o1 oj ltac:(lia) Ho1 Hoj).
      lia.
Qed.

(** One feature of a lane: the bins of the feature in the slice of the
    block are overwritten with their sums, whatever the buffer and
    [hist_fast] held before. *)
Lemma BuildHistKernelLocal_feature_spec
    (block_size block fid : nat) (hf buf : list GradientPairT) :
  fid < nfeatures gmat →
  max_num_bins gmat ≤ length hf →
  block * nbins gmat + nbins gmat ≤ length buf →
  ∃ hf' buf',
    BuildHistKernelLocal_feature T gmat pgh rid (length rid) (nfeatures gmat)
      (nbins gmat) block_size block fid (hf, buf) = Ok (hf', buf')
    ∧ max_num_bins gmat ≤ length hf'
    ∧ writes_only (buffer_spec T true gmat pgh rid block_size) buf buf'
    ∧ ∀ p, feature_slots gmat block fid p →
        buf' !! p = Some (buffer_spec T true gmat pgh rid block_size p).
Proof.
  intros Hf Hhf Hbuf. unfold BuildHistKernelLocal_feature. cbv zeta.
  destruct (cut_ptrs_feature gmat Hcuts fid Hf)
    as (o0 & o1 & Ho0 & Ho1 & Hle & Hnb & H32).
  replace (fid + 1) with (S fid) by lia.
  rewrite (read_Some _ _ _ Ho1), bind_Ok, (read_Some _ _ _ Ho0), bind_Ok.
  rewrite sub32_small by lia.
  set (nbf := N.to_nat (o1 - o0)).
  assert (nbf ≤ length hf) as Hnbf.
  { pose proof (Hmaxb fid o0 o1 Ho0 Ho1). unfold nbf. lia. }
  (* the bins of the feature are zeroed *)
  change (for_range nbf (λ bin hist_fast, write hist_fast bin gp_zero) hf)
    with (fill hf gp_zero nbf).
  rewrite fill_spec by done. rewrite bind_Ok.
  set (hf1 := replicate nbf gp_zero ++ drop nbf hf).
  assert (length hf1 = length hf) as Hlen1.
  { unfold hf1. rewrite length_app, length_replicate, length_drop. lia. }
  (* the rows of the block are accumulated *)
  set (F := λ idx bin,
    if decide (block * block_size + idx < length rid)
    then contrib T true gmat pgh rid (N.to_nat o0 + bin)
           (block * block_size + idx) fid
    else gp_zero).
  rewrite (for_range_add_fun block_size _ F (length hf)); [| |done].
  2:{ intros idx a _ Ha. unfold F. case_decide as Hi; [|by rewrite add_fun_zero].
      destruct (input_ok_row T true gmat pgh rid _ Hok Hi)
        as (r & g & Hr & Hg & Hpair & _).
      destruct (dense_cell _ r fid o0 o1 Hi Hr Hf Ho0 Ho1)
        as (k & Hk & Hlt & Hcell).
      rewrite (read_Some _ _ _ Hr), bind_Ok, (read_Some _ _ _ Hg), bind_Ok.
      rewrite Hk, bind_Ok.
      rewrite accumulate_add_fun by (unfold nbf in Hnbf; lia). f_equal.
      apply add_fun_ext. intros bin _.
      rewrite (contrib_Some _ _ _ _ _ _ _ _ _ Hcell), Hpair.
      destruct (decide (bin = N.to_nat k)) as [->|Hne].
      - by rewrite decide_True.
      - rewrite decide_False; [done | lia]. }
  rewrite bind_Ok.
  set (hf2 := add_fun hf1 (λ bin, gp_sum (seq 0 block_size) (λ idx, F idx bin))).
  assert (∀ bin, bin < nbf →
            hf2 !! bin
            = Some (buffer_spec T true gmat pgh rid block_size
                      (block * nbins gmat + (N.to_nat o0 + bin)))) as Hhf2.
  { intros bin Hbin. unfold hf2, hf1. rewrite lookup_add_fun.
    rewrite lookup_app_l by (rewrite length_replicate; lia).
    rewrite lookup_replicate_2 by done. simpl. rewrite gp_add_0_l. f_equal.
    rewrite buffer_spec_at by (unfold nbf in Hbin; lia).
    unfold slice_spec. apply gp_sum_ext. intros idx _. unfold F. cbv zeta.
    case_decide as Hi; [|done]. symmetry.
    apply (local_feature_sum _ fid o0 o1); [done..|].
    unfold nbf in Hbin. lia. }
  (* the bins are copied to the slice *)
  destruct (for_range_inv
    (λ m b',
       writes_only (buffer_spec T true gmat pgh rid block_size) buf b'
       ∧ ∀ bin, bin < m →
           b' !! (block * nbins gmat + (N.to_nat o0 + bin))
           = Some (buffer_spec T true gmat pgh rid block_size
                     (block * nbins gmat + (N.to_nat o0 + bin))))
    nbf
    (λ bin hist_buffer_data,
       x ← read hf2 bin;
       write hist_buffer_data
         (block * nbins gmat + N.to_nat (add32 (N.of_nat bin) o0)) x)
    buf) as (buf' & Hrun & Hw & Hcov).
  - split; [apply writes_only_refl | intros; lia].
  - intros m b' Hm [Hw Hprev].
    rewrite (read_Some _ _ _ (Hhf2 m Hm)), bind_Ok.
    rewrite add32_small by (unfold nbf in Hm; lia).
    replace (N.to_nat (N.of_nat m + o0)) with (N.to_nat o0 + m) by lia.
    assert (length b' = length buf) as Hlb by (by destruct Hw).
    rewrite write_lt by (unfold nbf in Hm; lia).
    eexists. split; [done|]. split.
    + eapply writes_only_trans; [done | apply writes_only_insert].
    + intros bin Hbin. destruct (decide (bin = m)) as [->|Hne].
      * rewrite list_lookup_insert_eq; [done|]. unfold nbf in Hm. lia.
      * rewrite list_lookup_insert_ne by lia. apply Hprev. lia.
  - rewrite Hrun, bind_Ok. exists hf2, buf'. split_and!; [done | | done |].
    + unfold hf2. rewrite length_add_fun. lia.
    + intros p (o0' & o1' & b & Ho0' & Ho1' & Hb & ->).
      assert (o0' = o0) as -> by congruence.
      assert (o1' = o1) as -> by congruence.
      replace b with (N.to_nat o0 + (b - N.to_nat o0)) by lia.
      apply Hcov. unfold nbf. lia.
Qed.

(** One work-item of the local kernel overwrites the bins of its features
    in the slice of its block. *)
Lemma BuildHistKernelLocal_item_spec
    (work_group_size block_size : nat) (hist_fast : list GradientPairT)
    (block feat : nat) (buf : list GradientPairT) :
  max_num_bins gmat ≤ length hist_fast →
  block * nbins gmat + nbins gmat ≤ length buf →
  ∃ buf',
    BuildHistKernelLocal_item T gmat pgh rid (length rid) (nfeatures gmat)
      (nbins gmat) work_group_size block_size hist_fast block feat buf
    = Ok buf'
    ∧ writes_only (buffer_spec T true gmat pgh rid block_size) buf buf'
    ∧ ∀ p, (∃ fid, fid ∈ strided feat (nfeatures gmat) work_group_size
                   ∧ feature_slots gmat block fid p) →
        buf' !! p = Some (buffer_spec T true gmat pgh rid block_size p).
Proof.
  intros Hhf Hbuf. unfold BuildHistKernelLocal_item.
  destruct (for_each_writes_aux
              (buffer_spec T true gmat pgh rid block_size)
              (λ h, max_num_bins gmat ≤ length h)
              (feature_slots gmat block)
              (strided feat (nfeatures gmat) work_group_size)
              (BuildHistKernelLocal_feature T gmat pgh rid (length rid)
                 (nfeatures gmat) (nbins gmat) block_size block)
              (length buf)) with (h := hist_fast) (a := buf)
    as (h' & buf' & Hrun & _ & Hw & Hc); [|done|done|].
  - intros fid h a Hfid%stride_from_bounds Hh Ha.
    apply BuildHistKernelLocal_feature_spec; [lia | done | lia].
  - rewrite Hrun. exists buf'. split_and!; [done | done |].
    intros p (fid & Hfid & Hp). by apply (Hc fid).
Qed.

(** After the local kernel every slice holds the sums of its block,
    whatever the buffer held before. *)
Lemma BuildHistKernelLocal_buffer
    (work_group_size block_size nblocks : nat)
    (hist_fast : nat → nat → list GradientPairT) (buf : list GradientPairT) :
  0 < work_group_size →
  (∀ block feat, max_num_bins gmat ≤ length (hist_fast block feat)) →
  nblocks * nbins gmat ≤ length buf →
  ∃ buf',
    parallel_for2 nblocks work_group_size
      (λ block feat,
         BuildHistKernelLocal_item T gmat pgh rid (length rid)
           (nfeatures gmat) (nbins gmat) work_group_size block_size
           (hist_fast block feat) block feat) buf
    = Ok buf'
    ∧ ∀ k b, k < nblocks → b < nbins gmat →
        buf' !! (k * nbins gmat + b)
        = Some (slice_spec T true gmat pgh rid block_size k b).
Proof.
  intros Hw Hhf Hbuf. unfold parallel_for2, for_range.
  destruct (for_each_writes
              (buffer_spec T true gmat pgh rid block_size)
              (λ block p,
                 ∃ feat fid, feat < work_group_size
                   ∧ fid ∈ strided feat (nfeatures gmat) work_group_size
                   ∧ feature_slots gmat block fid p)
              (seq 0 nblocks)
              (λ a, for_each (seq 0 work_group_size)
                      (λ b, BuildHistKernelLocal_item T gmat pgh rid
                              (length rid) (nfeatures gmat) (nbins gmat)
                              work_group_size block_size (hist_fast a b) a b))
              (length buf)) with (a := buf)
    as (buf' & Hrun & Hw' & Hc); [|done|].
  - intros block a Hblock%list_elem_of_In%in_seq Ha.
    destruct (for_each_writes
                (buffer_spec T true gmat pgh rid block_size)
                (λ feat p,
                   ∃ fid, fid ∈ strided feat (nfeatures gmat) work_group_size
                     ∧ feature_slots gmat block fid p)
                (seq 0 work_group_size)
                (λ b, BuildHistKernelLocal_item T gmat pgh rid
                        (length rid) (nfeatures gmat) (nbins gmat)
                        work_group_size block_size (hist_fast block b) block b)
                (length buf)) with (a := a)
      as (a' & Hrun & Hw' & Hc); [|done|].
    + intros feat a0 _ Ha0.
      apply BuildHistKernelLocal_item_spec; [done | nia].
    + exists a'. split_and!; [done | done |].
      intros p (feat & fid & Hfeat & Hfid & Hp).
      apply (Hc feat); [|by exists fid].
      apply list_elem_of_In, in_seq. lia.
  - exists buf'. split; [done|]. intros k b Hk Hb.
    destruct (cut_ptrs_cover gmat Hcuts b Hb)
      as (fid & o0 & o1 & Hfid & Ho0 & Ho1 & Hrange).
    rewrite <- buffer_spec_at by done.
    apply (Hc k); [apply list_elem_of_In, in_seq; lia|].
    exists (fid mod work_group_size), fid.
    split_and!.
    + apply Nat.mod_upper_bound. lia.
    + apply elem_of_strided; [apply Nat.mod_upper_bound; lia | done].
    + by exists o0, o1, b.
Qed.

Lemma BuildHistKernelLocal_spec (hist hist_buffer : list GradientPairT)
    (dispatcher : HistDispatcher)
    (hist_fast0 : nat → nat → list GradientPairT) :
  0 < work_group_size dispatcher →
  length rid ≤ nblocks (block dispatcher) * size (block dispatcher) →
  nblocks (block dispatcher) * nbins gmat ≤ length hist_buffer →
  nbins gmat ≤ length hist →
  (∀ block feat, max_num_bins gmat ≤ length (hist_fast0 block feat)) →
  ∃ buf, BuildHistKernelLocal T pgh rid gmat hist hist_buffer dispatcher
           hist_fast0
         = Ok (hist_result T true gmat pgh rid hist, buf).
Proof.
  intros Hw Hcover Hbuf Hlen Hhf. unfold BuildHistKernelLocal. cbv zeta.
  destruct (BuildHistKernelLocal_buffer (work_group_size dispatcher)
              (size (block dispatcher)) (nblocks (block dispatcher))
              hist_fast0 hist_buffer Hw Hhf Hbuf) as (buf' & -> & Hslices).
  rewrite bind_Ok.
  rewrite (ReduceHist_slices T true gmat pgh rid hist buf'
             (size (block dispatcher)) (nblocks (block dispatcher)))
    by done.
  by eexists.
Qed.

End LocalFacts.

(** ** The three variants agree *)

Section Equivalence.
Context {ValueT FPType : Type} {ops : FPOps ValueT FPType}.
Context {exact : FPExact ops}.
Local Abbreviation GradientPair := (GradientPairInternal ValueT).
Local Abbreviation GradientPairT := (GradientPairInternal FPType).

(** Where the three kernels agree: with at most [2^31] rows, which the
    [int] row counter of the atomic kernel can hold, and at most [2^31]
    bins, for which its [uint32_t] index [2 * idx_bin] does not wrap, the
    buffered kernel (A) and the atomic kernel (C) build the same
    histogram, and on dense input, the only input it is dispatched on, the
    kernel with local private bins (B) builds that histogram too.
    Arithmetic is exact, the reads are in range, the blocks of the
    dispatcher cover the rows, and the matrix is well formed. *)
Lemma BuildHist_variants_agree_in_range
    (T : BinIdxType) (isDense : bool) (gpair : list GradientPair)
    (row_indices : list nat) (gmat : GHistIndexMatrix)
    (hist hist_buffer : list GradientPairT) (dispatcher : HistDispatcher)
    (hist_fast0 : nat → nat → list GradientPairT) :
  input_ok T isDense gmat gpair row_indices →
  0 < work_group_size dispatcher →
  length row_indices ≤ nblocks (block dispatcher) * size (block dispatcher) →
  (N.of_nat (length row_indices) ≤ int32_max + 1)%N →
  (N.of_nat (nbins gmat) ≤ int32_max + 1)%N →
  nblocks (block dispatcher) * nbins gmat ≤ length hist_buffer →
  nbins gmat ≤ length hist →
  ∃ h bufA,
    BuildHistKernel_buffered T isDense gpair row_indices gmat hist hist_buffer
      dispatcher = Ok (h, bufA)
    ∧ BuildHistKernel_atomic T isDense gpair row_indices gmat hist dispatcher
      = Ok h
    ∧ h = hist_result T isDense gmat gpair row_indices hist
    ∧ (isDense = true → cut_ptrs_wf gmat → max_num_bins_wf gmat →
       dense_bins_wf T gmat row_indices →
       (∀ block feat, max_num_bins gmat ≤ length (hist_fast0 block feat)) →
       ∃ bufB, BuildHistKernelLocal T gpair row_indices gmat hist hist_buffer
                 dispatcher hist_fast0 = Ok (h, bufB)).
Proof.
  intros Hok Hw Hcover Hsize Hnb Hbuf Hlen.
  destruct (BuildHistKernel_buffered_spec T isDense gmat gpair row_indices Hok
              hist hist_buffer dispatcher Hw Hcover Hbuf Hlen) as [bufA HA].
  exists (hist_result T isDense gmat gpair row_indices hist), bufA.
  split_and!; [done | by apply BuildHistKernel_atomic_spec | done |].
  intros -> Hcuts Hmaxb Hdense Hhf.
  by apply BuildHistKernelLocal_spec.
Qed.

(** A node that is one row of the matrix, taken [n] times. *)
Lemma input_ok_replicate
    (T : BinIdxType) (isDense : bool) (gmat : GHistIndexMatrix)
    (gpair : list GradientPair) (n r : nat) (g : GradientPair) :
  gpair !! r = Some g →
  (∀ j, j < num_columns isDense gmat →
     is_Ok (load_bin T isDense gmat (num_columns isDense gmat * r) j)) →
  input_ok T isDense gmat gpair (replicate n r).
Proof.
  intros Hg Hbins i Hi. rewrite length_replicate in Hi.
  exists r, g. split_and!; [by apply lookup_replicate_2 | done | done].
Qed.

(** C2. The kernels do not build the same histogram on every input.  The
    atomic kernel (C) keeps the row of its work-item in an [int],
    [const int i = pid.get_global_id(0)], where the buffered kernel (A)
    keeps it in a [size_t].  On a node with more than [2^31] rows and a
    matrix with a column, the buffered kernel builds the histogram of the
    node, and the atomic kernel does not: for the row [2^31] the [int] is
    negative and [rid[i]] is read before the start of the row set.  The
    reads of the buffered kernel are in range, the blocks of the
    dispatcher cover the rows and arithmetic is exact. *)
Theorem BuildHistKernel_atomic_int_row_counter
    (T : BinIdxType) (isDense : bool) (gpair : list GradientPair)
    (row_indices : list nat) (gmat : GHistIndexMatrix)
    (hist hist_buffer : list GradientPairT) (dispatcher : HistDispatcher) :
  input_ok T isDense gmat gpair row_indices →
  0 < work_group_size dispatcher →
  length row_indices ≤ nblocks (block dispatcher) * size (block dispatcher) →
  nblocks (block dispatcher) * nbins gmat ≤ length hist_buffer →
  nbins gmat ≤ length hist →
  0 < num_columns isDense gmat →
  (int32_max + 1 < N.of_nat (length row_indices))%N →
  (∃ buf,
     BuildHistKernel_buffered T isDense gpair row_indices gmat hist
       hist_buffer dispatcher
     = Ok (hist_result T isDense gmat gpair row_indices hist, buf))
  ∧ BuildHistKernel_atomic T isDense gpair row_indices gmat hist dispatcher
    = Fault BadRead.
Proof.
  intros Hok Hw Hcover Hbuf Hlen Hcols Hsize. split.
  { by apply BuildHistKernel_buffered_spec. }
  unfold BuildHistKernel_atomic. cbv zeta.
  rewrite (decide_False (P := work_group_size dispatcher = 0)) by lia.
  rewrite bind_Ok.
  rewrite fill_flat_spec by done. rewrite bind_Ok.
  change (if isDense then nfeatures gmat else row_stride gmat)
    with (num_columns isDense gmat).
  set (wgs := work_group_size dispatcher) in *.
  set (n_columns := num_columns isDense gmat) in *.
  set (nwg := n_columns / wgs + (if decide (0 < n_columns mod wgs) then 1 else 0)).
  set (hist0 := replicate (nbins gmat) gp_zero ++ drop (nbins gmat) hist).
  assert (length hist0 = length hist) as Hlen0.
  { unfold hist0. rewrite length_app, length_replicate, length_drop. lia. }
  assert (0 < nwg) as Hnwg.
  { pose proof (n_work_groups_cover n_columns wgs Hw) as Hc. fold nwg in Hc.
    destruct nwg; [simpl in Hc|]; lia. }
  assert (∃ m, N.of_nat m = (int32_max + 1)%N) as [m Hm].
  { exists (N.to_nat (int32_max + 1)). apply N2Nat.id. }
  destruct (BuildHistKernel_atomic_rows_below T isDense gmat gpair row_indices
              Hok wgs nwg m hist0) as [h Hh]; [lia..|].
  unfold parallel_for2.
  apply (for_range_fault_at _ m _ _ h); [lia | exact Hh |].
  apply (for_range_fault_at _ 0 _ _ h); [lia | reflexivity |].
  apply (for_range_fault_at _ 0 _ _ h); [lia | reflexivity |].
  unfold BuildHistKernel_atomic_item.
  rewrite read_int_negative; [reflexivity | lia |].
  rewrite Hm. reflexivity.
Qed.

End Equivalence.

Lemma ex_many_rows_input_ok :
  input_ok uint8_t true ex_gmat ex_gpair ex_many_rows.
Proof.
  apply (input_ok_replicate uint8_t true ex_gmat ex_gpair
           (N.to_nat 2147483649) 0 (MkGradientPair 1 1)%Z).
  - reflexivity.
  - intros j Hj.
    assert (j = 0 ∨ j = 1) as [-> | ->] by (cbn in Hj; lia); by eexists.
Defined.

Lemma BuildHistKernel_atomic_int_row_counter_witness :
  (∃ buf,
     BuildHistKernel_buffered uint8_t true ex_gpair ex_many_rows ex_gmat
       ex_hist ex_hist ex_dispatcher_many
     = Ok (hist_result uint8_t true ex_gmat ex_gpair ex_many_rows ex_hist,
           buf))
  ∧ BuildHistKernel_atomic uint8_t true ex_gpair ex_many_rows ex_gmat ex_hist
      ex_dispatcher_many
    = Fault BadRead.
Proof.
  apply (BuildHistKernel_atomic_int_row_counter uint8_t true ex_gpair
           ex_many_rows ex_gmat ex_hist ex_hist ex_dispatcher_many).
  - exact ex_many_rows_input_ok.
  - cbn [ex_dispatcher_many work_group_size]. lia.
  - unfold ex_many_rows. rewrite length_replicate.
    cbn [ex_dispatcher_many block nblocks size]. lia.
  - cbn [ex_dispatcher_many block nblocks size ex_gmat nbins ex_hist length].
    lia.
  - cbn [ex_gmat nbins ex_hist length]. lia.
  - cbn [num_columns ex_gmat nfeatures]. lia.
  - unfold ex_many_rows. rewrite length_replicate, N2Nat.id. reflexivity.
Defined.

Lemma ex_cut_ptrs_wf : cut_ptrs_wf ex_gmat.
Proof.
  split_and!; [done | done | done | | done].
  intros [|[|[|f]]] o0 o1 H0 H1; cbv in H0, H1; simplify_eq; lia.
Defined.

Lemma ex_max_num_bins_wf : max_num_bins_wf ex_gmat.
Proof.
  intros [|[|[|f]]] o0 o1 H0 H1; cbv in H0, H1; simplify_eq; by vm_compute.
Defined.

Lemma ex_dense_bins_wf : dense_bins_wf uint8_t ex_gmat ex_rows.
Proof.
  intros [|i] r f k o0 o1 Hr Hf Hk H0 H1; cbv in Hr; [|done].
  injection Hr as <-.
  destruct f as [|[|f]]; [| |simpl in Hf; lia];
    cbv in Hk, H0, H1; simplify_eq; lia.
Defined.

Lemma BuildHist_variants_agree_in_range_ex :
  ∃ h bufA bufB,
    BuildHistKernel_buffered uint8_t true ex_gpair ex_rows ex_gmat ex_hist
      ex_hist (ex_dispatcher true false) = Ok (h, bufA)
    ∧ BuildHistKernel_atomic uint8_t true ex_gpair ex_rows ex_gmat ex_hist
        (ex_dispatcher true false) = Ok h
    ∧ BuildHistKernelLocal uint8_t ex_gpair ex_rows ex_gmat ex_hist ex_hist
        (ex_dispatcher true false) ex_hist_fast1 = Ok (h, bufB).
Proof.
  destruct (BuildHist_variants_agree_in_range uint8_t true ex_gpair ex_rows
              ex_gmat ex_hist ex_hist (ex_dispatcher true false) ex_hist_fast1)
    as (h & bufA & HA & HC & _ & HB).
  - exact ex_input_ok.
  - simpl. lia.
  - simpl. lia.
  - by vm_compute.
  - by vm_compute.
  - simpl. lia.
  - simpl. lia.
  - destruct HB as [bufB HB].
    + reflexivity.
    + exact ex_cut_ptrs_wf.
    + exact ex_max_num_bins_wf.
    + exact ex_dense_bins_wf.
    + intros block feat. simpl. lia.
    + by exists h, bufA, bufB.
Defined.

(** ** Two runs side by side *)

Lemma rel_res_bind {A1 A2 B1 B2} (R : A1 → A2 → Prop) (Q : B1 → B2 → Prop)
    (m1 : res A1) (m2 : res A2) (k1 : A1 → res B1) (k2 : A2 → res B2) :
  rel_res R m1 m2 →
  (∀ a b, R a b → rel_res Q (k1 a) (k2 b)) →
  rel_res Q (m1 ≫= k1) (m2 ≫= k2).
Proof. destruct m1, m2; simpl; try done. intros H Hk. by apply Hk. Qed.

Lemma rel_res_eq_refl {A} (r : res A) : rel_res eq r r.
Proof. by destruct r. Qed.

Lemma rel_res_mono {A B} (R Q : A → B → Prop) (r1 : res A) (r2 : res B) :
  (∀ a b, R a b → Q a b) → rel_res R r1 r2 → rel_res Q r1 r2.
Proof. destruct r1, r2; simpl; try done. intros H. apply H. Qed.

(** The same computation after equal reads. *)
Lemma rel_res_bind_same {A B1 B2} (Q : B1 → B2 → Prop) (m : res A)
    (k1 : A → res B1) (k2 : A → res B2) :
  (∀ a, m = Ok a → rel_res Q (k1 a) (k2 a)) →
  rel_res Q (m ≫= k1) (m ≫= k2).
Proof. destruct m; simpl; [|done]. intros H. by apply H. Qed.

(** Two loops over the same range whose states stay related. *)
Lemma for_range_rel {S1 S2} (P : nat → S1 → S2 → Prop) (n : nat)
    (body1 : nat → S1 → res S1) (body2 : nat → S2 → res S2) s1 s2 :
  P 0 s1 s2 →
  (∀ i s1 s2, i < n → P i s1 s2 →
     rel_res (P (S i)) (body1 i s1) (body2 i s2)) →
  rel_res (P n) (for_range n body1 s1) (for_range n body2 s2).
Proof.
  intros H0 Hstep. induction n as [|n IH]; [done|].
  rewrite !for_range_S.
  apply (rel_res_bind (P n)).
  - apply IH. intros. apply Hstep; [lia | done].
  - intros a b Hab. apply Hstep; [lia | done].
Qed.

Lemma agree_weaken {A} (W W' : nat → Prop) (a b : list A) :
  (∀ p, W' p → W p) → agree W a b → agree W' a b.
Proof. intros H [Hl Ha]. split; [done|]. intros p Hp. apply Ha, H, Hp. Qed.

(** Two loops whose iterations extend the set of positions on which the
    arrays agree. *)
Lemma for_each_agree {A B} (reg : A → nat → Prop) (l : list A)
    (body1 body2 : A → list B → res (list B)) :
  (∀ x W a b, x ∈ l → agree W a b →
     rel_res (agree (λ p, W p ∨ reg x p)) (body1 x a) (body2 x b)) →
  ∀ W a b, agree W a b →
    rel_res (agree (λ p, W p ∨ ∃ x, x ∈ l ∧ reg x p))
      (for_each l body1 a) (for_each l body2 b).
Proof.
  induction l as [|x l IH]; intros Hbody W a b Hab; simpl.
  - eapply agree_weaken; [|done]. intros p [Hp|(x & Hx & _)]; [done|].
    by apply elem_of_nil in Hx.
  - apply (rel_res_bind (agree (λ p, W p ∨ reg x p))).
    + apply Hbody; [by left | done].
    + intros a' b' Hab'.
      eapply rel_res_mono;
        [|apply (IH (λ y W a b Hy, Hbody y W a b
                       (list_elem_of_further _ _ _ Hy)) _ _ _ Hab')].
      intros a'' b''. apply agree_weaken.
      intros p [Hp|(y & Hy & Hreg)].
      * by left; left.
      * apply elem_of_cons in Hy as [->|Hy]; [by left; right|].
        right. by exists y.
Qed.

(** The same with a second component of the state, related by [I]. *)
Lemma for_each_agree_aux {A B H} (I : H → H → Prop) (reg : A → nat → Prop)
    (l : list A) (body1 body2 : A → H * list B → res (H * list B)) :
  (∀ x W h1 h2 a b, x ∈ l → I h1 h2 → agree W a b →
     rel_res (λ s1 s2, I s1.1 s2.1 ∧ agree (λ p, W p ∨ reg x p) s1.2 s2.2)
       (body1 x (h1, a)) (body2 x (h2, b))) →
  ∀ W h1 h2 a b, I h1 h2 → agree W a b →
    rel_res (λ s1 s2, I s1.1 s2.1
                      ∧ agree (λ p, W p ∨ ∃ x, x ∈ l ∧ reg x p) s1.2 s2.2)
      (for_each l body1 (h1, a)) (for_each l body2 (h2, b)).
Proof.
  induction l as [|x l IH]; intros Hbody W h1 h2 a b Hh Hab; simpl.
  - split; [done|]. eapply agree_weaken; [|done].
    intros p [Hp|(x & Hx & _)]; [done|]. by apply elem_of_nil in Hx.
  - apply (rel_res_bind
             (λ s1 s2, I s1.1 s2.1 ∧ agree (λ p, W p ∨ reg x p) s1.2 s2.2)).
    + apply Hbody; [by left | done | done].
    + intros [h1' a'] [h2' b'] [Hh' Hab']. simpl in *.
      eapply rel_res_mono;
        [|apply (IH (λ y W h1 h2 a b Hy, Hbody y W h1 h2 a b
                       (list_elem_of_further _ _ _ Hy)) _ _ _ _ _ Hh' Hab')].
      intros s1 s2 [Hs Hag]. split; [done|].
      eapply agree_weaken; [|done].
      intros p [Hp|(y & Hy & Hreg)].
      * by left; left.
      * apply elem_of_cons in Hy as [->|Hy]; [by left; right|].
        right. by exists y.
Qed.

(** ** Variant B does not depend on what the scratch held *)

Section LocalTwoRuns.
Context {ValueT FPType : Type} {ops : FPOps ValueT FPType}.
Local Abbreviation GradientPair := (GradientPairInternal ValueT).
Local Abbreviation GradientPairT := (GradientPairInternal FPType).
Variable T : BinIdxType.
Variable gmat : GHistIndexMatrix.
Variable pgh : list GradientPair.
Variable rid : list nat.

Lemma accumulate_same_below n k (h1 h2 : list GradientPairT) v :
  same_below n h1 h2 →
  rel_res (same_below n) (accumulate h1 k v) (accumulate h2 k v).
Proof.
  intros [Hl Hag]. unfold accumulate.
  destruct (h1 !! k) as [x1|] eqn:H1, (h2 !! k) as [x2|] eqn:H2; simpl.
  - split; [by rewrite !length_insert|]. intros bin Hbin.
    destruct (decide (bin = k)) as [->|Hne].
    + rewrite !list_lookup_insert_eq by (by eapply lookup_lt_Some).
      specialize (Hag k Hbin). congruence.
    + rewrite !list_lookup_insert_ne by done. by apply Hag.
  - apply lookup_lt_Some in H1. apply lookup_ge_None in H2. lia.
  - apply lookup_lt_Some in H2. apply lookup_ge_None in H1. lia.
  - done.
Qed.

(** The feature loop body, run on two scratch states, writes the same
    values at the same positions of the two buffers. *)
Lemma BuildHistKernelLocal_feature_two_runs
    (size n_columns block_size block fid : nat) (W : nat → Prop)
    (hf1 hf2 buf1 buf2 : list GradientPairT) :
  length hf1 = length hf2 → agree W buf1 buf2 →
  rel_res
    (λ s1 s2, length s1.1 = length s2.1
              ∧ agree (λ p, W p ∨ feature_writes gmat block fid p) s1.2 s2.2)
    (BuildHistKernelLocal_feature T gmat pgh rid size n_columns (nbins gmat)
       block_size block fid (hf1, buf1))
    (BuildHistKernelLocal_feature T gmat pgh rid size n_columns (nbins gmat)
       block_size block fid (hf2, buf2)).
Proof.
  intros Hhf Hbuf. unfold BuildHistKernelLocal_feature. cbv zeta.
  apply rel_res_bind_same. intros o1 Ho1%read_Ok.
  apply rel_res_bind_same. intros o0 Ho0%read_Ok.
  set (nbf := N.to_nat (sub32 o1 o0)).
  apply (rel_res_bind (same_below nbf)).
  { apply (for_range_rel (λ m, same_below m)).
    - split; [done | intros; lia].
    - intros i h1 h2 Hi [Hl Hag]. unfold write. rewrite <- Hl.
      case_decide; simpl; [|done]. split; [by rewrite !length_insert|].
      intros bin Hbin. destruct (decide (bin = i)) as [->|Hne].
      + by rewrite !list_lookup_insert_eq by lia.
      + rewrite !list_lookup_insert_ne by done. apply Hag. lia. }
  intros h1 h2 Hsame.
  apply (rel_res_bind (same_below nbf)).
  { apply (for_range_rel (λ _, same_below nbf)); [done|].
    intros idx h1' h2' _ Hsame'. case_decide; [|done].
    apply rel_res_bind_same. intros row_id _.
    apply rel_res_bind_same. intros g _.
    apply rel_res_bind_same. intros idx_bin _.
    by apply accumulate_same_below. }
  clear h1 h2 Hsame. intros h1 h2 [Hl Hag].
  apply (rel_res_bind
           (agree (λ p, W p ∨ feature_writes gmat block fid p))).
  - eapply rel_res_mono; last first.
    + apply (for_range_rel
        (λ m, agree (λ p, W p ∨ ∃ bin, bin < m
                 ∧ p = block * nbins gmat
                       + N.to_nat (add32 (N.of_nat bin) o0)))).
      * eapply agree_weaken; [|done]. intros p [Hp|(bin & Hbin & _)]; [done|lia].
      * intros m b1 b2 Hm [Hlb Hagb]. unfold read. rewrite (Hag m Hm).
        destruct (h2 !! m) as [x|]; simpl; [|done].
        unfold write. rewrite <- Hlb. case_decide; simpl; [|done].
        split; [by rewrite !length_insert|]. intros p Hp.
        destruct (decide (p = block * nbins gmat
                              + N.to_nat (add32 (N.of_nat m) o0)))
          as [->|Hne].
        -- by rewrite !list_lookup_insert_eq by lia.
        -- rewrite !list_lookup_insert_ne by done. apply Hagb.
           destruct Hp as [Hp|(bin & Hbin & ->)]; [by left|].
           right. exists bin. split; [|done].
           destruct (decide (bin = m)) as [->|]; [done | lia].
    + intros b1 b2. apply agree_weaken.
      intros p [Hp|(o0' & o1' & bin & Ho0' & Ho1' & Hbin & ->)]; [by left|].
      assert (o0' = o0) as -> by congruence.
      assert (o1' = o1) as -> by congruence.
      right. by exists bin.
  - intros b1 b2 Hab. by split.
Qed.

Lemma BuildHistKernelLocal_item_two_runs
    (size n_columns work_group_size block_size block feat : nat)
    (W : nat → Prop) (hf1 hf2 buf1 buf2 : list GradientPairT) :
  length hf1 = length hf2 → agree W buf1 buf2 →
  rel_res
    (agree (λ p, W p ∨ ∃ fid, fid ∈ strided feat n_columns work_group_size
                        ∧ feature_writes gmat block fid p))
    (BuildHistKernelLocal_item T gmat pgh rid size n_columns (nbins gmat)
       work_group_size block_size hf1 block feat buf1)
    (BuildHistKernelLocal_item T gmat pgh rid size n_columns (nbins gmat)
       work_group_size block_size hf2 block feat buf2).
Proof.
  intros Hhf Hbuf. unfold BuildHistKernelLocal_item.
  eapply rel_res_bind.
  - apply (for_each_agree_aux (λ h1 h2, length h1 = length h2)
             (feature_writes gmat block)); [|done|done].
    intros fid W' h1 h2 a b _ Hh Hab.
    by apply BuildHistKernelLocal_feature_two_runs.
  - intros [h1 a1] [h2 a2] [_ Hag]. done.
Qed.

(** Every position that [ReduceHist] reads is written by some lane. *)
Lemma feature_writes_cover (work_group_size nblocks k b : nat) :
  cut_ptrs_wf gmat → 0 < work_group_size → k < nblocks → b < nbins gmat →
  ∃ block, block ∈ seq 0 nblocks
    ∧ ∃ feat, feat ∈ seq 0 work_group_size
      ∧ ∃ fid, fid ∈ strided feat (nfeatures gmat) work_group_size
        ∧ feature_writes gmat block fid (k * nbins gmat + b).
Proof.
  intros Hcuts Hw Hk Hb.
  destruct (cut_ptrs_cover gmat Hcuts b Hb)
    as (fid & o0 & o1 & Hfid & Ho0 & Ho1 & Hrange).
  pose proof (cut_ptrs_le_nbins gmat Hcuts _ _ Ho1) as Hnb.
  pose proof Hcuts as (_ & _ & _ & _ & H32).
  exists k. split; [apply list_elem_of_In, in_seq; lia|].
  exists (fid mod work_group_size).
  pose proof (Nat.mod_upper_bound fid work_group_size ltac:(lia)) as Hmod.
  split; [apply list_elem_of_In, in_seq; lia|].
  exists fid. split; [by apply elem_of_strided|].
  exists o0, o1, (b - N.to_nat o0).
  replace (fid + 1) with (S fid) by lia.
  rewrite sub32_small, add32_small by lia.
  split_and!; [done | done | lia | f_equal; lia].
Qed.

(** C10. [BuildHistKernelLocal] followed by [ReduceHist] gives the same
    final histogram, or stops with the same fault, whatever the scratch
    buffer and the lanes' [hist_fast] arrays held at the start: every entry
    of the scratch that [ReduceHist] reads has been overwritten by the
    kernel.  The cut pointers are those of a well-formed matrix and the
    work-group is not empty; nothing is asked of the arithmetic. *)
Theorem BuildHistKernelLocal_ignores_scratch
    (hist : list GradientPairT) (dispatcher : HistDispatcher)
    (hist_buffer1 hist_buffer2 : list GradientPairT)
    (hist_fast1 hist_fast2 : nat → nat → list GradientPairT) :
  cut_ptrs_wf gmat →
  0 < work_group_size dispatcher →
  length hist_buffer1 = length hist_buffer2 →
  (∀ block feat,
     length (hist_fast1 block feat) = length (hist_fast2 block feat)) →
  rel_res (λ r1 r2, r1.1 = r2.1)
    (BuildHistKernelLocal T pgh rid gmat hist hist_buffer1 dispatcher
       hist_fast1)
    (BuildHistKernelLocal T pgh rid gmat hist hist_buffer2 dispatcher
       hist_fast2).
Proof.
  intros Hcuts Hw Hbuf Hhf. unfold BuildHistKernelLocal. cbv zeta.
  set (wgs := work_group_size dispatcher) in *.
  set (bs := size (block dispatcher)).
  set (nb := nblocks (block dispatcher)).
  eapply rel_res_bind.
  - unfold parallel_for2, for_range.
    apply (for_each_agree
             (λ block p, ∃ feat, feat ∈ seq 0 wgs
                ∧ ∃ fid, fid ∈ strided feat (nfeatures gmat) wgs
                  ∧ feature_writes gmat block fid p)
             (seq 0 nb)) with (W := λ _, False); [|by split].
    intros block W a b _ Hab.
    apply (for_each_agree
             (λ feat p, ∃ fid, fid ∈ strided feat (nfeatures gmat) wgs
                  ∧ feature_writes gmat block fid p)
             (seq 0 wgs)); [|done].
    intros feat W' a' b' _ Hab'.
    by apply BuildHistKernelLocal_item_two_runs.
  - intros b1 b2 [Hl Hag].
    assert (ReduceHist hist b1 nb (nbins gmat)
            = ReduceHist hist b2 nb (nbins gmat)) as ->.
    { unfold ReduceHist. apply for_range_ext. intros idx_bin h Hidx.
      f_equal. apply for_range_ext. intros j g Hj. unfold read.
      rewrite Hag; [done|]. right.
      by apply (feature_writes_cover wgs nb). }
    by destruct (ReduceHist hist b2 nb (nbins gmat)).
Qed.

End LocalTwoRuns.

(** ** The kernels write inside the histogram storage *)

Lemma safe_res_not_BadWrite {A} (I : A → Prop) (r : res A) :
  safe_res I r → r ≠ Fault BadWrite.
Proof. destruct r; simpl; [done | congruence]. Qed.

Lemma safe_res_mono {A} (I J : A → Prop) (r : res A) :
  (∀ a, I a → J a) → safe_res I r → safe_res J r.
Proof. destruct r; simpl; [|done]. intros H. apply H. Qed.

Lemma safe_res_bind {A B} (J : A → Prop) (I : B → Prop) (m : res A)
    (k : A → res B) :
  safe_res J m → (∀ a, m = Ok a → J a → safe_res I (k a)) →
  safe_res I (m ≫= k).
Proof. destruct m; simpl; [|done]. intros HJ Hk. by apply Hk. Qed.

Lemma safe_res_read {A} (a : list A) i : safe_res (λ _, True) (read a i).
Proof. unfold read. by destruct (a !! i). Qed.

Lemma safe_res_index_at T data k : safe_res (λ _, True) (index_at T data k).
Proof. unfold index_at. by case_decide. Qed.

Lemma safe_res_load_bin T isDense gmat icol_start j :
  safe_res (λ _, True) (load_bin T isDense gmat icol_start j).
Proof.
  unfold load_bin. eapply safe_res_bind; [apply safe_res_index_at|].
  intros k _ _. destruct isDense; [|done].
  eapply safe_res_bind; [apply safe_res_read | done].
Qed.

Lemma safe_res_read_int {A} (a : list A) gid :
  safe_res (λ _, True) (read_int a gid).
Proof. unfold read_int. case_match; [done | apply safe_res_read]. Qed.

Lemma for_each_safe {A St} (I : St → Prop) (l : list A)
    (body : A → St → res St) s :
  (∀ x s, x ∈ l → I s → safe_res I (body x s)) → I s →
  safe_res I (for_each l body s).
Proof.
  revert s. induction l as [|x l IH]; intros s Hbody Hs; simpl; [done|].
  eapply safe_res_bind; [apply Hbody; [by left | done]|].
  intros s' _ Hs'. apply IH; [|done]. intros y s'' Hy. apply Hbody. by right.
Qed.

Lemma for_range_safe {St} (I : St → Prop) n (body : nat → St → res St) s :
  (∀ i s, i < n → I s → safe_res I (body i s)) → I s →
  safe_res I (for_range n body s).
Proof.
  intros Hbody. apply for_each_safe.
  intros i s' Hi%list_elem_of_In%in_seq. apply Hbody. lia.
Qed.

Section Safety.
Context {ValueT FPType : Type} {ops : FPOps ValueT FPType}.
Local Abbreviation GradientPair := (GradientPairInternal ValueT).
Local Abbreviation GradientPairT := (GradientPairInternal FPType).

Lemma safe_res_accumulate (a : list GradientPairT) i v :
  i < length a → safe_res (λ a', length a' = length a) (accumulate a i v).
Proof.
  intros Hi. unfold accumulate.
  destruct (lookup_lt_is_Some_2 a i Hi) as [x ->]. simpl.
  by rewrite length_insert.
Qed.

Lemma safe_res_flat_read {T} (a : list (GradientPairInternal T)) i :
  safe_res (λ _, True) (flat_read a i).
Proof.
  unfold flat_read. eapply safe_res_bind; [apply safe_res_read | done].
Qed.

Lemma safe_res_ReduceHist (hist buf : list GradientPairT) nblocks nbins :
  nbins ≤ length hist →
  safe_res (λ h, length h = length hist) (ReduceHist hist buf nblocks nbins).
Proof.
  intros Hlen. unfold ReduceHist. apply for_range_safe; [|done].
  intros idx_bin h Hidx Hh.
  eapply (safe_res_bind (λ _, True)).
  - apply for_range_safe; [|done]. intros j g _ _.
    eapply safe_res_bind; [apply safe_res_read | done].
  - intros g _ _. rewrite write_lt by lia. simpl. by rewrite length_insert.
Qed.

(** The guard of the buffered kernel keeps every accumulation of a
    work-item inside the slice of its block. *)
Lemma BuildHistKernel_buffered_item_safe
    (T : BinIdxType) (isDense : bool) (gmat : GHistIndexMatrix)
    (pgh : list GradientPair) (rid : list nat)
    (size n_columns nbins work_group_size block_size block feat : nat)
    (buf : list GradientPairT) :
  block * nbins + nbins ≤ length buf →
  safe_res (λ b, length b = length buf)
    (BuildHistKernel_buffered_item T isDense gmat pgh rid size n_columns nbins
       work_group_size block_size block feat buf).
Proof.
  intros Hlen. unfold BuildHistKernel_buffered_item. cbv zeta.
  apply for_range_safe; [|done]. intros idx a _ Ha.
  case_decide; [|done].
  eapply safe_res_bind; [apply safe_res_read|]. intros r _ _.
  eapply safe_res_bind; [apply safe_res_read|]. intros g _ _.
  apply for_each_safe; [|done]. intros j a' _ Ha'.
  eapply safe_res_bind; [apply safe_res_load_bin|]. intros k _ _.
  case_decide; [|done].
  eapply safe_res_mono; [|apply safe_res_accumulate; lia].
  simpl. intros a'' ->. done.
Qed.

Lemma BuildHistKernel_buffered_safe
    (T : BinIdxType) (isDense : bool) (gpair : list GradientPair)
    (row_indices : list nat) (gmat : GHistIndexMatrix)
    (hist hist_buffer : list GradientPairT) (dispatcher : HistDispatcher) :
  nblocks (block dispatcher) * nbins gmat ≤ length hist_buffer →
  nbins gmat ≤ length hist →
  BuildHistKernel_buffered T isDense gpair row_indices gmat hist hist_buffer
    dispatcher ≠ Fault BadWrite.
Proof.
  intros Hbuf Hlen. apply (safe_res_not_BadWrite (λ _, True)).
  unfold BuildHistKernel_buffered. cbv zeta.
  rewrite fill_spec by done. rewrite bind_Ok.
  set (buf0 := replicate _ _ ++ drop _ _).
  assert (length buf0 = length hist_buffer) as Hlen0.
  { unfold buf0. rewrite length_app, length_replicate, length_drop. lia. }
  eapply (safe_res_bind (λ b, length b = length hist_buffer)).
  - unfold parallel_for2. apply for_range_safe; [|done].
    intros block a Hblock Ha. apply for_range_safe; [|done].
    intros feat a' _ Ha'.
    eapply safe_res_mono;
      [|apply BuildHistKernel_buffered_item_safe; nia].
    simpl. intros ? ->. done.
  - intros b _ _. eapply safe_res_bind; [by apply safe_res_ReduceHist|done].
Qed.

(** The guard of the atomic kernel keeps both atomic additions inside the
    histogram. *)
Lemma BuildHistKernel_atomic_safe
    (T : BinIdxType) (isDense : bool) (gpair : list GradientPair)
    (row_indices : list nat) (gmat : GHistIndexMatrix)
    (hist : list GradientPairT) (dispatcher : HistDispatcher) :
  nbins gmat ≤ length hist →
  BuildHistKernel_atomic T isDense gpair row_indices gmat hist dispatcher
  ≠ Fault BadWrite.
Proof.
  intros Hlen. apply (safe_res_not_BadWrite (λ h, length h = length hist)).
  unfold BuildHistKernel_atomic. cbv zeta.
  eapply (safe_res_bind (λ _, True)); [by case_decide|]. intros _ _ _.
  rewrite fill_flat_spec by done. rewrite bind_Ok.
  set (hist0 := replicate _ _ ++ drop _ _).
  assert (length hist0 = length hist) as Hlen0.
  { unfold hist0. rewrite length_app, length_replicate, length_drop. lia. }
  unfold parallel_for2. apply for_range_safe; [|done].
  intros gid a _ Ha. apply for_range_safe; [|done].
  intros group_id a' _ Ha'. apply for_range_safe; [|done].
  intros local_id a'' _ Ha''.
  unfold BuildHistKernel_atomic_item. cbv zeta.
  eapply safe_res_bind; [apply safe_res_read_int|]. intros r _ _.
  eapply safe_res_bind; [apply safe_res_flat_read|]. intros g0 _ _.
  eapply safe_res_bind; [apply safe_res_flat_read|]. intros g1 _ _.
  case_decide; [|done].
  eapply safe_res_bind; [apply safe_res_load_bin|]. intros k _ _.
  case_decide; [|done]. cbn [fst snd].
  rewrite atomic_index_even, atomic_index_odd, atomic_add_pair.
  pose proof (N.Div0.mod_le k 2147483648) as Hmod.
  eapply safe_res_mono; [|apply safe_res_accumulate; lia].
  simpl. intros ? ->. done.
Qed.

(** Under the preconditions of the local kernel every access of a feature
    loop to [hist_fast] and to the slice of the block is in range. *)
Lemma BuildHistKernelLocal_feature_safe
    (T : BinIdxType) (gmat : GHistIndexMatrix) (pgh : list GradientPair)
    (rid : list nat) (size block_size block fid : nat)
    (hf buf : list GradientPairT) :
  cut_ptrs_wf gmat → max_num_bins_wf gmat → dense_bins_wf T gmat rid →
  max_num_bins gmat ≤ length hf →
  block * nbins gmat + nbins gmat ≤ length buf →
  safe_res (λ s, length s.1 = length hf ∧ length s.2 = length buf)
    (BuildHistKernelLocal_feature T gmat pgh rid size (nfeatures gmat)
       (nbins gmat) block_size block fid (hf, buf)).
Proof.
  intros Hcuts Hmaxb Hdense Hhf Hbuf.
  unfold BuildHistKernelLocal_feature. cbv zeta.
  eapply safe_res_bind; [apply safe_res_read|]. intros o1 Ho1%read_Ok _.
  eapply safe_res_bind; [apply safe_res_read|]. intros o0 Ho0%read_Ok _.
  replace (fid + 1) with (S fid) in Ho1 by lia.
  pose proof Hcuts as (Hclen & _ & _ & Hstep & H32).
  pose proof (Hstep fid o0 o1 Ho0 Ho1) as Hle.
  pose proof (cut_ptrs_le_nbins gmat Hcuts _ _ Ho1) as Hnb.
  pose proof (Hmaxb fid o0 o1 Ho0 Ho1) as Hmax.
  assert (fid < nfeatures gmat) as Hf by (apply lookup_lt_Some in Ho1; lia).
  rewrite sub32_small by lia.
  set (nbf := N.to_nat (o1 - o0)).
  assert (nbf ≤ length hf) as Hnbf by (unfold nbf; lia).
  change (for_range nbf (λ bin hist_fast, write hist_fast bin gp_zero) hf)
    with (fill hf gp_zero nbf).
  rewrite fill_spec by done. rewrite bind_Ok.
  set (hf1 := replicate nbf gp_zero ++ drop nbf hf).
  assert (length hf1 = length hf) as Hlen1.
  { unfold hf1. rewrite length_app, length_replicate, length_drop. lia. }
  eapply (safe_res_bind (λ h, length h = length hf)).
  { apply for_range_safe; [|done]. intros idx h _ Hh.
    case_decide; [|done].
    eapply safe_res_bind; [apply safe_res_read|]. intros r Hr%read_Ok _.
    eapply safe_res_bind; [apply safe_res_read|]. intros g _ _.
    eapply safe_res_bind; [apply safe_res_index_at|]. intros k Hk _.
    pose proof (Hdense _ r fid k o0 o1 Hr Hf Hk Ho0 Ho1).
    eapply safe_res_mono; [|apply safe_res_accumulate; unfold nbf in Hnbf; lia].
    simpl. intros ? ->. done. }
  intros hf2 _ Hlen2.
  eapply (safe_res_bind (λ b, length b = length buf)).
  { apply for_range_safe; [|done]. intros bin b Hbin Hb.
    eapply safe_res_bind; [apply safe_res_read|]. intros x _ _.
    rewrite add32_small by (unfold nbf in Hbin; lia).
    rewrite write_lt by (unfold nbf in Hbin; lia).
    simpl. by rewrite length_insert. }
  intros b _ Hb. by split.
Qed.

Lemma BuildHistKernelLocal_item_safe
    (T : BinIdxType) (gmat : GHistIndexMatrix) (pgh : list GradientPair)
    (rid : list nat) (size work_group_size block_size : nat)
    (hist_fast : list GradientPairT) (block feat : nat)
    (buf : list GradientPairT) :
  cut_ptrs_wf gmat → max_num_bins_wf gmat → dense_bins_wf T gmat rid →
  max_num_bins gmat ≤ length hist_fast →
  block * nbins gmat + nbins gmat ≤ length buf →
  safe_res (λ b, length b = length buf)
    (BuildHistKernelLocal_item T gmat pgh rid size (nfeatures gmat)
       (nbins gmat) work_group_size block_size hist_fast block feat buf).
Proof.
  intros Hcuts Hmaxb Hdense Hhf Hbuf. unfold BuildHistKernelLocal_item.
  eapply (safe_res_bind
            (λ s, length s.1 = length hist_fast ∧ length s.2 = length buf)).
  - apply for_each_safe; [|done]. intros fid [h a] _ [Hh Ha]. simpl in *.
    eapply safe_res_mono;
      [|apply BuildHistKernelLocal_feature_safe; [done..|lia|lia]].
    simpl. intros [h' a'] [? ?]. simpl in *. split; congruence.
  - intros [h a] _ [_ Ha]. done.
Qed.

Lemma BuildHistKernelLocal_safe
    (T : BinIdxType) (gpair : list GradientPair) (row_indices : list nat)
    (gmat : GHistIndexMatrix) (hist hist_buffer : list GradientPairT)
    (dispatcher : HistDispatcher)
    (hist_fast0 : nat → nat → list GradientPairT) :
  cut_ptrs_wf gmat → max_num_bins_wf gmat →
  dense_bins_wf T gmat row_indices →
  (∀ block feat, max_num_bins gmat ≤ length (hist_fast0 block feat)) →
  nblocks (block dispatcher) * nbins gmat ≤ length hist_buffer →
  nbins gmat ≤ length hist →
  BuildHistKernelLocal T gpair row_indices gmat hist hist_buffer dispatcher
    hist_fast0 ≠ Fault BadWrite.
Proof.
  intros Hcuts Hmaxb Hdense Hhf Hbuf Hlen.
  apply (safe_res_not_BadWrite (λ _, True)).
  unfold BuildHistKernelLocal. cbv zeta.
  eapply (safe_res_bind (λ b, length b = length hist_buffer)).
  - unfold parallel_for2. apply for_range_safe; [|done].
    intros block a Hblock Ha. apply for_range_safe; [|done].
    intros feat a' _ Ha'.
    eapply safe_res_mono;
      [|apply BuildHistKernelLocal_item_safe; [done..|nia]].
    simpl. intros ? ->. done.
  - intros b _ _. eapply safe_res_bind; [by apply safe_res_ReduceHist|done].
Qed.

(** C9. The device kernels write inside the histogram storage.  In the
    buffered and the atomic variant an accumulation happens only under the
    guard [idx_bin < nbins], so no run writes outside the buffer or the
    histogram, and a work-item of the buffered variant stays inside the
    slice of its block.  In the local variant the same holds, for
    [hist_fast] and for the slice of the block, when every stored
    feature-local bin index is below the bin count of its feature and
    [max_num_bins] is at most the length of [hist_fast], which is
    [kMaxNumBins]. *)
Theorem BuildHist_kernels_write_in_bounds
    (T : BinIdxType) (isDense : bool) (gpair : list GradientPair)
    (row_indices : list nat) (gmat : GHistIndexMatrix)
    (hist hist_buffer : list GradientPairT) (dispatcher : HistDispatcher)
    (hist_fast0 : nat → nat → list GradientPairT) :
  nblocks (block dispatcher) * nbins gmat ≤ length hist_buffer →
  nbins gmat ≤ length hist →
  BuildHistKernel_buffered T isDense gpair row_indices gmat hist hist_buffer
    dispatcher ≠ Fault BadWrite
  ∧ BuildHistKernel_atomic T isDense gpair row_indices gmat hist dispatcher
    ≠ Fault BadWrite
  ∧ (∀ blk feat slices,
       length slices = blk * nbins gmat + nbins gmat →
       BuildHistKernel_buffered_item T isDense gmat gpair row_indices
         (length row_indices) (num_columns isDense gmat) (nbins gmat)
         (work_group_size dispatcher) (size (block dispatcher)) blk feat
         slices ≠ Fault BadWrite)
  ∧ (cut_ptrs_wf gmat → max_num_bins_wf gmat →
     dense_bins_wf T gmat row_indices →
     (∀ blk feat, max_num_bins gmat ≤ length (hist_fast0 blk feat)) →
     BuildHistKernelLocal T gpair row_indices gmat hist hist_buffer dispatcher
       hist_fast0 ≠ Fault BadWrite
     ∧ ∀ blk feat slices,
         length slices = blk * nbins gmat + nbins gmat →
         BuildHistKernelLocal_item T gmat gpair row_indices
           (length row_indices) (nfeatures gmat) (nbins gmat)
           (work_group_size dispatcher) (size (block dispatcher))
           (hist_fast0 blk feat) blk feat slices ≠ Fault BadWrite).
Proof.
  intros Hbuf Hlen. split_and!.
  - by apply BuildHistKernel_buffered_safe.
  - by apply BuildHistKernel_atomic_safe.
  - intros blk feat slices Hs.
    eapply safe_res_not_BadWrite.
    apply BuildHistKernel_buffered_item_safe. lia.
  - intros Hcuts Hmaxb Hdense Hhf. split.
    + by apply BuildHistKernelLocal_safe.
    + intros blk feat slices Hs.
      eapply safe_res_not_BadWrite.
      apply BuildHistKernelLocal_item_safe; [done..|lia].
Qed.

End Safety.

(** ** The kernels at the concrete inputs *)

Example BuildHistKernelLocal_ex :
  BuildHistKernelLocal uint8_t ex_gpair ex_rows ex_gmat ex_hist ex_scratch1
    (ex_dispatcher true false) ex_hist_fast1
  = Ok ([MkGradientPair 1 1; MkGradientPair 1 1]%Z,
        [MkGradientPair 1 1; MkGradientPair 1 1]%Z).
Proof. reflexivity. Qed.

Lemma BuildHistKernelLocal_ignores_scratch_witness :
  rel_res (λ r1 r2, r1.1 = r2.1)
    (BuildHistKernelLocal uint8_t ex_gpair ex_rows ex_gmat ex_hist ex_scratch1
       (ex_dispatcher true false) ex_hist_fast1)
    (BuildHistKernelLocal uint8_t ex_gpair ex_rows ex_gmat ex_hist ex_scratch2
       (ex_dispatcher true false) ex_hist_fast2).
Proof.
  apply (BuildHistKernelLocal_ignores_scratch uint8_t ex_gmat ex_gpair ex_rows
           ex_hist (ex_dispatcher true false) ex_scratch1 ex_scratch2
           ex_hist_fast1 ex_hist_fast2).
  - exact ex_cut_ptrs_wf.
  - simpl. lia.
  - reflexivity.
  - intros block feat. reflexivity.
Defined.

Lemma BuildHist_kernels_write_in_bounds_witness :
  BuildHistKernel_buffered uint8_t true ex_gpair ex_rows ex_gmat ex_hist
    ex_scratch1 (ex_dispatcher true false) ≠ Fault BadWrite
  ∧ BuildHistKernel_atomic uint8_t true ex_gpair ex_rows ex_gmat ex_hist
      (ex_dispatcher true false) ≠ Fault BadWrite
  ∧ BuildHistKernelLocal uint8_t ex_gpair ex_rows ex_gmat ex_hist ex_scratch1
      (ex_dispatcher true false) ex_hist_fast1 ≠ Fault BadWrite.
Proof.
  destruct (BuildHist_kernels_write_in_bounds uint8_t true ex_gpair ex_rows
              ex_gmat ex_hist ex_scratch1 (ex_dispatcher true false)
              ex_hist_fast1) as (HA & HC & _ & HB).
  - simpl. lia.
  - simpl. lia.
  - destruct HB as [HB _].
    + exact ex_cut_ptrs_wf.
    + exact ex_max_num_bins_wf.
    + exact ex_dense_bins_wf.
    + intros blk feat. simpl. lia.
    + by split_and!.
Defined.

Example BuildHistKernel_ex_selects_local :
  BuildHistKernel ex_HistDispatcher_new ex_gpair ex_rows ex_gmat true ex_hist
    ex_scratch1 tt false ex_hist_fast1
  = BuildHistKernelLocal uint8_t ex_gpair ex_rows ex_gmat ex_hist ex_scratch1
      (ex_HistDispatcher_new tt true 1 1 2 2 1 1) ex_hist_fast1.
Proof. reflexivity. Qed.

(** The local kernel returns the buffer it has filled, the atomic kernel
    leaves the buffer alone: the two branches are told apart by what the
    call returns. *)
Example BuildHistDispatchKernel_ex :
  BuildHistDispatchKernel ex_HistDispatcher_new uint8_t ex_gpair ex_rows
    ex_gmat ex_hist true ex_scratch1 tt false ex_hist_fast1
  = Ok ([MkGradientPair 1 1; MkGradientPair 1 1]%Z,
        [MkGradientPair 1 1; MkGradientPair 1 1]%Z)
  ∧ BuildHistDispatchKernel ex_HistDispatcher_new uint8_t ex_gpair ex_rows
      ex_gmat ex_hist true ex_scratch1 tt true ex_hist_fast1
    = Ok ([MkGradientPair 1 1; MkGradientPair 1 1]%Z, ex_scratch1).
Proof. split; reflexivity. Qed.

(** On a sparse matrix that declares one byte per bin index the build
    reads the two cells of the row on four bytes each, as bins [0] and
    [1]; the buffered kernel instantiated at [uint8_t] would read the
    first two bytes, twice bin [0]. *)
Example BuildHistKernel_sparse_ex :
  BuildHistKernel ex_HistDispatcher_new ex_gpair ex_rows ex_gmat_sparse false
    ex_hist ex_scratch1 tt false ex_hist_fast1
  = Ok ([MkGradientPair 1 1; MkGradientPair 1 1]%Z,
        [MkGradientPair 1 1; MkGradientPair 1 1]%Z)
  ∧ BuildHistKernel_buffered uint8_t false ex_gpair ex_rows ex_gmat_sparse
      ex_hist ex_scratch1 (ex_HistDispatcher_new tt false 1 1 2 2 1 1)
    = Ok ([MkGradientPair 2 2; MkGradientPair 0 0]%Z,
          [MkGradientPair 2 2; MkGradientPair 0 0]%Z).
Proof. split; reflexivity. Qed.

Lemma BuildHistDispatchKernel_selection_witness :
  BuildHistDispatchKernel ex_HistDispatcher_new uint8_t ex_gpair ex_rows
    ex_gmat ex_hist true ex_scratch1 tt false ex_hist_fast1
  = BuildHistKernelLocal uint8_t ex_gpair ex_rows ex_gmat ex_hist ex_scratch1
      (ex_HistDispatcher_new tt true 1 1 2 2 1 1) ex_hist_fast1
  ∧ BuildHistDispatchKernel ex_HistDispatcher_new uint8_t ex_gpair ex_rows
      ex_gmat ex_hist true ex_scratch1 tt true ex_hist_fast1
    = (h ← BuildHistKernel_atomic uint8_t true ex_gpair ex_rows ex_gmat
             ex_hist (ex_HistDispatcher_new tt true 1 1 2 2 1 1);
       mret (h, ex_scratch1)).
Proof.
  destruct (BuildHistDispatchKernel_selection ex_HistDispatcher_new uint8_t
              ex_gpair ex_rows ex_gmat ex_hist true ex_scratch1 tt false
              ex_hist_fast1 (ex_HistDispatcher_new tt true 1 1 2 2 1 1))
    as (_ & HB & _); [simpl; lia | reflexivity |].
  destruct (BuildHistDispatchKernel_selection ex_HistDispatcher_new uint8_t
              ex_gpair ex_rows ex_gmat ex_hist true ex_scratch1 tt true
              ex_hist_fast1 (ex_HistDispatcher_new tt true 1 1 2 2 1 1))
    as (HC & _ & _); [simpl; lia | reflexivity |].
  split.
  - apply HB; [intros [H|H]; discriminate H | split; reflexivity].
  - apply HC. right. reflexivity.
Defined.

(** * Further properties of the histogram store *)

(** ** Loops that stop, and what a completed loop has kept *)

Lemma bind_Ok_inv {A B} (m : res A) (k : A → res B) b :
  m ≫= k = Ok b → ∃ a, m = Ok a ∧ k a = Ok b.
Proof. destruct m as [a|f]; simpl; [|done]. intros H. by exists a. Qed.

Lemma write_Ok_inv {A} (a a' : list A) i x :
  write a i x = Ok a' → i < length a ∧ a' = <[i:=x]> a.
Proof. unfold write. case_decide; [|done]. intros [= <-]. done. Qed.

(** An iteration that cannot complete stops the loop. *)
Lemma for_each_stuck {A St} (l : list A) (body : A → St → res St) s x :
  x ∈ l → (∀ s', ¬ is_Ok (body x s')) → ¬ is_Ok (for_each l body s).
Proof.
  revert s. induction l as [|y l IH]; intros s Hx Hbody.
  - by apply elem_of_nil in Hx.
  - simpl. destruct (body y s) as [s'|f] eqn:Hy; simpl.
    + apply elem_of_cons in Hx as [->|Hx]; [|by apply IH].
      exfalso. apply (Hbody s). rewrite Hy. by eexists.
    + by intros [a Ha].
Qed.

(** What every completed iteration keeps, a completed loop has kept. *)
Lemma for_each_pres {A St} (I : St → Prop) (l : list A)
    (body : A → St → res St) s s' :
  (∀ x s s', x ∈ l → I s → body x s = Ok s' → I s') →
  I s → for_each l body s = Ok s' → I s'.
Proof.
  revert s. induction l as [|x l IH]; intros s Hbody Hs; simpl.
  - by intros [= <-].
  - intros (s1 & H1 & Hrest)%bind_Ok_inv.
    apply (IH s1); [|by eapply Hbody; [left|..]|done].
    intros y t t' Hy. apply Hbody. by right.
Qed.

Lemma for_range_pres {St} (P : nat → St → Prop) n
    (body : nat → St → res St) s s' :
  P 0 s →
  (∀ i s s', i < n → P i s → body i s = Ok s' → P (S i) s') →
  for_range n body s = Ok s' → P n s'.
Proof.
  intros H0 Hstep. revert s'. induction n as [|n IH]; intros s'.
  - by intros [= <-].
  - rewrite for_range_S. intros (s1 & H1 & Hn)%bind_Ok_inv.
    apply (Hstep n s1); [lia| |done].
    apply IH; [|done]. intros. eapply Hstep; [lia|done..].
Qed.

(** A loop that writes [V i] at each index [i] below [n]. *)
Lemma for_range_insert {A} (V : nat → A) n
    (body : nat → list A → res (list A)) (a : list A) :
  n ≤ length a →
  (∀ i d, i < n → length d = length a → body i d = Ok (<[i := V i]> d)) →
  for_range n body a = Ok (map V (seq 0 n) ++ drop n a).
Proof.
  intros Hn Hbody.
  destruct (for_range_inv (λ m d, d = map V (seq 0 m) ++ drop m a) n body a)
    as (d & Hrun & ->); [done| |done].
  intros i d Hi ->. rewrite Hbody; [|done|].
  - eexists. split; [done|]. apply insert_prefix_map. lia.
  - rewrite length_app, length_map, length_seq, length_drop. lia.
Qed.

Lemma map_lookup_default {A} (d : A) (l : list A) n :
  n ≤ length l → map (λ i, default d (l !! i)) (seq 0 n) = take n l.
Proof.
  intros Hn. apply list_eq. intros i.
  rewrite list_lookup_fmap. destruct (decide (i < n)) as [Hi|Hi].
  - rewrite lookup_seq_lt, lookup_take_lt by done. simpl.
    by destruct (lookup_lt_is_Some_2 l i ltac:(lia)) as [x ->].
  - rewrite lookup_seq_ge, lookup_take_ge by lia. done.
Qed.

Lemma fill_overflow {A} (a : list A) (v : A) (n : nat) :
  length a < n → fill a v n = Fault BadWrite.
Proof.
  intros Hn. unfold fill.
  apply (for_range_fault_at n (length a) _ _
           (replicate (length a) v ++ drop (length a) a)); [done| |].
  - by apply fill_spec.
  - unfold write. rewrite decide_False; [done|].
    rewrite length_app, length_replicate, length_drop. lia.
Qed.

Section StoreFacts.
Context {ValueT FPType : Type} {ops : FPOps ValueT FPType}.
Local Abbreviation GradientPairT := (GradientPairInternal FPType).

(** X1. [InitHist(hist, size)] sets the first [size] pairs of the histogram
    to the pair of zeros and leaves the others as they were; when the
    histogram holds fewer than [size] pairs it writes past its end. *)
Theorem InitHist_zero_fills (hist : list GradientPairT) (size : nat) :
  InitHist hist size
  = if decide (size ≤ length hist)
    then Ok (replicate size gp_zero ++ drop size hist)
    else Fault BadWrite.
Proof.
  unfold InitHist. case_decide.
  - by apply fill_spec.
  - apply fill_overflow. lia.
Qed.

(** The two iterations of the flat copy loop that belong to pair [i]. *)
Lemma CopyHist_pair (pdst src : list GradientPairT) i x :
  src !! i = Some x → i < length pdst →
  (d ← (x ← flat_read src (2 * i); flat_write pdst (2 * i) x);
   x ← flat_read src (2 * i + 1);
   flat_write d (2 * i + 1) x)
  = Ok (<[i := x]> pdst).
Proof.
  intros Hx Hi.
  destruct (flat_read_pair src i x Hx) as [-> ->]. simpl.
  destruct (lookup_lt_is_Some_2 pdst i Hi) as [p Hp].
  rewrite (flat_write_pair pdst i p) by done. by destruct x.
Qed.

Lemma CopyHist_prefix (dst src : list GradientPairT) (n : nat) :
  n ≤ length src → n ≤ length dst →
  for_range n
    (λ i pdst,
       d ← (x ← flat_read src (2 * i); flat_write pdst (2 * i) x);
       x ← flat_read src (2 * i + 1);
       flat_write d (2 * i + 1) x) dst
  = Ok (take n src ++ drop n dst).
Proof.
  intros Hs Hd.
  rewrite (for_range_insert (λ i, default gp_zero (src !! i))) by
    (try done; intros i d Hi Hlen;
     destruct (lookup_lt_is_Some_2 src i ltac:(lia)) as [x Hx];
     rewrite (CopyHist_pair d src i x Hx) by lia; by rewrite Hx).
  by rewrite map_lookup_default.
Qed.

(** X2. [CopyHist(dst, src, size)] replaces the first [size] pairs of
    [dst] by those of [src] and leaves the rest of [dst] as it was.  When
    one of the two arrays holds fewer than [size] pairs the copy runs off
    the shorter one: off [src] by a read when [src] is not the longer,
    off [dst] by a write otherwise. *)
Theorem CopyHist_copies_prefix (dst src : list GradientPairT) (size : nat) :
  CopyHist dst src size
  = if decide (size ≤ length src ∧ size ≤ length dst)
    then Ok (take size src ++ drop size dst)
    else if decide (length src ≤ length dst)
         then Fault BadRead
         else Fault BadWrite.
Proof.
  unfold CopyHist. cbv zeta. rewrite for_range_double.
  destruct (decide (size ≤ length src ∧ size ≤ length dst)) as [[Hs Hd]|Hno].
  - by apply CopyHist_prefix.
  - set (m := Nat.min (length src) (length dst)).
    pose proof (CopyHist_prefix dst src m ltac:(lia) ltac:(lia)) as Hrun.
    destruct (decide (length src ≤ length dst)) as [Hle|Hgt].
    + apply (for_range_fault_at size m _ _ _ _ ltac:(lia) Hrun).
      cbv beta. unfold flat_read, read. rewrite half_even.
      by rewrite (lookup_ge_None_2 src m) by lia.
    + apply (for_range_fault_at size m _ _ _ _ ltac:(lia) Hrun).
      cbv beta.
      destruct (lookup_lt_is_Some_2 src m ltac:(lia)) as [x Hx].
      destruct (flat_read_pair src m x Hx) as [-> _]. rewrite bind_Ok.
      unfold flat_write. rewrite half_even.
      rewrite lookup_ge_None_2; [done|].
      rewrite length_app, length_take, length_drop. lia.
Qed.

End StoreFacts.

(** An iteration that cannot complete from any state the loop can reach
    stops the loop. *)
Lemma for_each_stuck_inv {A St} (I : St → Prop) (l : list A)
    (body : A → St → res St) s x :
  I s → (∀ y s s', I s → body y s = Ok s' → I s') →
  x ∈ l → (∀ s', I s' → ¬ is_Ok (body x s')) →
  ¬ is_Ok (for_each l body s).
Proof.
  intros Hs Hpres. revert s Hs. induction l as [|y l IH]; intros s Hs Hx Hbody.
  - by apply elem_of_nil in Hx.
  - simpl. destruct (body y s) as [s'|f] eqn:Hy; simpl.
    + apply elem_of_cons in Hx as [->|Hx].
      * exfalso. apply (Hbody s Hs). rewrite Hy. by eexists.
      * apply IH; [by eapply Hpres|done..].
    + by intros [a Ha].
Qed.

Lemma map_zip_lookup_default {A B} (f : A → A → B) (d : A) (l1 l2 : list A) n :
  n ≤ length l1 → n ≤ length l2 →
  map (λ i, f (default d (l1 !! i)) (default d (l2 !! i))) (seq 0 n)
  = zip_with f (take n l1) (take n l2).
Proof.
  intros H1 H2. apply list_eq. intros i.
  rewrite list_lookup_fmap, lookup_zip_with.
  destruct (decide (i < n)) as [Hi|Hi].
  - rewrite lookup_seq_lt, !lookup_take_lt by done. simpl.
    destruct (lookup_lt_is_Some_2 l1 i ltac:(lia)) as [x ->].
    by destruct (lookup_lt_is_Some_2 l2 i ltac:(lia)) as [y ->].
  - by rewrite lookup_seq_ge, !lookup_take_ge by lia.
Qed.

Section StoreFacts2.
Context {ValueT FPType : Type} {ops : FPOps ValueT FPType}.
Local Abbreviation GradientPairT := (GradientPairInternal FPType).

Lemma SubtractionHist_prefix (dst src1 src2 : list GradientPairT) (n : nat) :
  n ≤ length src1 → n ≤ length src2 → n ≤ length dst →
  for_range n
    (λ i pdst,
       d ← (x ← flat_read src1 (2 * i);
            y ← flat_read src2 (2 * i);
            flat_write pdst (2 * i) (fp_sub x y));
       x ← flat_read src1 (2 * i + 1);
       y ← flat_read src2 (2 * i + 1);
       flat_write d (2 * i + 1) (fp_sub x y)) dst
  = Ok (zip_with gp_sub (take n src1) (take n src2) ++ drop n dst).
Proof.
  intros H1 H2 Hd.
  rewrite (for_range_insert
             (λ i, gp_sub (default gp_zero (src1 !! i))
                          (default gp_zero (src2 !! i)))) by
    (try done; intros i d Hi Hlen;
     destruct (lookup_lt_is_Some_2 src1 i ltac:(lia)) as [x Hx];
     destruct (lookup_lt_is_Some_2 src2 i ltac:(lia)) as [y Hy];
     rewrite (SubtractionHist_pair d src1 src2 i x y Hx Hy) by lia;
     by rewrite Hx, Hy).
  by rewrite map_zip_lookup_default.
Qed.

(** X3. [SubtractionHist(dst, src1, src2, size)] replaces the first [size]
    pairs of [dst] by the pairwise differences of the two sources and
    leaves the rest of [dst] as it was.  When one of the three arrays holds
    fewer than [size] pairs the loop runs off the shortest one: by a write
    when that is [dst] alone, by a read otherwise. *)
Theorem SubtractionHist_subtracts_prefix
    (dst src1 src2 : list GradientPairT) (size : nat) :
  SubtractionHist dst src1 src2 size
  = if decide (size ≤ length src1 ∧ size ≤ length src2 ∧ size ≤ length dst)
    then Ok (zip_with gp_sub (take size src1) (take size src2)
             ++ drop size dst)
    else if decide (length dst < length src1 ∧ length dst < length src2)
         then Fault BadWrite
         else Fault BadRead.
Proof.
  unfold SubtractionHist. cbv zeta. rewrite for_range_double.
  destruct (decide (size ≤ length src1 ∧ size ≤ length src2
                    ∧ size ≤ length dst)) as [(H1 & H2 & Hd)|Hno].
  - by apply SubtractionHist_prefix.
  - set (m := Nat.min (length src1) (Nat.min (length src2) (length dst))).
    pose proof (SubtractionHist_prefix dst src1 src2 m
                  ltac:(lia) ltac:(lia) ltac:(lia)) as Hrun.
    destruct (decide (length dst < length src1 ∧ length dst < length src2))
      as [[Hw1 Hw2]|Hr];
      apply (for_range_fault_at size m _ _ _ _ ltac:(lia) Hrun); cbv beta.
    + destruct (lookup_lt_is_Some_2 src1 m ltac:(lia)) as [x Hx].
      destruct (flat_read_pair src1 m x Hx) as [-> _]. rewrite bind_Ok.
      destruct (lookup_lt_is_Some_2 src2 m ltac:(lia)) as [y Hy].
      destruct (flat_read_pair src2 m y Hy) as [-> _]. rewrite bind_Ok.
      unfold flat_write. rewrite half_even.
      rewrite lookup_ge_None_2; [done|].
      rewrite length_app, length_zip_with, !length_take, length_drop. lia.
    + destruct (decide (length src1 ≤ m)) as [Hs1|Hs1].
      { unfold flat_read, read. rewrite (half_even m).
        by rewrite (lookup_ge_None_2 src1 m) by lia. }
      destruct (lookup_lt_is_Some_2 src1 m ltac:(lia)) as [x Hx].
      destruct (flat_read_pair src1 m x Hx) as [-> _]. rewrite bind_Ok.
      unfold flat_read, read. rewrite (half_even m).
      by rewrite (lookup_ge_None_2 src2 m) by lia.
Qed.

(** The inner loop of [ReduceHist] for bin [b]. *)
Lemma ReduceHist_bin (buf : list GradientPairT) (nblocks nbins b : nat) :
  b < nbins → nblocks * nbins ≤ length buf →
  for_range nblocks
    (λ j gpair, x ← read buf (j * nbins + b); mret (gp_add gpair x))
    gp_zero
  = Ok (block_sum buf nblocks nbins b).
Proof.
  intros Hb Hbuf. unfold block_sum.
  destruct (for_range_inv
              (λ m g, g = foldl (λ acc j, gp_add acc
                                   (default gp_zero (buf !! (j * nbins + b))))
                            gp_zero (seq 0 m))
              nblocks
              (λ j gpair, x ← read buf (j * nbins + b); mret (gp_add gpair x))
              gp_zero) as (g & Hrun & ->); [done| |done].
  intros j g Hj ->.
  destruct (lookup_lt_is_Some_2 buf (j * nbins + b) ltac:(nia)) as [x Hx].
  rewrite (read_Some _ _ _ Hx). eexists. split; [done|].
  rewrite seq_S, foldl_app. cbn [foldl Nat.add]. by rewrite Hx.
Qed.

Lemma ReduceHist_ordered (hist buf : list GradientPairT) (nblocks nbins : nat) :
  nbins ≤ length hist → nbins = 0 ∨ nblocks * nbins ≤ length buf →
  ReduceHist hist buf nblocks nbins
  = Ok (map (block_sum buf nblocks nbins) (seq 0 nbins) ++ drop nbins hist).
Proof.
  intros Hh Hbuf. unfold ReduceHist.
  apply for_range_insert; [done|].
  intros b d Hb Hlen. rewrite ReduceHist_bin by lia.
  rewrite bind_Ok. apply write_lt. lia.
Qed.

(** X4. [ReduceHist] completes exactly when the histogram holds [nbins]
    pairs and the buffer holds the [nblocks] slices of [nbins] pairs; bin
    [b] of the histogram is then the pair of zeros to which the entries
    [b] of the slices have been added in the order of the blocks, and the
    pairs of the histogram after the bins are left as they were.  Nothing
    is asked of the arithmetic. *)
Theorem ReduceHist_sums_slices_in_block_order
    (hist buf h' : list GradientPairT) (nblocks nbins : nat) :
  ReduceHist hist buf nblocks nbins = Ok h'
  ↔ nbins ≤ length hist
    ∧ (nbins = 0 ∨ nblocks * nbins ≤ length buf)
    ∧ h' = map (block_sum buf nblocks nbins) (seq 0 nbins) ++ drop nbins hist.
Proof.
  split.
  - intros Hrun.
    assert (nbins ≤ length hist) as Hh.
    { destruct (decide (nbins ≤ length hist)) as [|Hno]; [done|]. exfalso.
      apply (for_each_stuck_inv (λ d, length d = length hist) (seq 0 nbins)
               (λ idx_bin hist_data,
                  gpair ← for_range nblocks
                    (λ j gpair, x ← read buf (j * nbins + idx_bin);
                                mret (gp_add gpair x)) gp_zero;
                  write hist_data idx_bin gpair)
               hist (length hist)); [done| | | |].
      - intros y d d' Hd (g & _ & Hw)%bind_Ok_inv.
        apply write_Ok_inv in Hw as [_ ->]. by rewrite length_insert.
      - apply list_elem_of_In, in_seq. lia.
      - intros d Hd [d' (g & _ & Hw)%bind_Ok_inv].
        apply write_Ok_inv in Hw as [Hw _]. lia.
      - by exists h'. }
    assert (nbins = 0 ∨ nblocks * nbins ≤ length buf) as Hbuf.
    { destruct (decide (nbins = 0)) as [|Hnb]; [by left|]. right.
      destruct (decide (nblocks * nbins ≤ length buf)) as [|Hno]; [done|].
      exfalso.
      apply (for_each_stuck (seq 0 nbins)
               (λ idx_bin hist_data,
                  gpair ← for_range nblocks
                    (λ j gpair, x ← read buf (j * nbins + idx_bin);
                                mret (gp_add gpair x)) gp_zero;
                  write hist_data idx_bin gpair)
               hist (nbins - 1)); [| |by exists h'].
      - apply list_elem_of_In, in_seq. lia.
      - intros d [d' (g & Hg & _)%bind_Ok_inv].
        apply (for_each_stuck (seq 0 nblocks)
                 (λ j gpair, x ← read buf (j * nbins + (nbins - 1));
                             mret (gp_add gpair x))
                 gp_zero (nblocks - 1)); [| |by exists g].
        + apply list_elem_of_In, in_seq. nia.
        + intros g' [g'' (x & Hx%read_Ok & _)%bind_Ok_inv].
          apply lookup_lt_Some in Hx. nia. }
    split_and!; [done..|].
    rewrite ReduceHist_ordered in Hrun by done. by injection Hrun as <-.
  - intros (Hh & Hbuf & ->). by apply ReduceHist_ordered.
Qed.

End StoreFacts2.

(** ** The atomic kernel on a node without rows *)

Section AtomicEmpty.
Context {ValueT FPType : Type} {ops : FPOps ValueT FPType}.
Local Abbreviation GradientPair := (GradientPairInternal ValueT).
Local Abbreviation GradientPairT := (GradientPairInternal FPType).

Lemma fill_flat_overflow (a : list GradientPairT) (n : nat) :
  length a < n → fill_flat a fp_zero (n * 2) = Fault BadWrite.
Proof.
  intros Hn.
  pose proof (fill_flat_spec a (length a) ltac:(lia)) as Hrun.
  unfold fill_flat in *. rewrite Nat.mul_comm, for_range_double in Hrun.
  rewrite Nat.mul_comm, for_range_double.
  apply (for_range_fault_at n (length a) _ _ _ _ Hn Hrun). cbv beta.
  unfold flat_write. rewrite (half_even (length a)).
  rewrite lookup_ge_None_2; [done|].
  rewrite length_app, length_replicate, length_drop. lia.
Qed.

(** X5. On a node without rows the atomic kernel does what [InitHist]
    does on the bins of the histogram: it fills [2 * nbins] scalars with
    zero, which are the first [nbins] pairs, and launches no work-item;
    on a histogram with fewer than [nbins] pairs both write past its
    end. *)
Theorem BuildHistKernel_atomic_empty_node_is_InitHist
    (T : BinIdxType) (isDense : bool) (gpair : list GradientPair)
    (gmat : GHistIndexMatrix) (hist : list GradientPairT)
    (dispatcher : HistDispatcher) :
  work_group_size dispatcher ≠ 0 →
  BuildHistKernel_atomic T isDense gpair [] gmat hist dispatcher
  = InitHist hist (nbins gmat).
Proof.
  intros Hw. unfold BuildHistKernel_atomic, InitHist. cbv zeta.
  rewrite (decide_False (P := work_group_size dispatcher = 0)) by done.
  rewrite bind_Ok.
  destruct (decide (nbins gmat ≤ length hist)) as [Hle|Hgt].
  - by rewrite fill_flat_spec, fill_spec by done.
  - by rewrite fill_flat_overflow, fill_overflow by lia.
Qed.

End AtomicEmpty.

Lemma BuildHistKernel_atomic_empty_node_is_InitHist_witness :
  BuildHistKernel_atomic uint8_t true ex_gpair [] ex_gmat ex_scratch1
    (ex_dispatcher false true)
  = InitHist ex_scratch1 (nbins ex_gmat).
Proof.
  apply (BuildHistKernel_atomic_empty_node_is_InitHist uint8_t true ex_gpair
           ex_gmat ex_scratch1 (ex_dispatcher false true)).
  simpl. lia.
Defined.

(** ** What a completed [FindSplitConditions] has checked *)

Lemma check_Ok_inv (b : bool) u : check b = Ok u → b = true.
Proof. by destruct b. Qed.

Lemma elem_of_range32 (lo hi b : N) : b ∈ range32 lo hi → (lo ≤ b < hi)%N.
Proof.
  unfold range32. intros (k & -> & Hk)%list_elem_of_fmap.
  apply list_elem_of_In, in_seq in Hk. lia.
Qed.

Lemma elem_of_range32_2 (lo hi b : N) : (lo ≤ b < hi)%N → b ∈ range32 lo hi.
Proof.
  intros Hb. unfold range32. apply list_elem_of_fmap.
  exists (N.to_nat b). split; [lia|]. apply list_elem_of_In, in_seq. lia.
Qed.

(** Every iteration of a completed loop has completed. *)
Lemma for_each_Ok_inv {A St} (l : list A) (body : A → St → res St) s s' :
  for_each l body s = Ok s' → ∀ x, x ∈ l → ∃ s1, is_Ok (body x s1).
Proof.
  revert s. induction l as [|y l IH]; intros s H x Hx.
  - by apply elem_of_nil in Hx.
  - simpl in H. apply bind_Ok_inv in H as (s1 & Hy & Hrest).
    apply elem_of_cons in Hx as [->|Hx]; [by exists s, s1|].
    by apply (IH s1).
Qed.

Section SplitConditionsCompleted.
Context {Float : Type} `{!FloatEq Float}.

Lemma scan_bounds_reads (vals : list Float) pt (lo hi : N) (c : Z) :
  scan_bounds vals pt lo hi = Ok c →
  ∀ b, (lo ≤ b < hi)%N → is_Some (vals !! N.to_nat b).
Proof.
  unfold scan_bounds. intros Hrun b Hb.
  destruct (for_each_Ok_inv _ _ _ _ Hrun b (elem_of_range32_2 _ _ _ Hb))
    as (c0 & c1 & (v & Hv%read_Ok & _)%bind_Ok_inv).
  by exists v.
Qed.

Lemma scan_bounds_range (vals : list Float) pt (lo hi : N) (c : Z) :
  (hi ≤ int32_max)%N → scan_bounds vals pt lo hi = Ok c →
  c = (-1)%Z ∨ (Z.of_N lo ≤ c < Z.of_N hi)%Z.
Proof.
  intros Hhi. unfold scan_bounds.
  apply (for_each_pres (λ c, c = (-1)%Z ∨ (Z.of_N lo ≤ c < Z.of_N hi)%Z));
    [|by left].
  intros bound c0 c1 Hin%elem_of_range32 Hc0 (v & _ & Hret)%bind_Ok_inv.
  injection Hret as <-. destruct (feq pt v); [|done].
  right. rewrite to_int32_small by lia. lia.
Qed.

(** X6. When [FindSplitConditions] completes, the vector of split
    conditions has kept its size and its entries after the first
    [nodes.size()]; and for every node the two cut pointers of its split
    feature were read inside [ptrs], the upper one passed the [CHECK_LT]
    against the largest [int32_t], the cut values between the two
    pointers were read inside [vals], and the node's entry is [-1] or a
    bin index of the feature, from the lower pointer up to but excluding
    the upper one: the conversion to [bst_bin_t] produced no other
    negative value. *)
Theorem FindSplitConditions_completed
    (nodes : list ExpandEntry) (tree : RegTree Float) (ptrs : list N)
    (vals : list Float) (split_conditions r : list Z) :
  FindSplitConditions nodes tree ptrs vals split_conditions = Ok r →
  length r = length split_conditions
  ∧ length nodes ≤ length split_conditions
  ∧ drop (length nodes) r = drop (length nodes) split_conditions
  ∧ ∀ i e, nodes !! i = Some e →
      ∃ lo hi c,
        ptrs !! N.to_nat (SplitIndex tree (nid e)) = Some lo
        ∧ ptrs !! N.to_nat (add32 (SplitIndex tree (nid e)) 1) = Some hi
        ∧ (hi < int32_max)%N
        ∧ (∀ b, (lo ≤ b < hi)%N → is_Some (vals !! N.to_nat b))
        ∧ r !! i = Some c
        ∧ (c = (-1)%Z ∨ (Z.of_N lo ≤ c < Z.of_N hi)%Z).
Proof.
  intros Hrun. unfold FindSplitConditions in Hrun.
  pose (P := λ (n : nat) (s : list Z),
    length s = length split_conditions
    ∧ n ≤ length split_conditions
    ∧ (∀ k, n ≤ k → s !! k = split_conditions !! k)
    ∧ ∀ i e, i < n → nodes !! i = Some e →
        ∃ lo hi c,
          ptrs !! N.to_nat (SplitIndex tree (nid e)) = Some lo
          ∧ ptrs !! N.to_nat (add32 (SplitIndex tree (nid e)) 1) = Some hi
          ∧ (hi < int32_max)%N
          ∧ (∀ b, (lo ≤ b < hi)%N → is_Some (vals !! N.to_nat b))
          ∧ s !! i = Some c
          ∧ (c = (-1)%Z ∨ (Z.of_N lo ≤ c < Z.of_N hi)%Z)).
  assert (P (length nodes) r) as (Hlen & Hn & Hframe & Hnodes).
  { eapply (for_range_pres P); [| |exact Hrun].
    - split_and!; [done | lia | done | intros; lia].
    - clear Hrun r. intros i s s' Hi (Hlen & Hn & Hframe & Hnodes) Hbody.
      apply bind_Ok_inv in Hbody as (e & He%read_Ok & Hbody).
      cbv zeta in Hbody.
      apply bind_Ok_inv in Hbody as (lo & Hlo%read_Ok & Hbody).
      apply bind_Ok_inv in Hbody as (hi & Hhi%read_Ok & Hbody).
      apply bind_Ok_inv in Hbody as (u & Hchk%check_Ok_inv%N.ltb_lt & Hbody).
      apply bind_Ok_inv in Hbody as (c & Hc & Hw).
      apply write_Ok_inv in Hw as [Hw ->].
      pose proof (scan_bounds_reads _ _ _ _ _ Hc) as Hvals.
      apply scan_bounds_range in Hc; [|lia].
      split_and!.
      + by rewrite length_insert.
      + lia.
      + intros k Hk. rewrite list_lookup_insert_ne by lia. apply Hframe. lia.
      + intros i' e' Hi' He'. destruct (decide (i' = i)) as [->|Hne].
        * assert (e' = e) as -> by congruence.
          exists lo, hi, c. rewrite list_lookup_insert_eq by done. done.
        * rewrite list_lookup_insert_ne by done. apply Hnodes; [lia|done]. }
  split_and!; [done..| |].
  - apply list_eq. intros k. rewrite !lookup_drop. apply Hframe. lia.
  - intros i e He. apply Hnodes; [|done]. by eapply lookup_lt_Some.
Qed.

End SplitConditionsCompleted.

Lemma FindSplitConditions_completed_witness :
  length [2%Z; 7%Z] = length [9%Z; 7%Z]
  ∧ length ex_nodes ≤ length [9%Z; 7%Z]
  ∧ drop (length ex_nodes) [2%Z; 7%Z] = drop (length ex_nodes) [9%Z; 7%Z]
  ∧ ∀ i e, ex_nodes !! i = Some e →
      ∃ lo hi c,
        ex_ptrs !! N.to_nat (SplitIndex ex_tree (nid e)) = Some lo
        ∧ ex_ptrs !! N.to_nat (add32 (SplitIndex ex_tree (nid e)) 1) = Some hi
        ∧ (hi < int32_max)%N
        ∧ (∀ b, (lo ≤ b < hi)%N → is_Some (ex_vals !! N.to_nat b))
        ∧ [2%Z; 7%Z] !! i = Some c
        ∧ (c = (-1)%Z ∨ (Z.of_N lo ≤ c < Z.of_N hi)%Z).
Proof.
  apply (FindSplitConditions_completed ex_nodes ex_tree ex_ptrs ex_vals
           [9%Z; 7%Z] [2%Z; 7%Z]).
  reflexivity.
Defined.

(** ** The lanes of a work-group share out the columns *)

(** X7. The loop [for (j = feat; j < n_columns; j += work_group_size)] of
    the lanes [feat] of a work-group visits every column exactly once:
    column [j] is visited by the lane [j mod work_group_size] and by no
    other, and no lane visits a column twice. *)
Theorem strided_lanes_partition_columns (n_columns work_group_size : nat) :
  0 < work_group_size →
  (∀ feat, NoDup (strided feat n_columns work_group_size))
  ∧ ∀ j feat, j < n_columns → feat < work_group_size →
      (j ∈ strided feat n_columns work_group_size
       ↔ feat = j mod work_group_size).
Proof.
  intros Hw. split.
  - intros feat. by apply NoDup_stride_from.
  - intros j feat Hj Hfeat. rewrite elem_of_strided by done.
    split; [by intros [_ ->] | by intros ->].
Qed.

Lemma strided_lanes_partition_columns_witness :
  (∀ feat, NoDup (strided feat 5 2))
  ∧ ∀ j feat, j < 5 → feat < 2 →
      (j ∈ strided feat 5 2 ↔ feat = j mod 2).
Proof.
  apply (strided_lanes_partition_columns 5 2). lia.
Defined.

(** * The histogram as a function of the rows of the node *)

#[global] Instance Z_FPGroup : FPGroup Z_FPOps.
Proof. split; simpl; intros; lia. Qed.

Lemma zip_with_map_map {A B C} (f : B → B → C) (g h : A → B) (l : list A) :
  zip_with f (map g l) (map h l) = map (λ x, f (g x) (h x)) l.
Proof. induction l as [|x l IH]; simpl; [done|]. by rewrite IH. Qed.

Section RowSetFacts.
Context {ValueT FPType : Type} {ops : FPOps ValueT FPType}.
Context {exact : FPExact ops}.
Local Abbreviation GradientPair := (GradientPairInternal ValueT).
Local Abbreviation GradientPairT := (GradientPairInternal FPType).
Variable T : BinIdxType.
Variable isDense : bool.
Variable gmat : GHistIndexMatrix.
Variable pgh : list GradientPair.

(** The reads of the kernels are in range when they are for each row. *)
Lemma input_ok_Forall (rid : list nat) :
  input_ok T isDense gmat pgh rid
  ↔ Forall (λ r, ∃ g, pgh !! r = Some g
               ∧ ∀ j, j < num_columns isDense gmat →
                   is_Ok (load_bin T isDense gmat
                            (num_columns isDense gmat * r) j)) rid.
Proof.
  unfold input_ok. rewrite Forall_lookup. split.
  - intros H i r Hi.
    destruct (H i (lookup_lt_Some _ _ _ Hi)) as (r' & g & Hr' & Hg & Hj).
    assert (r' = r) as -> by congruence. by exists g.
  - intros H i Hi. destruct (lookup_lt_is_Some_2 rid i Hi) as [r Hr].
    destruct (H i r Hr) as (g & Hg & Hj). by exists r, g.
Qed.

Lemma input_ok_app (l r : list nat) :
  input_ok T isDense gmat pgh (l ++ r)
  ↔ input_ok T isDense gmat pgh l ∧ input_ok T isDense gmat pgh r.
Proof. rewrite !input_ok_Forall. apply Forall_app. Qed.

Lemma input_ok_Permutation (rid rid' : list nat) :
  rid ≡ₚ rid' → input_ok T isDense gmat pgh rid →
  input_ok T isDense gmat pgh rid'.
Proof. rewrite !input_ok_Forall. intros Hp. by rewrite Hp. Qed.





(** The same for the atomic kernel, whose [uint32_t] index can wrap. *)
Lemma atomic_contrib_lookup (rid rid' : list nat) i i' b j :
  rid !! i = rid' !! i' →
  atomic_contrib T isDense gmat pgh rid b i j
  = atomic_contrib T isDense gmat pgh rid' b i' j.
Proof.
  intros H. unfold atomic_contrib, cell_bin, row_pair, read. by rewrite H.
Qed.

Lemma atomic_hist_spec_app (l r : list nat) b :
  atomic_hist_spec T isDense gmat pgh (l ++ r) b
  = gp_add (atomic_hist_spec T isDense gmat pgh l b)
      (atomic_hist_spec T isDense gmat pgh r b).
Proof.
  unfold atomic_hist_spec. rewrite length_app, seq_app, gp_sum_app. f_equal.
  - apply gp_sum_ext. intros i Hi%list_elem_of_In%in_seq.
    apply gp_sum_ext. intros j _. apply atomic_contrib_lookup.
    by rewrite lookup_app_l by lia.
  - rewrite gp_sum_seq_shift. apply gp_sum_ext. intros i _.
    apply gp_sum_ext. intros j _. apply atomic_contrib_lookup.
    rewrite lookup_app_r by lia. f_equal. lia.
Qed.

Lemma atomic_hist_spec_Permutation (rid rid' : list nat) b :
  rid ≡ₚ rid' →
  atomic_hist_spec T isDense gmat pgh rid b
  = atomic_hist_spec T isDense gmat pgh rid' b.
Proof.
  induction 1 as [|x l l' _ IH|x y l|l1 l2 l3 _ IH1 _ IH2].
  - done.
  - change (x :: l) with ([x] ++ l). change (x :: l') with ([x] ++ l').
    by rewrite !atomic_hist_spec_app, IH.
  - change (y :: x :: l) with ([y] ++ [x] ++ l).
    change (x :: y :: l) with ([x] ++ [y] ++ l).
    rewrite !atomic_hist_spec_app, !gp_add_assoc. f_equal. apply gp_add_comm.
  - by rewrite IH1.
Qed.



Context {group : FPGroup ops}.

Lemma gp_add_sub (x y : GradientPairT) : gp_sub (gp_add x y) y = x.
Proof. destruct x, y. unfold gp_sub, gp_add. simpl. by rewrite !fp_add_sub. Qed.

(** X9. The subtraction trick gives the histogram of the sibling.  When
    the rows of the parent are those of the left child followed by those
    of the right child, in any order, [SubtractionTrick] applied to the
    histogram of the left child and to that of the parent, each built by
    the atomic kernel, leaves in [self] the histogram that the kernel
    builds on the rows of the right child.  Arithmetic is exact, with an
    exact subtraction, and the histograms hold [nbins] pairs. *)
Theorem SubtractionTrick_gives_sibling_histogram
    (parent_rows left_rows right_rows : list nat)
    (hist_parent hist_left hist_right self : list GradientPairT)
    (dispatcher : HistDispatcher) :
  parent_rows ≡ₚ left_rows ++ right_rows →
  input_ok T isDense gmat pgh parent_rows →
  0 < work_group_size dispatcher →
  (N.of_nat (length parent_rows) ≤ int32_max + 1)%N →
  length hist_parent = nbins gmat →
  length hist_left = nbins gmat →
  length hist_right = nbins gmat →
  length self = nbins gmat →
  ∃ hp hl hr,
    BuildHistKernel_atomic T isDense pgh parent_rows gmat hist_parent
      dispatcher = Ok hp
    ∧ BuildHistKernel_atomic T isDense pgh left_rows gmat hist_left
        dispatcher = Ok hl
    ∧ BuildHistKernel_atomic T isDense pgh right_rows gmat hist_right
        dispatcher = Ok hr
    ∧ SubtractionTrick self hl hp = Ok hr.
Proof.
  intros Hp Hok Hw Hsize Hlp Hll Hlr Hls.
  pose proof (input_ok_Permutation _ _ Hp Hok) as [Hokl Hokr]%input_ok_app.
  pose proof (Permutation_length Hp) as Hl. rewrite length_app in Hl.
  exists (atomic_hist_result T isDense gmat pgh parent_rows hist_parent),
         (atomic_hist_result T isDense gmat pgh left_rows hist_left),
         (atomic_hist_result T isDense gmat pgh right_rows hist_right).
  split_and!; [apply BuildHistKernel_atomic_wrapped_spec; (done || lia)..|].
  unfold atomic_hist_result.
  rewrite !drop_ge, !app_nil_r by lia.
  unfold SubtractionTrick.
  rewrite !length_map, !length_seq, Hls, Nat.eqb_refl. simpl.
  unfold SubtractionHist. cbv zeta. rewrite for_range_double.
  rewrite SubtractionHist_prefix by (rewrite ?length_map, ?length_seq; lia).
  rewrite drop_ge, app_nil_r by lia.
  rewrite !firstn_all2 by (rewrite length_map, length_seq; lia).
  rewrite zip_with_map_map. f_equal. apply map_ext. intros b.
  rewrite (atomic_hist_spec_Permutation _ _ b Hp), atomic_hist_spec_app.
  rewrite gp_add_comm. apply gp_add_sub.
Qed.

End RowSetFacts.

Lemma ex_input_ok2 (r : nat) :
  r < 2 → input_ok uint8_t true ex_gmat2 ex_gpair2 [r].
Proof.
  intros Hr i Hi. assert (i = 0) as -> by (simpl in Hi; lia).
  assert (r = 0 ∨ r = 1) as [-> | ->] by lia.
  - exists 0, (MkGradientPair 1 1)%Z. split_and!; [done..|].
    intros j Hj.
    assert (j = 0 ∨ j = 1) as [-> | ->] by (simpl in Hj; lia); by eexists.
  - exists 1, (MkGradientPair 2 3)%Z. split_and!; [done..|].
    intros j Hj.
    assert (j = 0 ∨ j = 1) as [-> | ->] by (simpl in Hj; lia); by eexists.
Defined.

Lemma ex_input_ok2_rows : input_ok uint8_t true ex_gmat2 ex_gpair2 [0; 1].
Proof.
  apply (input_ok_app uint8_t true ex_gmat2 ex_gpair2 [0] [1]).
  split; [exact (ex_input_ok2 0 ltac:(lia)) | exact (ex_input_ok2 1 ltac:(lia))].
Defined.


Lemma SubtractionTrick_gives_sibling_histogram_witness :
  ∃ hp hl hr,
    BuildHistKernel_atomic uint8_t true ex_gpair2 [0; 1] ex_gmat2 ex_hist
      (ex_dispatcher false true) = Ok hp
    ∧ BuildHistKernel_atomic uint8_t true ex_gpair2 [1] ex_gmat2 ex_scratch1
        (ex_dispatcher false true) = Ok hl
    ∧ BuildHistKernel_atomic uint8_t true ex_gpair2 [0] ex_gmat2 ex_scratch2
        (ex_dispatcher false true) = Ok hr
    ∧ SubtractionTrick ex_hist hl hp = Ok hr.
Proof.
  apply (SubtractionTrick_gives_sibling_histogram uint8_t true ex_gmat2
           ex_gpair2 [0; 1] [1] [0] ex_hist ex_scratch1 ex_scratch2 ex_hist
           (ex_dispatcher false true)).
  - apply perm_swap.
  - exact ex_input_ok2_rows.
  - simpl. lia.
  - by vm_compute.
  - reflexivity.
  - reflexivity.
  - reflexivity.
  - reflexivity.
Defined.

(** * The entry point *)

Section EntryPoint.
Context {ValueT FPType : Type} {ops : FPOps ValueT FPType}.
Context {exact : FPExact ops}.
Context {DeviceProperties : Type}.
Variable HistDispatcher_new :
  DeviceProperties → bool → nat → nat → nat → nat → nat → nat → HistDispatcher.
Local Abbreviation GradientPair := (GradientPairInternal ValueT).
Local Abbreviation GradientPairT := (GradientPairInternal FPType).

(** X10. [GHistBuilder::BuildHist] builds the histogram of the node
    whatever configuration the dispatcher chooses, as long as that
    configuration fits the input: the matrix has bins, the reads at the
    index type of the selected kernel are in range, the work-group is not
    empty and the histogram holds [nbins] pairs; when the atomic kernel is
    selected there are at most [2^31] rows, which its [int] row counter
    can hold, and at most [2^31] bins, for which its [uint32_t] index
    [2 * idx_bin] does not wrap; otherwise the blocks
    cover the rows and are no more than the [max_n_blocks] that
    [BuildHistDispatchKernel] computed from the size of the buffer; and
    when the kernel with local bins is selected the matrix is well formed
    and the local arrays hold [max_num_bins] pairs.  Arithmetic is
    exact. *)
Theorem BuildHist_computes_histogram
    (gpair : list GradientPair) (row_indices : list nat)
    (gmat : GHistIndexMatrix) (isDense : bool)
    (hist hist_buffer : list GradientPairT)
    (device_prop : DeviceProperties) (force_atomic_use : bool)
    (hist_fast0 : nat → nat → list GradientPairT)
    (dispatcher : HistDispatcher) (call : KernelCall) (T : BinIdxType) :
  nbins gmat ≠ 0 →
  dispatcher
  = HistDispatcher_new device_prop isDense (length row_indices)
      (length hist_buffer / nbins gmat) (nbins gmat)
      (num_columns isDense gmat) (max_num_bins gmat) (min_num_bins gmat) →
  call = BuildHistKernel_call gmat dispatcher isDense force_atomic_use →
  T = KernelCall_BinIdxType call →
  input_ok T isDense gmat gpair row_indices →
  0 < work_group_size dispatcher →
  nbins gmat ≤ length hist →
  (KernelCall_variant call = VariantC →
   (N.of_nat (length row_indices) ≤ int32_max + 1)%N
   ∧ (N.of_nat (nbins gmat) ≤ int32_max + 1)%N) →
  (KernelCall_variant call ≠ VariantC →
   length row_indices ≤ nblocks (block dispatcher) * size (block dispatcher)
   ∧ nblocks (block dispatcher) ≤ length hist_buffer / nbins gmat) →
  (KernelCall_variant call = VariantB →
   cut_ptrs_wf gmat ∧ max_num_bins_wf gmat
   ∧ dense_bins_wf T gmat row_indices
   ∧ ∀ block feat, max_num_bins gmat ≤ length (hist_fast0 block feat)) →
  ∃ buf,
    BuildHist HistDispatcher_new gpair row_indices gmat isDense hist
      hist_buffer device_prop force_atomic_use hist_fast0
    = Ok (hist_result T isDense gmat gpair row_indices hist, buf).
Proof.
  intros Hnb Hd Hcall HT Hok Hw Hlen HC HAB HB.
  assert (∀ nb, nb ≤ length hist_buffer / nbins gmat →
            nb * nbins gmat ≤ length hist_buffer) as Hfit.
  { intros nb Hle.
    pose proof (Nat.Div0.mul_div_le (length hist_buffer) (nbins gmat)). nia. }
  unfold BuildHist. rewrite BuildHistKernel_runs_call.
  unfold BuildHistDispatchKernel_dispatcher. cbv zeta.
  rewrite (decide_False (P := nbins gmat = 0)) by done. rewrite bind_Ok.
  change (if isDense then nfeatures gmat else row_stride gmat)
    with (num_columns isDense gmat).
  rewrite <- Hd. change (mret dispatcher) with (Ok dispatcher).
  rewrite bind_Ok, <- Hcall. clear Hd.
  destruct call as [T'|T' d|T' d] eqn:Hcall'; simpl in *; subst T.
  - assert (isDense = true) as ->.
    { revert Hcall. unfold BuildHistKernel_call, BuildHistDispatchKernel_branch.
      by destruct (GetBinTypeSize gmat), (use_atomics dispatcher),
        force_atomic_use, isDense, (use_local_hist dispatcher). }
    destruct (HAB ltac:(done)) as [Hcover Hbuf%Hfit].
    destruct (HB eq_refl) as (Hcuts & Hmaxb & Hdense & Hhf).
    by apply BuildHistKernelLocal_spec.
  - assert (d = isDense) as ->.
    { revert Hcall. unfold BuildHistKernel_call, BuildHistDispatchKernel_branch.
      destruct (GetBinTypeSize gmat), (use_atomics dispatcher),
        force_atomic_use, isDense, (use_local_hist dispatcher);
        simpl; congruence. }
    destruct (HAB ltac:(done)) as [Hcover Hbuf%Hfit].
    by apply BuildHistKernel_buffered_spec.
  - assert (d = isDense) as ->.
    { revert Hcall. unfold BuildHistKernel_call, BuildHistDispatchKernel_branch.
      destruct (GetBinTypeSize gmat), (use_atomics dispatcher),
        force_atomic_use, isDense, (use_local_hist dispatcher);
        simpl; congruence. }
    destruct (HC eq_refl) as [Hsize Hbins].
    rewrite BuildHistKernel_atomic_spec by done. rewrite bind_Ok.
    by eexists.
Qed.

End EntryPoint.

Lemma BuildHist_computes_histogram_witness :
  ∃ buf,
    BuildHist ex_HistDispatcher_new ex_gpair ex_rows ex_gmat true ex_hist
      ex_scratch1 tt false ex_hist_fast1
    = Ok (hist_result uint8_t true ex_gmat ex_gpair ex_rows ex_hist, buf).
Proof.
  apply (BuildHist_computes_histogram ex_HistDispatcher_new ex_gpair ex_rows
           ex_gmat true ex_hist ex_scratch1 tt false ex_hist_fast1
           (ex_HistDispatcher_new tt true 1 1 2 2 1 1)
           (Call_BuildHistKernelLocal uint8_t) uint8_t).
  - simpl. lia.
  - reflexivity.
  - reflexivity.
  - reflexivity.
  - exact ex_input_ok.
  - simpl. lia.
  - simpl. lia.
  - simpl. intros [=].
  - intros _. by vm_compute.
  - simpl. intros _. split_and!.
    + exact ex_cut_ptrs_wf.
    + exact ex_max_num_bins_wf.
    + exact ex_dense_bins_wf.
    + intros block feat. simpl. lia.
Defined.

(** * What a build leaves alone *)

Lemma ends_in_bind {A B} (J : A → Prop) (I : B → Prop) (m : res A)
    (k : A → res B) :
  ends_in J m → (∀ a, m = Ok a → J a → ends_in I (k a)) →
  ends_in I (m ≫= k).
Proof. destruct m; simpl; [|done]. intros HJ Hk. by apply Hk. Qed.

Lemma ends_in_True {A} (r : res A) : ends_in (λ _, True) r.
Proof. by destruct r. Qed.

Lemma ends_in_mono {A} (I J : A → Prop) (r : res A) :
  (∀ a, I a → J a) → ends_in I r → ends_in J r.
Proof. destruct r; simpl; [|done]. intros H. apply H. Qed.

Lemma ends_in_Ok {A} (I : A → Prop) (r : res A) a :
  ends_in I r → r = Ok a → I a.
Proof. by intros H ->. Qed.

Lemma for_each_ends_in {A St} (I : St → Prop) (l : list A)
    (body : A → St → res St) s :
  (∀ x s, x ∈ l → I s → ends_in I (body x s)) → I s →
  ends_in I (for_each l body s).
Proof.
  revert s. induction l as [|x l IH]; intros s Hbody Hs; simpl; [done|].
  eapply ends_in_bind; [apply Hbody; [by left | done]|].
  intros s' _ Hs'. apply IH; [|done]. intros y s'' Hy. apply Hbody. by right.
Qed.

Lemma for_range_ends_in {St} (I : St → Prop) n (body : nat → St → res St) s :
  (∀ i s, i < n → I s → ends_in I (body i s)) → I s →
  ends_in I (for_range n body s).
Proof.
  intros Hbody. apply for_each_ends_in.
  intros i s' Hi%list_elem_of_In%in_seq. apply Hbody. lia.
Qed.

Lemma parallel_for2_ends_in {St} (I : St → Prop) n m
    (body : nat → nat → St → res St) s :
  (∀ a b s, a < n → b < m → I s → ends_in I (body a b s)) → I s →
  ends_in I (parallel_for2 n m body s).
Proof.
  intros Hbody. unfold parallel_for2. apply for_range_ends_in.
  intros a s' Ha. apply for_range_ends_in. intros b s'' Hb. by apply Hbody.
Qed.

Lemma same_from_insert {A} (n i : nat) (x : A) (h hist : list A) :
  i < n → same_from n h hist → same_from n (<[i:=x]> h) hist.
Proof.
  intros Hi [Hl Hk]. split; [by rewrite length_insert|].
  intros k Hnk. rewrite list_lookup_insert_ne by lia. by apply Hk.
Qed.

Lemma same_from_drop {A} (n : nat) (h hist : list A) :
  same_from n h hist → length h = length hist ∧ drop n h = drop n hist.
Proof.
  intros [Hl Hk]. split; [done|]. apply list_eq. intros k.
  rewrite !lookup_drop. apply Hk. lia.
Qed.

Lemma write_ends_in_length {A} (a : list A) i x :
  ends_in (λ a', length a' = length a) (write a i x).
Proof. unfold write. case_decide; simpl; [|done]. by rewrite length_insert. Qed.

Section FrameFacts.
Context {ValueT FPType : Type} {ops : FPOps ValueT FPType}.
Local Abbreviation GradientPair := (GradientPairInternal ValueT).
Local Abbreviation GradientPairT := (GradientPairInternal FPType).

Lemma accumulate_ends_in_length (a : list GradientPairT) i v :
  ends_in (λ a', length a' = length a) (accumulate a i v).
Proof.
  unfold accumulate. destruct (a !! i); simpl; [|done].
  by rewrite length_insert.
Qed.

Lemma accumulate_same_from n (h hist : list GradientPairT) i v :
  i < n → same_from n h hist →
  ends_in (λ h', same_from n h' hist) (accumulate h i v).
Proof.
  intros Hi Hh. unfold accumulate. destruct (h !! i); simpl; [|done].
  by apply same_from_insert.
Qed.

Lemma flat_write_same_from n (h hist : list GradientPairT) i v :
  i < n * 2 → same_from n h hist →
  ends_in (λ h', same_from n h' hist) (flat_write h i v).
Proof.
  intros Hi Hh. unfold flat_write. destruct (h !! (i / 2)); [|exact I].
  cbn [ends_in]. apply same_from_insert; [|done].
  apply Nat.Div0.div_lt_upper_bound. lia.
Qed.

Lemma ReduceHist_same_from (hist buf : list GradientPairT) nblocks nbins :
  ends_in (λ h, same_from nbins h hist) (ReduceHist hist buf nblocks nbins).
Proof.
  unfold ReduceHist. apply for_range_ends_in; [|by split].
  intros idx_bin h Hidx Hh.
  eapply ends_in_bind; [apply ends_in_True|]. intros g _ _.
  unfold write. case_decide; simpl; [|done]. by apply same_from_insert.
Qed.

Lemma BuildHistKernel_buffered_ends_in
    (T : BinIdxType) (isDense : bool) (gpair : list GradientPair)
    (row_indices : list nat) (gmat : GHistIndexMatrix)
    (hist hist_buffer : list GradientPairT) (dispatcher : HistDispatcher) :
  ends_in (λ r, same_from (nbins gmat) r.1 hist
                ∧ length r.2 = length hist_buffer)
    (BuildHistKernel_buffered T isDense gpair row_indices gmat hist
       hist_buffer dispatcher).
Proof.
  unfold BuildHistKernel_buffered. cbv zeta.
  eapply (ends_in_bind (λ b, length b = length hist_buffer)).
  { unfold fill. apply for_range_ends_in; [|done]. intros i a _ Ha.
    eapply ends_in_mono; [|apply write_ends_in_length]. simpl. congruence. }
  intros b0 _ Hb0.
  eapply (ends_in_bind (λ b, length b = length hist_buffer)).
  { apply parallel_for2_ends_in; [|done]. intros block feat a _ _ Ha.
    unfold BuildHistKernel_buffered_item. cbv zeta.
    apply for_range_ends_in; [|done]. intros idx a1 _ Ha1.
    case_decide; [|done].
    eapply ends_in_bind; [apply ends_in_True|]. intros r _ _.
    eapply ends_in_bind; [apply ends_in_True|]. intros g _ _.
    apply for_each_ends_in; [|done]. intros j a2 _ Ha2.
    eapply ends_in_bind; [apply ends_in_True|]. intros k _ _.
    case_decide; [|done].
    eapply ends_in_mono; [|apply accumulate_ends_in_length].
    simpl. congruence. }
  intros b1 _ Hb1.
  eapply ends_in_bind; [apply ReduceHist_same_from|].
  intros h _ Hh. by split.
Qed.

Lemma BuildHistKernelLocal_ends_in
    (T : BinIdxType) (gpair : list GradientPair) (row_indices : list nat)
    (gmat : GHistIndexMatrix) (hist hist_buffer : list GradientPairT)
    (dispatcher : HistDispatcher)
    (hist_fast0 : nat → nat → list GradientPairT) :
  ends_in (λ r, same_from (nbins gmat) r.1 hist
                ∧ length r.2 = length hist_buffer)
    (BuildHistKernelLocal T gpair row_indices gmat hist hist_buffer
       dispatcher hist_fast0).
Proof.
  unfold BuildHistKernelLocal. cbv zeta.
  eapply (ends_in_bind (λ b, length b = length hist_buffer)).
  { apply parallel_for2_ends_in; [|done]. intros block feat a _ _ Ha.
    unfold BuildHistKernelLocal_item.
    eapply (ends_in_bind (λ s, length s.2 = length hist_buffer)).
    - apply for_each_ends_in; [|done]. intros fid [hf a1] _ Ha1.
      simpl in Ha1. unfold BuildHistKernelLocal_feature. cbv zeta.
      eapply ends_in_bind; [apply ends_in_True|]. intros o1 _ _.
      eapply ends_in_bind; [apply ends_in_True|]. intros o0 _ _.
      eapply ends_in_bind; [apply ends_in_True|]. intros hf1 _ _.
      eapply ends_in_bind; [apply ends_in_True|]. intros hf2 _ _.
      eapply (ends_in_bind (λ b, length b = length hist_buffer)).
      + apply for_range_ends_in; [|done]. intros bin a2 _ Ha2.
        eapply ends_in_bind; [apply ends_in_True|]. intros x _ _.
        eapply ends_in_mono; [|apply write_ends_in_length].
        simpl. congruence.
      + intros a2 _ Ha2. done.
    - intros [hf a1] _ Ha1. done. }
  intros b1 _ Hb1.
  eapply ends_in_bind; [apply ReduceHist_same_from|].
  intros h _ Hh. by split.
Qed.

Lemma BuildHistKernel_atomic_ends_in
    (T : BinIdxType) (isDense : bool) (gpair : list GradientPair)
    (row_indices : list nat) (gmat : GHistIndexMatrix)
    (hist : list GradientPairT) (dispatcher : HistDispatcher) :
  ends_in (λ h, same_from (nbins gmat) h hist)
    (BuildHistKernel_atomic T isDense gpair row_indices gmat hist
       dispatcher).
Proof.
  unfold BuildHistKernel_atomic. cbv zeta.
  eapply ends_in_bind; [apply ends_in_True|]. intros _ _ _.
  eapply (ends_in_bind (λ h, same_from (nbins gmat) h hist)).
  { unfold fill_flat. apply for_range_ends_in; [|by split].
    intros i a Hi Ha. by apply flat_write_same_from. }
  intros h0 _ Hh0.
  apply parallel_for2_ends_in; [|done]. intros gid group_id a _ _ Ha.
  apply for_range_ends_in; [|done]. intros local_id a1 _ Ha1.
  unfold BuildHistKernel_atomic_item. cbv zeta.
  eapply ends_in_bind; [apply ends_in_True|]. intros r _ _.
  eapply ends_in_bind; [apply ends_in_True|]. intros g0 _ _.
  eapply ends_in_bind; [apply ends_in_True|]. intros g1 _ _.
  case_decide; [|done].
  eapply ends_in_bind; [apply ends_in_True|]. intros k _ _.
  case_decide; [|done]. cbn [fst snd].
  rewrite atomic_index_even, atomic_index_odd, atomic_add_pair.
  pose proof (N.Div0.mod_le k 2147483648) as Hmod.
  apply accumulate_same_from; [lia | done].
Qed.

Context {DeviceProperties : Type}.
Variable HistDispatcher_new :
  DeviceProperties → bool → nat → nat → nat → nat → nat → nat → HistDispatcher.

(** X11. A build through [GHistBuilder::BuildHist] that completes has
    changed nothing but the bins: the histogram has kept its size and its
    pairs from [nbins] on, and the buffer has kept its size, whichever
    kernel the dispatcher selected.  Nothing is asked of the arithmetic or
    of the input. *)
Theorem BuildHist_keeps_what_follows_the_bins
    (gpair : list GradientPair) (row_indices : list nat)
    (gmat : GHistIndexMatrix) (isDense : bool)
    (hist hist_buffer : list GradientPairT)
    (device_prop : DeviceProperties) (force_atomic_use : bool)
    (hist_fast0 : nat → nat → list GradientPairT)
    (hist' hist_buffer' : list GradientPairT) :
  BuildHist HistDispatcher_new gpair row_indices gmat isDense hist
    hist_buffer device_prop force_atomic_use hist_fast0
  = Ok (hist', hist_buffer') →
  length hist' = length hist
  ∧ drop (nbins gmat) hist' = drop (nbins gmat) hist
  ∧ length hist_buffer' = length hist_buffer.
Proof.
  unfold BuildHist. rewrite BuildHistKernel_runs_call.
  intros (dispatcher & _ & Hrun)%bind_Ok_inv.
  assert (same_from (nbins gmat) hist' hist
          ∧ length hist_buffer' = length hist_buffer) as [Hh Hb].
  { revert Hrun. unfold launch.
    destruct (BuildHistKernel_call _ _ _ _) as [T|T d|T d]; intros Hrun.
    - apply (ends_in_Ok _ _ _
               (BuildHistKernelLocal_ends_in T gpair row_indices gmat hist
                  hist_buffer dispatcher hist_fast0) Hrun).
    - apply (ends_in_Ok _ _ _
               (BuildHistKernel_buffered_ends_in T d gpair row_indices gmat
                  hist hist_buffer dispatcher) Hrun).
    - apply bind_Ok_inv in Hrun as (h & Hh & [= <- <-]).
      split; [|done].
      apply (ends_in_Ok _ _ _
               (BuildHistKernel_atomic_ends_in T d gpair row_indices gmat
                  hist dispatcher) Hh). }
  apply same_from_drop in Hh as [Hl Hd]. done.
Qed.

End FrameFacts.

Lemma BuildHist_keeps_what_follows_the_bins_witness :
  length [MkGradientPair 1 1; MkGradientPair 1 1; MkGradientPair 4 5]%Z
  = length (ex_hist ++ [MkGradientPair 4 5]%Z)
  ∧ drop (nbins ex_gmat)
      [MkGradientPair 1 1; MkGradientPair 1 1; MkGradientPair 4 5]%Z
    = drop (nbins ex_gmat) (ex_hist ++ [MkGradientPair 4 5]%Z)
  ∧ length [MkGradientPair 1 1; MkGradientPair 1 1]%Z = length ex_scratch1.
Proof.
  apply (BuildHist_keeps_what_follows_the_bins ex_HistDispatcher_new ex_gpair
           ex_rows ex_gmat true (ex_hist ++ [MkGradientPair 4 5]%Z)
           ex_scratch1 tt false ex_hist_fast1).
  reflexivity.
Defined.

(** * The buffered kernel does not depend on what its arrays held *)

Lemma for_each_rel {A S1 S2} (R : S1 → S2 → Prop) (l : list A)
    (body1 : A → S1 → res S1) (body2 : A → S2 → res S2) s1 s2 :
  R s1 s2 →
  (∀ x s1 s2, x ∈ l → R s1 s2 → rel_res R (body1 x s1) (body2 x s2)) →
  rel_res R (for_each l body1 s1) (for_each l body2 s2).
Proof.
  revert s1 s2. induction l as [|x l IH]; intros s1 s2 Hs Hbody; simpl; [done|].
  apply (rel_res_bind R).
  - apply Hbody; [by left | done].
  - intros a b Hab. apply IH; [done|]. intros y t1 t2 Hy. apply Hbody. by right.
Qed.

Lemma fill_agree {A} (a b : list A) (v : A) (n : nat) :
  length a = length b →
  rel_res (agree (λ p, p < n)) (fill a v n) (fill b v n).
Proof.
  intros Hl. destruct (decide (n ≤ length a)) as [Hn|Hn].
  - rewrite !fill_spec by lia. simpl. split.
    + rewrite !length_app, !length_replicate, !length_drop. lia.
    + intros p Hp. by rewrite !lookup_app_l by (rewrite length_replicate; lia).
  - by rewrite !fill_overflow by lia.
Qed.

Section BufferedTwoRuns.
Context {ValueT FPType : Type} {ops : FPOps ValueT FPType}.
Local Abbreviation GradientPair := (GradientPairInternal ValueT).
Local Abbreviation GradientPairT := (GradientPairInternal FPType).

Lemma accumulate_agree (W : nat → Prop) (a b : list GradientPairT) k v :
  agree W a b → rel_res (agree W) (accumulate a k v) (accumulate b k v).
Proof.
  intros [Hl Hag]. unfold accumulate.
  destruct (a !! k) as [x1|] eqn:H1, (b !! k) as [x2|] eqn:H2; simpl.
  - split; [by rewrite !length_insert|]. intros p Hp.
    destruct (decide (p = k)) as [->|Hne].
    + rewrite !list_lookup_insert_eq by (by eapply lookup_lt_Some).
      specialize (Hag k Hp). congruence.
    + rewrite !list_lookup_insert_ne by done. by apply Hag.
  - apply lookup_lt_Some in H1. apply lookup_ge_None in H2. lia.
  - apply lookup_lt_Some in H2. apply lookup_ge_None in H1. lia.
  - done.
Qed.

(** [ReduceHist] on two buffers that agree on the slices and two
    histograms that agree after the bins. *)
Lemma ReduceHist_two_runs (hist1 hist2 buf1 buf2 : list GradientPairT)
    (nblocks nbins : nat) :
  agree (λ p, p < nblocks * nbins) buf1 buf2 →
  same_from nbins hist1 hist2 →
  rel_res eq (ReduceHist hist1 buf1 nblocks nbins)
             (ReduceHist hist2 buf2 nblocks nbins).
Proof.
  intros [Hbl Hbuf] [Hhl Hhist]. unfold ReduceHist.
  eapply rel_res_mono; last first.
  - apply (for_range_rel
             (λ m (h1 h2 : list GradientPairT),
                length h1 = length h2
                ∧ ∀ p, p < m ∨ nbins ≤ p → h1 !! p = h2 !! p)).
    + split; [done|]. intros p [Hp|Hp]; [lia | by apply Hhist].
    + intros b h1 h2 Hb [Hl Hag].
      assert (for_range nblocks
                (λ j gpair, x ← read buf1 (j * nbins + b);
                            mret (gp_add gpair x)) gp_zero
              = for_range nblocks
                  (λ j gpair, x ← read buf2 (j * nbins + b);
                              mret (gp_add gpair x)) gp_zero) as ->.
      { apply for_range_ext. intros j g Hj. unfold read.
        rewrite Hbuf; [done | nia]. }
      apply rel_res_bind_same. intros g _.
      unfold write. rewrite <- Hl. case_decide; simpl; [|done].
      split; [by rewrite !length_insert|]. intros p Hp.
      destruct (decide (p = b)) as [->|Hne].
      * by rewrite !list_lookup_insert_eq by lia.
      * rewrite !list_lookup_insert_ne by done. apply Hag. lia.
  - intros h1 h2 [Hl Hag]. apply list_eq. intros p. apply Hag. lia.
Qed.

(** X12. The histogram that the buffered kernel builds depends neither
    on what the buffer held nor on what the bins of the histogram held:
    two runs on buffers of the same size and on histograms that agree
    after the bins build the same histogram, or stop with the same
    fault.  The kernel fills the slices with zeros before it accumulates
    and [ReduceHist] assigns every bin.  The atomic kernel, which fills
    the bins with zeros first, ends alike on two such histograms.  Nothing
    is asked of the arithmetic or of the input. *)
Theorem BuildHist_kernels_ignore_old_contents
    (T : BinIdxType) (isDense : bool) (gpair : list GradientPair)
    (row_indices : list nat) (gmat : GHistIndexMatrix)
    (hist1 hist2 hist_buffer1 hist_buffer2 : list GradientPairT)
    (dispatcher : HistDispatcher) :
  length hist_buffer1 = length hist_buffer2 →
  same_from (nbins gmat) hist1 hist2 →
  rel_res (λ r1 r2, r1.1 = r2.1)
    (BuildHistKernel_buffered T isDense gpair row_indices gmat hist1
       hist_buffer1 dispatcher)
    (BuildHistKernel_buffered T isDense gpair row_indices gmat hist2
       hist_buffer2 dispatcher)
  ∧ BuildHistKernel_atomic T isDense gpair row_indices gmat hist1 dispatcher
    = BuildHistKernel_atomic T isDense gpair row_indices gmat hist2
        dispatcher.
Proof.
  intros Hbuf Hhist. split; last first.
  { unfold BuildHistKernel_atomic. cbv zeta.
    pose proof (same_from_drop _ _ _ Hhist) as [Hl Hd].
    destruct (decide (work_group_size dispatcher = 0)); [done|].
    rewrite !bind_Ok.
    destruct (decide (nbins gmat ≤ length hist1)) as [Hn|Hn].
    - by rewrite !fill_flat_spec, Hd by lia.
    - by rewrite !fill_flat_overflow by lia. }
  unfold BuildHistKernel_buffered. cbv zeta.
  set (nb := nblocks (block dispatcher)).
  set (W := λ p, p < nb * nbins gmat).
  apply (rel_res_bind (agree W)); [by apply fill_agree|].
  intros a0 b0 Hab0.
  apply (rel_res_bind (agree W)).
  - unfold parallel_for2.
    apply (for_range_rel (λ _, agree W)); [done|]. intros block a b _ Hab.
    apply (for_range_rel (λ _, agree W)); [done|]. intros feat a1 b1 _ Hab1.
    unfold BuildHistKernel_buffered_item. cbv zeta.
    apply (for_range_rel (λ _, agree W)); [done|]. intros idx a2 b2 _ Hab2.
    case_decide; [|done].
    apply rel_res_bind_same. intros r _.
    apply rel_res_bind_same. intros g _.
    apply for_each_rel; [done|]. intros j a3 b3 _ Hab3.
    apply rel_res_bind_same. intros k _.
    case_decide; [|done]. by apply accumulate_agree.
  - intros a1 b1 Hab1.
    apply (rel_res_bind eq); [by apply ReduceHist_two_runs|].
    by intros h ? <-.
Qed.

End BufferedTwoRuns.

Lemma ex_scratch_same_from : same_from (nbins ex_gmat) ex_scratch1 ex_scratch2.
Proof.
  split; [reflexivity|]. intros k Hk. simpl in Hk.
  by rewrite !lookup_ge_None_2 by (simpl; lia).
Defined.

Lemma BuildHist_kernels_ignore_old_contents_witness :
  rel_res (λ r1 r2, r1.1 = r2.1)
    (BuildHistKernel_buffered uint8_t true ex_gpair ex_rows ex_gmat
       ex_scratch1 ex_scratch1 (ex_dispatcher false false))
    (BuildHistKernel_buffered uint8_t true ex_gpair ex_rows ex_gmat
       ex_scratch2 ex_scratch2 (ex_dispatcher false false))
  ∧ BuildHistKernel_atomic uint8_t true ex_gpair ex_rows ex_gmat ex_scratch1
      (ex_dispatcher false false)
    = BuildHistKernel_atomic uint8_t true ex_gpair ex_rows ex_gmat ex_scratch2
        (ex_dispatcher false false).
Proof.
  apply (BuildHist_kernels_ignore_old_contents uint8_t true ex_gpair
           ex_rows ex_gmat ex_scratch1 ex_scratch2 ex_scratch1 ex_scratch2
           (ex_dispatcher false false)).
  - reflexivity.
  - exact ex_scratch_same_from.
Defined.

(** * Rows that the blocks do not cover *)

Lemma bind_ext {A B} (m : res A) (k1 k2 : A → res B) :
  (∀ a, m = Ok a → k1 a = k2 a) → m ≫= k1 = m ≫= k2.
Proof. destruct m; simpl; [|done]. intros H. by apply H. Qed.

Lemma parallel_for2_ext {St} n m (f g : nat → nat → St → res St) s :
  (∀ a b s, a < n → b < m → f a b s = g a b s) →
  parallel_for2 n m f s = parallel_for2 n m g s.
Proof.
  intros H. unfold parallel_for2. apply for_range_ext. intros a s' Ha.
  apply for_range_ext. intros b s'' Hb. by apply H.
Qed.

Section UncoveredRows.
Context {ValueT FPType : Type} {ops : FPOps ValueT FPType}.
Local Abbreviation GradientPair := (GradientPairInternal ValueT).
Local Abbreviation GradientPairT := (GradientPairInternal FPType).

(** X13. The kernels with a buffer visit the rows through the blocks of
    the dispatcher: the rows of the node from position [nblocks *
    block.size] on are never read, so the build ends as it does on the
    node cut down to its first [nblocks * block.size] rows.  Nothing is
    asked of the arithmetic or of the input. *)
Theorem BuildHist_buffered_kernels_ignore_uncovered_rows
    (T : BinIdxType) (isDense : bool) (gpair : list GradientPair)
    (row_indices : list nat) (gmat : GHistIndexMatrix)
    (hist hist_buffer : list GradientPairT) (dispatcher : HistDispatcher)
    (hist_fast0 : nat → nat → list GradientPairT) :
  let covered := nblocks (block dispatcher) * size (block dispatcher) in
  BuildHistKernel_buffered T isDense gpair row_indices gmat hist hist_buffer
    dispatcher
  = BuildHistKernel_buffered T isDense gpair (take covered row_indices) gmat
      hist hist_buffer dispatcher
  ∧ BuildHistKernelLocal T gpair row_indices gmat hist hist_buffer dispatcher
      hist_fast0
    = BuildHistKernelLocal T gpair (take covered row_indices) gmat hist
        hist_buffer dispatcher hist_fast0.
Proof.
  intros covered. unfold covered.
  set (nb := nblocks (block dispatcher)).
  set (bs := size (block dispatcher)).
  assert (∀ block idx, block < nb → idx < bs →
            block * bs + idx < nb * bs) as Hin by (intros; nia).
  split.
  - unfold BuildHistKernel_buffered. cbv zeta. fold nb bs.
    apply bind_ext. intros b0 _. f_equal.
    apply parallel_for2_ext. intros block feat b Hblock _.
    unfold BuildHistKernel_buffered_item. cbv zeta.
    apply for_range_ext. intros idx b1 Hidx.
    specialize (Hin block idx Hblock Hidx).
    rewrite length_take. unfold read.
    rewrite lookup_take_lt by done.
    repeat case_decide; try lia; done.
  - unfold BuildHistKernelLocal. cbv zeta. fold nb bs. f_equal.
    apply parallel_for2_ext. intros block feat b Hblock _.
    unfold BuildHistKernelLocal_item. f_equal.
    apply for_each_ext. intros fid [hf b1] _.
    unfold BuildHistKernelLocal_feature. cbv zeta.
    apply bind_ext. intros o1 _. apply bind_ext. intros o0 _.
    apply bind_ext. intros hf1 _. f_equal.
    apply for_range_ext. intros idx hf2 Hidx.
    specialize (Hin block idx Hblock Hidx).
    rewrite length_take. unfold read.
    rewrite lookup_take_lt by done.
    repeat case_decide; try lia; done.
Qed.

End UncoveredRows.

(** * What a completed [UpdatePosition] has checked *)

Lemma stateful_bind_Ok_inv {St A B} (m : stateful St A)
    (k : A → stateful St B) s b s' :
  (m ≫= k) s = (Ok b, s') → ∃ a s1, m s = (Ok a, s1) ∧ k a s1 = (Ok b, s').
Proof.
  unfold mbind, stateful_bind. destruct (m s) as [[a|f] s1]; [|done].
  intros H. by exists a, s1.
Qed.

Lemma lift_Ok_inv {St A} (r : res A) (s s1 : St) a :
  lift r s = (Ok a, s1) → r = Ok a ∧ s1 = s.
Proof. unfold lift. by intros [= -> ->]. Qed.

Lemma sfor_each_Ok_inv {A St} (l : list A) (body : A → stateful St unit)
    s s' u :
  sfor_each l body s = (Ok u, s') →
  ∀ x, x ∈ l → ∃ s1 s2, body x s1 = (Ok tt, s2).
Proof.
  revert s. induction l as [|y l IH]; intros s H x Hx.
  - by apply elem_of_nil in Hx.
  - simpl in H. apply stateful_bind_Ok_inv in H as ([] & s1 & Hy & Hrest).
    apply elem_of_cons in Hx as [->|Hx]; [by exists s, s1|].
    by apply (IH s1).
Qed.

Section UpdatePositionCompleted.
Context {Float : Type} `{!FloatEq Float}.
Variable MaskRows_pass :
  list Z → list (list nat) → list Z → list Z → list Z * list Z.
Variable PartitionByMask_pass :
  list (list nat) → list Z → list Z → Scratch.
Variable Partition_pass : list Z → list (list nat) → Scratch.

Lemma UpdatePosition_partition_Ok_inv
    (coll : Collective) (n_threads : nat) (gmat : MatrixView Float)
    (nodes : list ExpandEntry) (p_tree : RegTree Float)
    (self self' : CommonRowPartitioner) u :
  UpdatePosition_partition MaskRows_pass PartitionByMask_pass Partition_pass
    coll n_threads gmat nodes p_tree self = (Ok u, self') →
  base_rowid self = gmat_base_rowid gmat
  ∧ (column_matrix_IsInitialized gmat = true →
     is_Ok (FindSplitConditions nodes p_tree (cut_Ptrs gmat)
              (cut_Values gmat) (replicate (length nodes) 0%Z)))
  ∧ is_Ok (all_node_rows (row_set_collection_ self) nodes).
Proof.
  unfold UpdatePosition_partition. cbv zeta. intros H.
  apply stateful_bind_Ok_inv in H as (sc & t1 & [Hsc ->]%lift_Ok_inv & H).
  apply stateful_bind_Ok_inv in H as (self0 & t2 & Hget & H).
  unfold get in Hget. injection Hget as <- <-.
  apply stateful_bind_Ok_inv in H as (rows & t3 & [Hrows ->]%lift_Ok_inv & H).
  apply stateful_bind_Ok_inv in H as (u1 & t4 & _ & H).
  apply stateful_bind_Ok_inv in H as (u2 & t5 & [Hchk _]%lift_Ok_inv & _).
  apply check_Ok_inv, Nat.eqb_eq in Hchk.
  split_and!; [done| |by exists rows].
  intros Hinit. rewrite Hinit in Hsc. by exists sc.
Qed.

Lemma AddSplitsToRowSet_Ok_inv
    (nodes : list ExpandEntry) (p_tree : RegTree Float)
    (self self' : CommonRowPartitioner) u :
  AddSplitsToRowSet nodes p_tree self = (Ok u, self') →
  ∀ i e, nodes !! i = Some e →
    (LeftChild p_tree (nid e) + 1 = RightChild p_tree (nid e))%Z.
Proof.
  unfold AddSplitsToRowSet. cbv zeta. intros H i e He.
  destruct (sfor_each_Ok_inv _ _ _ _ _ H i) as (s1 & s2 & Hbody).
  { apply list_elem_of_In, in_seq. apply lookup_lt_Some in He. lia. }
  apply stateful_bind_Ok_inv in Hbody as (self0 & t1 & _ & Hbody).
  apply stateful_bind_Ok_inv in Hbody
    as (e' & t2 & [He'%read_Ok _]%lift_Ok_inv & Hbody).
  assert (e' = e) as -> by congruence. cbv zeta in Hbody.
  apply stateful_bind_Ok_inv in Hbody as (n_left & t3 & _ & Hbody).
  apply stateful_bind_Ok_inv in Hbody as (n_right & t4 & _ & Hbody).
  apply stateful_bind_Ok_inv in Hbody
    as (u1 & t5 & [Hchk _]%lift_Ok_inv & _).
  by apply check_Ok_inv, Z.eqb_eq in Hchk.
Qed.

(** X14. When [UpdatePosition] completes, its checks have passed: the
    partitioner and the matrix have the same [base_rowid]; when the column
    matrix is initialised, [FindSplitConditions] has completed on the
    nodes; every node of the batch had a range in the row-set collection;
    and the children of every node have consecutive identifiers, as
    [AddSplitsToRowSet] requires.  In any other case [UpdatePosition]
    stops with a fault. *)
Theorem UpdatePosition_completed
    (coll : Collective) (n_threads : nat) (gmat : MatrixView Float)
    (nodes : list ExpandEntry) (p_tree : RegTree Float)
    (self self' : CommonRowPartitioner) :
  UpdatePosition MaskRows_pass PartitionByMask_pass Partition_pass
    coll n_threads gmat nodes p_tree self = (Ok tt, self') →
  base_rowid self = gmat_base_rowid gmat
  ∧ (column_matrix_IsInitialized gmat = true →
     is_Ok (FindSplitConditions nodes p_tree (cut_Ptrs gmat)
              (cut_Values gmat) (replicate (length nodes) 0%Z)))
  ∧ is_Ok (all_node_rows (row_set_collection_ self) nodes)
  ∧ ∀ i e, nodes !! i = Some e →
      (LeftChild p_tree (nid e) + 1 = RightChild p_tree (nid e))%Z.
Proof.
  unfold UpdatePosition. intros H.
  apply stateful_bind_Ok_inv in H as (u1 & s1 & Hpart & H).
  apply stateful_bind_Ok_inv in H as (u2 & s2 & _ & Hadd).
  apply UpdatePosition_partition_Ok_inv in Hpart as (Hbase & Hsc & Hrows).
  split_and!; [done..|].
  by eapply AddSplitsToRowSet_Ok_inv.
Qed.

End UpdatePositionCompleted.

Lemma UpdatePosition_completed_witness :
  base_rowid (ex_partitioner false) = gmat_base_rowid (ex_matrix_view 0)
  ∧ (column_matrix_IsInitialized (ex_matrix_view 0) = true →
     is_Ok (FindSplitConditions ex_nodes ex_tree (cut_Ptrs (ex_matrix_view 0))
              (cut_Values (ex_matrix_view 0))
              (replicate (length ex_nodes) 0%Z)))
  ∧ is_Ok (all_node_rows (row_set_collection_ (ex_partitioner false))
             ex_nodes)
  ∧ ∀ i e, ex_nodes !! i = Some e →
      (LeftChild ex_tree (nid e) + 1 = RightChild ex_tree (nid e))%Z.
Proof.
  eapply (UpdatePosition_completed ex_MaskRows_pass ex_PartitionByMask_pass
            ex_Partition_pass ex_collective 2 (ex_matrix_view 0) ex_nodes
            ex_tree (ex_partitioner false)).
  by vm_compute.
Defined.

(** * Subtracting twice *)

Section SubtractionRoundTrip.
Context {ValueT FPType : Type} {ops : FPOps ValueT FPType}.
Context {exact : FPExact ops} {group : FPGroup ops}.
Local Abbreviation GradientPairT := (GradientPairInternal FPType).

Lemma SubtractionTrick_full (self sibling parent : list GradientPairT) :
  length sibling = length self → length parent = length self →
  SubtractionTrick self sibling parent = Ok (zip_with gp_sub parent sibling).
Proof.
  intros Hs Hp. unfold SubtractionTrick.
  rewrite Hs, Hp, Nat.eqb_refl. simpl.
  unfold SubtractionHist. cbv zeta. rewrite for_range_double.
  rewrite SubtractionHist_prefix by lia.
  by rewrite drop_ge, app_nil_r, !firstn_all2 by lia.
Qed.

Lemma gp_sub_sub (x y : GradientPairT) : gp_sub x (gp_sub x y) = y.
Proof.
  destruct x as [xg xh], y as [yg yh]. unfold gp_sub. simpl.
  assert (∀ a b : FPType, fp_sub a (fp_sub a b) = b) as H.
  { intros a b. rewrite <- (fp_sub_add a b) at 1.
    by rewrite fp_add_comm, fp_add_sub. }
  by rewrite !H.
Qed.

(** X15. Subtracting twice gives the sibling back: when [SubtractionTrick]
    has computed a child's histogram as the parent's minus the sibling's,
    a second [SubtractionTrick] on that result and the same parent leaves
    the sibling's histogram in its destination.  Arithmetic is exact, with
    an exact subtraction, and the histograms have the same size. *)
Theorem SubtractionTrick_twice_gives_sibling
    (self self' sibling parent : list GradientPairT) :
  length sibling = length self → length parent = length self →
  length self' = length self →
  ∃ child,
    SubtractionTrick self sibling parent = Ok child
    ∧ SubtractionTrick self' child parent = Ok sibling.
Proof.
  intros Hs Hp Hs'. exists (zip_with gp_sub parent sibling).
  split; [by apply SubtractionTrick_full|].
  rewrite SubtractionTrick_full by (rewrite ?length_zip_with; lia).
  f_equal. apply list_eq. intros i. rewrite !lookup_zip_with.
  destruct (parent !! i) as [p|] eqn:Hpi, (sibling !! i) as [s|] eqn:Hsi;
    simpl; [by rewrite gp_sub_sub|..|done].
  - apply lookup_lt_Some in Hpi. apply lookup_ge_None in Hsi. lia.
  - apply lookup_lt_Some in Hsi. apply lookup_ge_None in Hpi. lia.
Qed.

End SubtractionRoundTrip.

Lemma SubtractionTrick_twice_gives_sibling_witness :
  ∃ child,
    SubtractionTrick ex_hist ex_scratch1 ex_scratch2 = Ok child
    ∧ SubtractionTrick ex_hist child ex_scratch2 = Ok ex_scratch1.
Proof.
  apply (SubtractionTrick_twice_gives_sibling ex_hist ex_hist ex_scratch1
           ex_scratch2); reflexivity.
Defined.

(** * A failed all-reduce *)

Section CollectiveFailure.
Variable MaskRows_pass :
  list Z → list (list nat) → list Z → list Z → list Z * list Z.
Variable PartitionByMask_pass :
  list (list nat) → list Z → list Z → Scratch.

(** X16. When the transport of the collective fails,
    [ColumnSplitHelper::Partition] does not complete, and the second pass,
    which partitions the rows by the aggregated bits, has not run: the
    partition builder and the row-set collection are as they were. *)
Theorem ColumnSplitHelper_Partition_collective_failure
    (coll : Collective) (n_threads : nat) (nodes : list ExpandEntry)
    (split_conditions : list Z) (self : CommonRowPartitioner) :
  transport_ok coll = false →
  ∃ f self',
    ColumnSplitHelper_Partition MaskRows_pass PartitionByMask_pass coll
      n_threads nodes split_conditions self = (Fault f, self')
    ∧ partition_builder_ self' = partition_builder_ self
    ∧ row_set_collection_ self' = row_set_collection_ self.
Proof.
  intros Hfail. unfold ColumnSplitHelper_Partition, Allreduce.
  rewrite Hfail. cbv zeta.
  unfold mbind, stateful_bind, lift, get, modify.
  destruct (all_node_rows _ _) as [rows|f]; [|by eauto].
  destruct (MaskRows_pass _ _ _ _) as [td tm].
  destruct (make_tloc td _ 0) as [d|f]; [|by eauto].
  destruct (make_tloc tm _ 0) as [m|f]; [|by eauto].
  destruct (for_each _ _ _) as [[td' tm']|f]; [|by eauto].
  destruct (copy_n td' _ _) as [ds|f]; [|by eauto].
  destruct (copy_n tm' _ _) as [ms|f]; [|by eauto].
  by eauto.
Qed.

End CollectiveFailure.

Lemma ColumnSplitHelper_Partition_collective_failure_witness :
  ∃ f self',
    ColumnSplitHelper_Partition ex_MaskRows_pass ex_PartitionByMask_pass
      {| transport_ok := false; peers_decision := []; peers_missing := [] |}
      2 ex_nodes [2%Z] (ex_partitioner true) = (Fault f, self')
    ∧ partition_builder_ self' = partition_builder_ (ex_partitioner true)
    ∧ row_set_collection_ self' = row_set_collection_ (ex_partitioner true).
Proof.
  apply (ColumnSplitHelper_Partition_collective_failure ex_MaskRows_pass
           ex_PartitionByMask_pass
           {| transport_ok := false; peers_decision := [];
              peers_missing := [] |}
           2 ex_nodes [2%Z] (ex_partitioner true)).
  reflexivity.
Defined.
